(** * ColorNoise: the noise generators, gain governor and effect controls

    A shallow embedding of the signal-path code of the ColorNoise sound
    designer ([js/sound_designer_engine.js], [js/NoiseGenerator.js] and the
    [AudioEffects] class) together with the properties its design document
    states about it, and of the code around it: the controls of the page,
    profiles, the player, the effects chain, the auto-off timer and the
    preset removal tool, with the properties the code itself shows.

    Conventions of the embedding:
    - a JavaScript number is a real number ([R]); rounding of IEEE doubles
      and of [Float32Array] cells is not modelled, and neither are NaN and
      the infinities;
    - [Math.random()] reads the next value of an arbitrary stream of draws,
      every draw lying in [0,1) where a property needs it;
    - a method that mutates [this] is a function on the object's record; a
      method that also returns a value lives in the state monad [M];
    - a Web Audio node is the record of the parameters the code writes;
      a field that is [null] until the audio graph is built is an [option]. *)

From Stdlib Require Import Reals Lra Lia ZArith.
From stdpp Require Import base option list strings gmap.

Open Scope R_scope.

(** ** JavaScript numerics *)

Module Js.

Definition Math_abs (x : R) : R := Rabs x.

Definition Math_sign (x : R) : R :=
  if Rlt_dec 0 x then 1 else if Rlt_dec x 0 then -1 else 0.

Definition Math_max (x y : R) : R := Rmax x y.
Definition Math_min (x y : R) : R := Rmin x y.
Definition Math_sqrt (x : R) : R := sqrt x.
Definition Math_tanh (x : R) : R := tanh x.
Definition Math_PI : R := PI.

(** [a > b] as a JavaScript condition. *)
Definition gtb (a b : R) : bool := if Rgt_dec a b then true else false.

(** Reading cell [i] of an array of numbers.  Every array read by the
    modelled code has a fixed size and is read in range. *)
Definition get (l : list R) (i : nat) : R := default 0 (l !! i).

(** [Array.prototype.findIndex]: the first index whose element satisfies
    [p], and [-1] when there is none. *)
Fixpoint findIndex_from {A} (p : A -> bool) (l : list A) (i : Z) : Z :=
  match l with
  | [] => (-1)%Z
  | x :: l' => if p x then i else findIndex_from p l' (i + 1)%Z
  end.

Definition findIndex {A} (p : A -> bool) (l : list A) : Z :=
  findIndex_from p l 0%Z.

End Js.

(** ** The random source and the state monad *)

Record Rng := mkRng {
  stream : N -> R;      (* the draws, in the order they will be made *)
  cursor : N            (* how many have been made *)
}.

(** Every draw of the source is a value [Math.random()] can return. *)
Definition fair (g : Rng) : Prop := forall n, 0 <= stream g n < 1.

Definition M (S A : Type) : Type := S -> A * S.

Definition ret {S A} (a : A) : M S A := fun s => (a, s).

Definition bind {S A B} (m : M S A) (k : A -> M S B) : M S B :=
  fun s => let '(a, s') := m s in k a s'.

Notation "x <- m ;; k" := (bind m (fun x => k))
  (at level 100, m at next level, right associativity).

Definition gets {S A} (f : S -> A) : M S A := fun s => (f s, s).
Definition modify {S} (f : S -> S) : M S unit := fun s => (tt, f s).

(** From a state satisfying [I], the computation [m] returns a value
    satisfying [Q] and leaves a state satisfying [I]. *)
Definition yields {S A} (I : S -> Prop) (m : M S A) (Q : A -> Prop) : Prop :=
  forall s, I s -> Q (m s).1 /\ I (m s).2.

(** [m] keeps the invariant [I]. *)
Definition preserves {S A} (I : S -> Prop) (m : M S A) : Prop :=
  yields I m (fun _ => True).

(** An object from which [Math.random()] can be called. *)
Class Random (S : Type) := {
  rngOf : S -> Rng;
  withRng : Rng -> S -> S
}.

Definition Math_random {S} `{Random S} : M S R :=
  fun s =>
    let g := rngOf s in
    (stream g (cursor g), withRng (mkRng (stream g) (N.succ (cursor g))) s).

(** ** SoundDesignerEngine *)

Module Engine.
Import Js.

(** [this.noiseStates] *)
Record NoiseStates := mkNoiseStates {
  brown : R;                   (* brown.state *)
  pink_generators : list R;    (* pink.generators, 7 cells *)
  pink_counters : list Z;      (* pink.counters, 7 cells *)
  violet_state : R;            (* violet.state *)
  violet_prev : R;             (* violet.prev *)
  gray : list R;               (* gray.state, 4 cells *)
  red : R;                     (* red.state *)
  green : list R               (* green.filterState, 6 cells *)
}.

Record BandConfig := mkBand {
  name : string;
  freq : R;
  type : string
}.

Record BiquadFilter := mkBiquad {
  f_type : string;
  f_frequency : R;
  f_Q : R;
  f_gain : R
}.

Inductive Panner :=
| StereoPanner (pan : R)       (* createStereoPanner(), has a [pan] *)
| PannerFallback (gain : R).   (* the gain node used on iOS, no [pan] *)

Record Compressor := mkCompressor {
  threshold : R;
  knee : R;
  ratio : R;
  attack : R;
  release : R
}.

(** [saturationGain] and [saturationNode], which [createEffects] builds
    together. *)
Record Saturation := mkSaturation {
  sat_gain : R;          (* saturationGain.gain.value *)
  sat_curve : list R     (* saturationNode.curve *)
}.

Record SoundDesignerEngine := mkEngine {
  isPlaying : bool;                    (* the engine is playing *)
  currentNoiseType : string;           (* the active noise type *)
  scriptNodeConnected : bool;          (* scriptNode is built and connected *)
  masterGain : option R;               (* masterGain.gain.value *)
  eqBands : list BiquadFilter;         (* the ten filters, once built *)
  reverbGain : option R;               (* reverbGain.gain.value *)
  dryGain : option R;                  (* dryGain.gain.value *)
  spatialPanner : option Panner;
  warmthFilter : option BiquadFilter;
  saturation : option Saturation;      (* saturationGain, saturationNode *)
  compressor : option Compressor;
  modulationGain : option R;           (* modulationGain.gain.value *)
  limiter : option (list R);           (* limiter.curve *)
  noiseStates : NoiseStates;
  rng : Rng                            (* the source behind Math.random() *)
}.

(** Field updates. *)
Definition withPlaying (b : bool) (e : SoundDesignerEngine)
    : SoundDesignerEngine :=
  mkEngine b (currentNoiseType e) (scriptNodeConnected e) (masterGain e)
    (eqBands e) (reverbGain e) (dryGain e) (spatialPanner e)
    (warmthFilter e) (saturation e) (compressor e) (modulationGain e)
    (limiter e) (noiseStates e) (rng e).

Definition withNoiseType (t : string) (e : SoundDesignerEngine)
    : SoundDesignerEngine :=
  mkEngine (isPlaying e) t (scriptNodeConnected e) (masterGain e)
    (eqBands e) (reverbGain e) (dryGain e) (spatialPanner e)
    (warmthFilter e) (saturation e) (compressor e) (modulationGain e)
    (limiter e) (noiseStates e) (rng e).

Definition withMasterGain (g : option R) (e : SoundDesignerEngine)
    : SoundDesignerEngine :=
  mkEngine (isPlaying e) (currentNoiseType e) (scriptNodeConnected e) g
    (eqBands e) (reverbGain e) (dryGain e) (spatialPanner e)
    (warmthFilter e) (saturation e) (compressor e) (modulationGain e)
    (limiter e) (noiseStates e) (rng e).

Definition withEqBands (l : list BiquadFilter) (e : SoundDesignerEngine)
    : SoundDesignerEngine :=
  mkEngine (isPlaying e) (currentNoiseType e) (scriptNodeConnected e)
    (masterGain e) l (reverbGain e) (dryGain e) (spatialPanner e)
    (warmthFilter e) (saturation e) (compressor e) (modulationGain e)
    (limiter e) (noiseStates e) (rng e).

Definition withReverbGain (g : option R) (e : SoundDesignerEngine)
    : SoundDesignerEngine :=
  mkEngine (isPlaying e) (currentNoiseType e) (scriptNodeConnected e)
    (masterGain e) (eqBands e) g (dryGain e) (spatialPanner e)
    (warmthFilter e) (saturation e) (compressor e) (modulationGain e)
    (limiter e) (noiseStates e) (rng e).

Definition withDryGain (g : option R) (e : SoundDesignerEngine)
    : SoundDesignerEngine :=
  mkEngine (isPlaying e) (currentNoiseType e) (scriptNodeConnected e)
    (masterGain e) (eqBands e) (reverbGain e) g (spatialPanner e)
    (warmthFilter e) (saturation e) (compressor e) (modulationGain e)
    (limiter e) (noiseStates e) (rng e).

Definition withSpatialPanner (p : option Panner) (e : SoundDesignerEngine)
    : SoundDesignerEngine :=
  mkEngine (isPlaying e) (currentNoiseType e) (scriptNodeConnected e)
    (masterGain e) (eqBands e) (reverbGain e) (dryGain e) p
    (warmthFilter e) (saturation e) (compressor e) (modulationGain e)
    (limiter e) (noiseStates e) (rng e).

Definition withWarmthFilter (w : option BiquadFilter) (e : SoundDesignerEngine)
    : SoundDesignerEngine :=
  mkEngine (isPlaying e) (currentNoiseType e) (scriptNodeConnected e)
    (masterGain e) (eqBands e) (reverbGain e) (dryGain e)
    (spatialPanner e) w (saturation e) (compressor e) (modulationGain e)
    (limiter e) (noiseStates e) (rng e).

Definition withSaturation (s : option Saturation) (e : SoundDesignerEngine)
    : SoundDesignerEngine :=
  mkEngine (isPlaying e) (currentNoiseType e) (scriptNodeConnected e)
    (masterGain e) (eqBands e) (reverbGain e) (dryGain e)
    (spatialPanner e) (warmthFilter e) s (compressor e) (modulationGain e)
    (limiter e) (noiseStates e) (rng e).

Definition withCompressor (c : option Compressor) (e : SoundDesignerEngine)
    : SoundDesignerEngine :=
  mkEngine (isPlaying e) (currentNoiseType e) (scriptNodeConnected e)
    (masterGain e) (eqBands e) (reverbGain e) (dryGain e)
    (spatialPanner e) (warmthFilter e) (saturation e) c (modulationGain e)
    (limiter e) (noiseStates e) (rng e).

Definition withModulationGain (g : option R) (e : SoundDesignerEngine)
    : SoundDesignerEngine :=
  mkEngine (isPlaying e) (currentNoiseType e) (scriptNodeConnected e)
    (masterGain e) (eqBands e) (reverbGain e) (dryGain e)
    (spatialPanner e) (warmthFilter e) (saturation e) (compressor e) g
    (limiter e) (noiseStates e) (rng e).

Definition withNoiseStates (f : NoiseStates -> NoiseStates) (e : SoundDesignerEngine)
    : SoundDesignerEngine :=
  mkEngine (isPlaying e) (currentNoiseType e) (scriptNodeConnected e)
    (masterGain e) (eqBands e) (reverbGain e) (dryGain e)
    (spatialPanner e) (warmthFilter e) (saturation e) (compressor e)
    (modulationGain e) (limiter e) (f (noiseStates e)) (rng e).

Definition withEngineRng (g : Rng) (e : SoundDesignerEngine)
    : SoundDesignerEngine :=
  mkEngine (isPlaying e) (currentNoiseType e) (scriptNodeConnected e)
    (masterGain e) (eqBands e) (reverbGain e) (dryGain e)
    (spatialPanner e) (warmthFilter e) (saturation e) (compressor e)
    (modulationGain e) (limiter e) (noiseStates e) g.

#[global] Instance engine_random : Random SoundDesignerEngine :=
  {| rngOf := rng; withRng := withEngineRng |}.

(** ** Noise generation methods *)

(** [generateWhiteNoise] *)
Definition generateWhiteNoise : M SoundDesignerEngine R :=
  r <- Math_random ;;
  ret ((r * 2 - 1) * 0.3).

Definition updateRates : list Z := [1; 2; 4; 8; 16; 32; 64]%Z.

(** One call of the callback given to [updateRates.forEach] in
    [generatePinkNoise]; the running [sum] is the result. *)
Definition pinkRow (sum : R) (rate : Z) (index : nat)
    : M SoundDesignerEngine R :=
  c <- gets (fun e => default 0%Z (pink_counters (noiseStates e) !! index)) ;;
  _ <- (if (c mod rate =? 0)%Z
        then r <- Math_random ;;
             modify (withNoiseStates (fun n =>
               mkNoiseStates (brown n)
                 (<[index := r * 2 - 1]> (pink_generators n))
                 (pink_counters n) (violet_state n) (violet_prev n)
                 (gray n) (red n) (green n)))
        else ret tt) ;;
  g <- gets (fun e => get (pink_generators (noiseStates e)) index) ;;
  _ <- modify (withNoiseStates (fun n =>
         mkNoiseStates (brown n) (pink_generators n)
           (<[index := (c + 1)%Z]> (pink_counters n))
           (violet_state n) (violet_prev n) (gray n) (red n) (green n))) ;;
  ret (sum + g).

Fixpoint pinkRows (sum : R) (rates : list Z) (index : nat)
    : M SoundDesignerEngine R :=
  match rates with
  | [] => ret sum
  | rate :: rest =>
      sum' <- pinkRow sum rate index ;;
      pinkRows sum' rest (Datatypes.S index)
  end.

(** [generatePinkNoise] *)
Definition generatePinkNoise : M SoundDesignerEngine R :=
  sum <- pinkRows 0 updateRates 0 ;;
  ret (sum * 0.05).

(** The state update of [generateBrownNoise] for the draw [r]: the leaky
    integrator followed by the "gentle limiting". *)
Definition brownStep (state r : R) : R :=
  let scaling := 0.02 in
  let leakage := 0.999 in
  let randomStep := (r * 2 - 1) * scaling in
  let state := state * leakage + randomStep in
  if gtb (Math_abs state) 0.95 then
    let sign := Math_sign state in
    let excess := Math_abs state - 0.95 in
    sign * (0.95 + excess * 0.1)
  else state.

(** [generateBrownNoise] *)
Definition generateBrownNoise : M SoundDesignerEngine R :=
  r <- Math_random ;;
  _ <- modify (withNoiseStates (fun n =>
         mkNoiseStates (brownStep (brown n) r) (pink_generators n)
           (pink_counters n) (violet_state n) (violet_prev n)
           (gray n) (red n) (green n))) ;;
  s <- gets (fun e => brown (noiseStates e)) ;;
  ret (s * 0.4).

(** [generateBlueNoise] *)
Definition generateBlueNoise : M SoundDesignerEngine R :=
  whiteNoise <- generateWhiteNoise ;;
  r <- Math_random ;;
  ret (whiteNoise * (1 + r * 0.5) * 0.6).

(** [generateVioletNoise] *)
Definition generateVioletNoise : M SoundDesignerEngine R :=
  input <- generateWhiteNoise ;;
  prev <- gets (fun e => violet_prev (noiseStates e)) ;;
  let output := input - prev in
  _ <- modify (withNoiseStates (fun n =>
         mkNoiseStates (brown n) (pink_generators n) (pink_counters n)
           (violet_state n) input (gray n) (red n) (green n))) ;;
  ret (output * 0.5).

(** One turn of the loop of [generateGrayNoise]: cell [i] and the running
    [output]. *)
Definition grayStage (st : list R * R) (i : nat) : list R * R :=
  let '(state, output) := st in
  let filtered := 0.7 * output + 0.3 * get state i in
  let state := <[Datatypes.S i := get state i]> state in
  let state := <[i := filtered]> state in
  (state, filtered).

(** [generateGrayNoise] *)
Definition generateGrayNoise : M SoundDesignerEngine R :=
  input <- generateWhiteNoise ;;
  state <- gets (fun e => gray (noiseStates e)) ;;
  let '(state', output) :=
    foldl grayStage (state, input) (seq 0 (length state - 1)) in
  _ <- modify (withNoiseStates (fun n =>
         mkNoiseStates (brown n) (pink_generators n) (pink_counters n)
           (violet_state n) (violet_prev n) state' (red n) (green n))) ;;
  ret (output * 0.6).

(** The state update of [generateRedNoise] for the draw [r]. *)
Definition redStep (state r : R) : R :=
  let scaling := 0.01 in
  let leakage := 0.9995 in
  let randomStep := (r * 2 - 1) * scaling in
  state * leakage + randomStep.

(** [generateRedNoise] *)
Definition generateRedNoise : M SoundDesignerEngine R :=
  r <- Math_random ;;
  _ <- modify (withNoiseStates (fun n =>
         mkNoiseStates (brown n) (pink_generators n) (pink_counters n)
           (violet_state n) (violet_prev n) (gray n)
           (redStep (red n) r) (green n))) ;;
  s <- gets (fun e => red (noiseStates e)) ;;
  ret (s * 0.8).

(** One turn of the loop of [generateGreenNoise], at the even index [i]. *)
Definition greenStage (st : list R * R) (i : nat) : list R * R :=
  let '(filterState, sample) := st in
  let hp := sample - get filterState i * 0.95 in
  let lp := hp * 0.1 + get filterState (Datatypes.S i) * 0.9 in
  let filterState := <[i := sample]> filterState in
  let filterState := <[Datatypes.S i := lp]> filterState in
  (filterState, lp).

(** The indices [0, 2, 4, ...] below [len - 1]. *)
Definition evenIndices (len : nat) : list nat :=
  (fun k => (2 * k)%nat) <$> seq 0 (len / 2).

(** [generateGreenNoise] *)
Definition generateGreenNoise : M SoundDesignerEngine R :=
  input <- generateWhiteNoise ;;
  filterState <- gets (fun e => green (noiseStates e)) ;;
  let '(filterState', sample) :=
    foldl greenStage (filterState, input)
      (evenIndices (length filterState)) in
  _ <- modify (withNoiseStates (fun n =>
         mkNoiseStates (brown n) (pink_generators n) (pink_counters n)
           (violet_state n) (violet_prev n) (gray n) (red n)
           filterState')) ;;
  ret (sample * 1.2).

(** ** The audio graph *)

(** [this.eqFrequencies] *)
Definition eqFrequencies : list BandConfig := [
  mkBand "subbass" 40 "lowshelf";
  mkBand "bass" 80 "peaking";
  mkBand "lowbass" 160 "peaking";
  mkBand "lowmid" 320 "peaking";
  mkBand "mid" 640 "peaking";
  mkBand "uppermid" 1280 "peaking";
  mkBand "lowtreble" 2560 "peaking";
  mkBand "treble" 5120 "peaking";
  mkBand "air" 10240 "peaking";
  mkBand "ultrahigh" 16000 "highshelf"
].

(** [createEqualizer] *)
Definition createEqualizer (e : SoundDesignerEngine) : SoundDesignerEngine :=
  withEqBands
    ((fun bandConfig =>
        mkBiquad (type bandConfig) (freq bandConfig)
          (if decide (type bandConfig = "peaking") then 1.0 else 0.7) 0)
     <$> eqFrequencies) e.

(** The length of the two wave-shaper tables. *)
Definition samples : nat := Z.to_nat 44100.

(** The abscissa of cell [i] of a table: [(i * 2) / samples - 1]. *)
Definition abscissa (i : nat) : R := (INR i * 2) / INR samples - 1.

(** The formula stored in cell [i] of [createSaturationCurve(amount)], as
    a function of the abscissa [x]. *)
Definition saturationAt (amount x : R) : R :=
  let deg := Math_PI / 180 in
  ((3 + amount * 20) * x * 20 * deg) / (Math_PI + amount * Math_abs x).

(** [createSaturationCurve] *)
Definition createSaturationCurve (amount : R) : list R :=
  (fun i => saturationAt amount (abscissa i)) <$> seq 0 samples.

(** The formula stored in cell [i] of [createSoftLimiterCurve]. *)
Definition softLimiterAt (x : R) : R := Math_tanh (x * 0.7) * 0.95.

(** [createSoftLimiterCurve] *)
Definition createSoftLimiterCurve : list R :=
  (fun i => softLimiterAt (abscissa i)) <$> seq 0 samples.

(** The constructor: no node is built, nothing plays, white is selected,
    and the seven pink rows are drawn. *)
Definition construct (g : Rng) : SoundDesignerEngine :=
  mkEngine false "white" false None [] None None None None None None None
    None
    (mkNoiseStates 0
       ((fun k => stream g (cursor g + N.of_nat k)%N * 2 - 1) <$> seq 0 7)
       (replicate 7 0%Z) 0 0 (replicate 4 0) 0 (replicate 6 0))
    (mkRng (stream g) (cursor g + 7)%N).

(** [createAudioGraph], with [createEffects] and [connectAudioGraph]: the
    parameters the nodes start with.  [stereo] tells whether the panner
    is a [StereoPanner] (it is a plain gain node on iOS).  The analyser
    and the impulse response of the convolver are left out, except that
    [createReverbImpulse(3.0, 0.7)] draws 2 * 132300 random numbers. *)
Definition createAudioGraph (stereo : bool) (e : SoundDesignerEngine)
    : SoundDesignerEngine :=
  let e := createEqualizer (withMasterGain (Some 1.0) e) in
  mkEngine (isPlaying e) (currentNoiseType e) true
    (masterGain e) (eqBands e)
    (Some 0.2) (Some 0.8)
    (Some (if stereo then StereoPanner 0 else PannerFallback 1.0))
    (Some (mkBiquad "lowpass" 8000 0.7 0))
    (Some (mkSaturation 1 (createSaturationCurve 0.5)))
    (Some (mkCompressor (-24) 30 3 0.1 0.25))
    (Some 0)
    (Some createSoftLimiterCurve)
    (noiseStates e)
    (mkRng (stream (rng e)) (cursor (rng e) + 264600)%N).

(** ** Control methods *)

(** The loop of [updateAutoGainCompensation]: the total of the positive
    gains. *)
Definition totalBoost (bands : list BiquadFilter) : R :=
  foldl (fun totalBoost band =>
           let gain := f_gain band in
           if gtb gain 0 then totalBoost + gain else totalBoost)
        0 bands.

Definition compensationFactor (bands : list BiquadFilter) : R :=
  if gtb (totalBoost bands) 20 then 20 / totalBoost bands else 1.0.

(** [updateAutoGainCompensation] *)
Definition updateAutoGainCompensation (e : SoundDesignerEngine)
    : SoundDesignerEngine :=
  let baseVolume := 1.0 in
  let compensatedVolume := baseVolume * compensationFactor (eqBands e) in
  match masterGain e with
  | Some _ => withMasterGain (Some compensatedVolume) e
  | None => e
  end.

Definition setGain (gainDb : R) (f : BiquadFilter) : BiquadFilter :=
  mkBiquad (f_type f) (f_frequency f) (f_Q f) gainDb.

(** [updateEQBand] *)
Definition updateEQBand (bandName : string) (gainDb : R)
    (e : SoundDesignerEngine) : SoundDesignerEngine :=
  let bandIndex :=
    findIndex (fun band => bool_decide (name band = bandName))
      eqFrequencies in
  if bool_decide (bandIndex <> (-1)%Z) then
    match eqBands e !! Z.to_nat bandIndex with
    | Some band =>
        updateAutoGainCompensation
          (withEqBands
             (<[Z.to_nat bandIndex := setGain gainDb band]> (eqBands e)) e)
    | None => e
    end
  else e.

(** [updateEffect] *)
Definition updateEffect (effectName : string) (value : R)
    (e : SoundDesignerEngine) : SoundDesignerEngine :=
  let normalizedValue := value / 100 in
  if decide (effectName = "reverb") then
    match reverbGain e, dryGain e with
    | Some _, Some _ =>
        withDryGain (Some (1 - normalizedValue * 0.5))
          (withReverbGain (Some (normalizedValue * 0.8)) e)
    | _, _ => e
    end
  else if decide (effectName = "spatial") then
    match spatialPanner e with
    | Some (StereoPanner _) =>
        let pan := (normalizedValue - 0.5) * 0.6 in
        withSpatialPanner (Some (StereoPanner pan)) e
    | _ => e
    end
  else if decide (effectName = "warmth") then
    match warmthFilter e with
    | Some w =>
        let freq := 20000 - (normalizedValue * 15000) in
        withWarmthFilter
          (Some (mkBiquad (f_type w) (Math_max 1000 freq) (f_Q w)
                   (f_gain w))) e
    | None => e
    end
  else if decide (effectName = "saturation") then
    match saturation e with
    | Some _ =>
        withSaturation
          (Some (mkSaturation (1 + normalizedValue * 1.5)
                   (createSaturationCurve (normalizedValue * 0.8)))) e
    | None => e
    end
  else if decide (effectName = "dynamics") then
    match compressor e with
    | Some c =>
        withCompressor
          (Some (mkCompressor (-40 + normalizedValue * 35) (knee c)
                   (1 + normalizedValue * 8) (attack c) (release c))) e
    | None => e
    end
  else if decide (effectName = "modulation") then
    match modulationGain e with
    | Some _ => withModulationGain (Some (normalizedValue * 0.3)) e
    | None => e
    end
  else e.

(** ** The render callback *)

(** The [switch] of [generateAudio] on the active noise type. *)
Definition noiseSample (noiseType : string) : M SoundDesignerEngine R :=
  if decide (noiseType = "white") then generateWhiteNoise
  else if decide (noiseType = "pink") then generatePinkNoise
  else if decide (noiseType = "brown") then generateBrownNoise
  else if decide (noiseType = "blue") then generateBlueNoise
  else if decide (noiseType = "violet") then generateVioletNoise
  else if decide (noiseType = "gray") then generateGrayNoise
  else if decide (noiseType = "red") then generateRedNoise
  else if decide (noiseType = "green") then generateGreenNoise
  else generateWhiteNoise.

(** The two channels of [event.outputBuffer]; both have [bufferLength]
    cells. *)
Record OutputBuffer := mkBuffer {
  outputL : list R;
  outputR : list R
}.

Definition bufferLength (b : OutputBuffer) : nat := length (outputL b).

(** One turn of the loop of [generateAudio]. *)
Definition renderFrame (b : OutputBuffer) (i : nat)
    : M SoundDesignerEngine OutputBuffer :=
  t <- gets currentNoiseType ;;
  sample <- noiseSample t ;;
  r <- Math_random ;;
  ret (mkBuffer (<[i := sample]> (outputL b))
         (<[i := sample * 0.95 + (r * 0.1 - 0.05)]> (outputR b))).

Fixpoint renderFrames (b : OutputBuffer) (indices : list nat)
    : M SoundDesignerEngine OutputBuffer :=
  match indices with
  | [] => ret b
  | i :: rest => b' <- renderFrame b i ;; renderFrames b' rest
  end.

(** [generateAudio] *)
Definition generateAudio (b : OutputBuffer)
    : M SoundDesignerEngine OutputBuffer :=
  playing <- gets isPlaying ;;
  if negb playing then
    ret (mkBuffer (replicate (length (outputL b)) 0)
           (replicate (length (outputR b)) 0))
  else renderFrames b (seq 0 (bufferLength b)).

(** ** The page, profiles and the noise-type selector *)

(** What the engine reads and writes in the document: the sliders and
    number inputs, by element id, with their [value]; and the noise-type
    buttons, by [data-type], with whether they carry the class
    [active]. *)
Record Page := mkPage {
  elements : gmap string R;
  noiseButtons : list (string * bool)
}.

(** The engine, the page it drives and the messages shown by [alert]. *)
Record App := mkApp {
  engine : SoundDesignerEngine;
  page : Page;
  alerts : list string
}.

(** [classList.add('active')] on the first button whose [data-type] is
    [t], as [document.querySelector] finds it. *)
Fixpoint activate (t : string) (buttons : list (string * bool))
    : list (string * bool) :=
  match buttons with
  | [] => []
  | (d, a) :: rest =>
      if decide (d = t) then (d, true) :: rest
      else (d, a) :: activate t rest
  end.

(** [selectNoiseType] *)
Definition selectNoiseType (t : string) (a : App) : App :=
  let buttons := (fun b : string * bool => (b.1, false)) <$>
                 noiseButtons (page a) in
  mkApp (withNoiseType t (engine a))
    (mkPage (elements (page a)) (activate t buttons))
    (alerts a).

(** A parsed profile.  A field that is absent from the file is [None];
    the gains and effect values are numbers, listed in the order of
    [Object.keys]. *)
Record Profile := mkProfile {
  p_name : option string;
  p_noiseType : option string;
  p_eq : option (list (string * R));
  p_effects : option (list (string * R))
}.

Definition setElement (id : string) (v : R) (a : App) : App :=
  mkApp (engine a)
    (mkPage (<[id := v]> (elements (page a))) (noiseButtons (page a)))
    (alerts a).

Definition onEngine (f : SoundDesignerEngine -> SoundDesignerEngine)
    (a : App) : App :=
  mkApp (f (engine a)) (page a) (alerts a).

Definition alert (msg : string) (a : App) : App :=
  mkApp (engine a) (page a) (alerts a ++ [msg]).

(** The callback of the [forEach] over [Object.keys(profile.eq)]. *)
Definition loadBand (a : App) (entry : string * R) : App :=
  let '(bandName, v) := entry in
  match elements (page a) !! ("eq-" +:+ bandName),
        elements (page a) !! ("val-" +:+ bandName) with
  | Some _, Some _ =>
      onEngine (updateEQBand bandName v)
        (setElement ("val-" +:+ bandName) v
           (setElement ("eq-" +:+ bandName) v a))
  | _, _ => a
  end.

(** The callback of the [forEach] over [Object.keys(profile.effects)]. *)
Definition loadEffect (a : App) (entry : string * R) : App :=
  let '(effectName, v) := entry in
  match elements (page a) !! effectName,
        elements (page a) !! ("val-" +:+ effectName) with
  | Some _, Some _ =>
      onEngine (updateEffect effectName v)
        (setElement ("val-" +:+ effectName) v
           (setElement effectName v a))
  | _, _ => a
  end.

(** The first statement of [loadProfile]: the noise type is selected
    when the profile has one (and it is not the empty string). *)
Definition loadNoiseType (profile : Profile) (a : App) : App :=
  match p_noiseType profile with
  | Some t => if decide (t = "") then a else selectNoiseType t a
  | None => a
  end.

(** [loadProfile] *)
Definition loadProfile (profile : Profile) (a : App) : App :=
  let a := loadNoiseType profile a in
  let a :=
    match p_eq profile with
    | Some eq => foldl loadBand a eq
    | None => a
    end in
  let a :=
    match p_effects profile with
    | Some effects => foldl loadEffect a effects
    | None => a
    end in
  alert ("Profile loaded: " +:+ default "undefined" (p_name profile)) a.

(** What the file chooser and [JSON.parse] hand to [importProfile]. *)
Inductive Upload :=
| NoFile                       (* no file was chosen *)
| BadJson                      (* [JSON.parse] throws *)
| Json (profile : Profile).

(** [importProfile] *)
Definition importProfile (u : Upload) (a : App) : App :=
  match u with
  | NoFile => a
  | BadJson =>
      alert "Error importing profile. Please check the file format." a
  | Json profile => loadProfile profile a
  end.

End Engine.

(** ** NoiseGenerator *)

Module NoiseGen.
Import Js.

Record NoiseGenerator := mkGen {
  currentNoiseType : string;
  brownNoiseState : R;
  pinkNoiseState : list R;            (* 7 cells *)
  pinkNoiseCounters : list Z;         (* 7 cells *)
  greenNoiseBuffer : option (list R); (* undefined until first used *)
  blueNoisePrev : option R;           (* undefined until first used *)
  rng : Rng
}.

#[global] Instance gen_random : Random NoiseGenerator := {|
  rngOf := rng;
  withRng g s :=
    mkGen (currentNoiseType s) (brownNoiseState s) (pinkNoiseState s)
      (pinkNoiseCounters s) (greenNoiseBuffer s) (blueNoisePrev s) g
|}.

Definition updateRates : list Z := [1; 2; 4; 8; 16; 32; 64]%Z.

(** One call of the callback of [updateRates.forEach] in
    [generatePinkNoiseSample]. *)
Definition pinkRow (sum : R) (rate : Z) (index : nat)
    : M NoiseGenerator R :=
  c <- gets (fun s => default 0%Z (pinkNoiseCounters s !! index)) ;;
  _ <- (if (c mod rate =? 0)%Z
        then r <- Math_random ;;
             modify (fun s =>
               mkGen (currentNoiseType s) (brownNoiseState s)
                 (<[index := r * 2 - 1]> (pinkNoiseState s))
                 (pinkNoiseCounters s) (greenNoiseBuffer s)
                 (blueNoisePrev s) (rng s))
        else ret tt) ;;
  g <- gets (fun s => get (pinkNoiseState s) index) ;;
  _ <- modify (fun s =>
         mkGen (currentNoiseType s) (brownNoiseState s) (pinkNoiseState s)
           (<[index := (c + 1)%Z]> (pinkNoiseCounters s))
           (greenNoiseBuffer s) (blueNoisePrev s) (rng s)) ;;
  ret (sum + g).

Fixpoint pinkRows (sum : R) (rates : list Z) (index : nat)
    : M NoiseGenerator R :=
  match rates with
  | [] => ret sum
  | rate :: rest =>
      sum' <- pinkRow sum rate index ;;
      pinkRows sum' rest (Datatypes.S index)
  end.

(** [generatePinkNoiseSample] *)
Definition generatePinkNoiseSample : M NoiseGenerator R :=
  sum <- pinkRows 0 updateRates 0 ;;
  ret (sum * 0.15).

(** The state update of [generateBrownNoiseSample] for the draw [r]. *)
Definition brownStep (state r : R) : R :=
  let scaling := 0.018 in
  let leakage := 0.9995 in
  let randomStep := (r * 2 - 1) * scaling in
  let state := state * leakage + randomStep in
  if gtb (Math_abs state) 0.95 then
    let sign := Math_sign state in
    let excess := Math_abs state - 0.95 in
    sign * (0.95 + excess * 0.1)
  else state.

(** [generateBrownNoiseSample] *)
Definition generateBrownNoiseSample : M NoiseGenerator R :=
  r <- Math_random ;;
  _ <- modify (fun s =>
         mkGen (currentNoiseType s) (brownStep (brownNoiseState s) r)
           (pinkNoiseState s) (pinkNoiseCounters s) (greenNoiseBuffer s)
           (blueNoisePrev s) (rng s)) ;;
  gets brownNoiseState.

(** [generateGreenNoiseSample] *)
Definition generateGreenNoiseSample : M NoiseGenerator R :=
  r <- Math_random ;;
  let whiteNoise := r * 2 - 1 in
  buffer <- gets (fun s => default [0; 0] (greenNoiseBuffer s)) ;;
  let filtered :=
    0.8 * whiteNoise + 0.3 * get buffer 0 - 0.1 * get buffer 1 in
  let buffer := <[1%nat := get buffer 0]> buffer in
  let buffer := <[0%nat := filtered]> buffer in
  _ <- modify (fun s =>
         mkGen (currentNoiseType s) (brownNoiseState s) (pinkNoiseState s)
           (pinkNoiseCounters s) (Some buffer) (blueNoisePrev s)
           (rng s)) ;;
  ret (filtered * 0.7).

(** [x || 0] for a number that may be undefined. *)
Definition orZero (x : option R) : R := default 0 x.

(** [generateBlueNoiseSample] *)
Definition generateBlueNoiseSample : M NoiseGenerator R :=
  r <- Math_random ;;
  let whiteNoise := r * 2 - 1 in
  prev <- gets (fun s => orZero (blueNoisePrev s)) ;;
  let alpha := 0.85 in
  let highpass := alpha * (prev + whiteNoise - prev) in
  _ <- modify (fun s =>
         mkGen (currentNoiseType s) (brownNoiseState s) (pinkNoiseState s)
           (pinkNoiseCounters s) (greenNoiseBuffer s) (Some whiteNoise)
           (rng s)) ;;
  ret (highpass * 0.8).

(** The [switch] of [generateContinuousNoise] on the active type. *)
Definition noiseSample (noiseType : string) : M NoiseGenerator R :=
  if decide (noiseType = "white") then
    r <- Math_random ;; ret (r * 2 - 1)
  else if decide (noiseType = "pink") then generatePinkNoiseSample
  else if decide (noiseType = "brown") then generateBrownNoiseSample
  else if decide (noiseType = "green") then generateGreenNoiseSample
  else if decide (noiseType = "blue") then generateBlueNoiseSample
  else generatePinkNoiseSample.

(** One turn of the loop of [generateContinuousNoise]. *)
Definition renderFrame (b : Engine.OutputBuffer) (i : nat)
    : M NoiseGenerator Engine.OutputBuffer :=
  t <- gets currentNoiseType ;;
  sample <- noiseSample t ;;
  r <- Math_random ;;
  ret (Engine.mkBuffer (<[i := sample]> (Engine.outputL b))
         (<[i := sample * 0.95 + (r * 0.1 - 0.05)]> (Engine.outputR b))).

Fixpoint renderFrames (b : Engine.OutputBuffer) (indices : list nat)
    : M NoiseGenerator Engine.OutputBuffer :=
  match indices with
  | [] => ret b
  | i :: rest => b' <- renderFrame b i ;; renderFrames b' rest
  end.

(** [generateContinuousNoise] *)
Definition generateContinuousNoise (b : Engine.OutputBuffer)
    : M NoiseGenerator Engine.OutputBuffer :=
  renderFrames b (seq 0 (Engine.bufferLength b)).

(** *** The buffer generators *)

(** A [for] loop that fills the cells [i], [i + 1], ... of a new buffer,
    [length] of them; [body i l] is the turn of cell [i], with the local
    variables at [l], and returns the cell and the local variables. *)
Fixpoint fillBuffer {L} (body : nat -> L -> M NoiseGenerator (R * L))
    (i length : nat) (l : L) : M NoiseGenerator (list R) :=
  match length with
  | O => ret []
  | Datatypes.S n =>
      xl <- body i l ;;
      xs <- fillBuffer body (Datatypes.S i) n xl.2 ;;
      ret (xl.1 :: xs)
  end.

(** [generateWhiteNoise(length)] *)
Definition generateWhiteNoise (length : nat) : M NoiseGenerator (list R) :=
  fillBuffer (fun _ _ => r <- Math_random ;; ret (r * 2 - 1, tt)) 0 length tt.

(** The [forEach] over the generators in [generatePinkNoise(length)], for
    cell [i]: the running sum and the values of the generators. *)
Fixpoint bufferRows (i : nat) (sum : R) (rates : list Z) (index : nat)
    (generators : list R) : M NoiseGenerator (R * list R) :=
  match rates with
  | [] => ret (sum, generators)
  | rate :: rest =>
      generators <-
        (if (Z.of_nat i mod rate =? 0)%Z
         then r <- Math_random ;; ret (<[index := r * 2 - 1]> generators)
         else ret generators) ;;
      bufferRows i (sum + get generators index) rest (Datatypes.S index)
        generators
  end.

(** [generatePinkNoise(length)] *)
Definition generatePinkNoise (length : nat) : M NoiseGenerator (list R) :=
  generators <- generateWhiteNoise 7 ;;
  fillBuffer
    (fun i generators =>
       row <- bufferRows i 0 updateRates 0 generators ;;
       ret (row.1 * 0.15, row.2))
    0 length generators.

(** [generateBrownNoise(length)] *)
Definition generateBrownNoise (length : nat) : M NoiseGenerator (list R) :=
  fillBuffer
    (fun _ lastValue =>
       r <- Math_random ;;
       let lastValue := brownStep lastValue r in
       ret (lastValue, lastValue))
    0 length 0.

(** The filter loop of [generateGreenNoise(length)] over the white
    buffer. *)
Fixpoint greenTaps (prev1 prev2 : R) (whiteNoise : list R) : list R :=
  match whiteNoise with
  | [] => []
  | input :: rest =>
      let a0 := 0.8 in
      let a1 := -0.4 in
      let a2 := 0.1 in
      let b1 := 0.3 in
      let b2 := 0.1 in
      let output :=
        a0 * input + a1 * prev1 + a2 * prev2 - b1 * prev1 - b2 * prev2 in
      output * 0.7 :: greenTaps output prev1 rest
  end.

(** [generateGreenNoise(length)] *)
Definition generateGreenNoise (length : nat) : M NoiseGenerator (list R) :=
  whiteNoise <- generateWhiteNoise length ;;
  ret (greenTaps 0 0 whiteNoise).

(** The filter loop of [generateBlueNoise(length)]. *)
Fixpoint blueTaps (prev : R) (whiteNoise : list R) : list R :=
  match whiteNoise with
  | [] => []
  | white :: rest =>
      let alpha := 0.85 in
      let highpass := alpha * (prev + white - prev) in
      highpass * 0.8 :: blueTaps white rest
  end.

(** [generateBlueNoise(length)] *)
Definition generateBlueNoise (length : nat) : M NoiseGenerator (list R) :=
  whiteNoise <- generateWhiteNoise length ;;
  ret (blueTaps 0 whiteNoise).

(** [createNoiseBuffer], for a buffer of [frameCount] frames: the left
    channel is the generated noise, the right channel the same noise moved
    by a thousandth of the buffer and scaled. *)
Definition createNoiseBuffer (noiseType : string) (frameCount : nat)
    : M NoiseGenerator Engine.OutputBuffer :=
  noiseData <-
    (if decide (noiseType = "white") then generateWhiteNoise frameCount
     else if decide (noiseType = "pink") then generatePinkNoise frameCount
     else if decide (noiseType = "brown") then generateBrownNoise frameCount
     else if decide (noiseType = "green") then generateGreenNoise frameCount
     else if decide (noiseType = "blue") then generateBlueNoise frameCount
     else generatePinkNoise frameCount) ;;
  let phaseOffset := (frameCount / 1000)%nat in
  ret (Engine.mkBuffer noiseData
         ((fun i => get noiseData ((i + phaseOffset) mod frameCount) * 0.95)
          <$> seq 0 frameCount)).

End NoiseGen.

(** ** AudioEffects *)

Module Effects.
Import Js.

(** The reverb mix of an [AudioEffects] object; the gains are [null]
    until [createReverbEffect] has run. *)
Record AudioEffects := mkEffects {
  reverbLevel : R;
  dryGain : option R;        (* dryGain.gain.value *)
  reverbGain : option R      (* reverbGain.gain.value *)
}.

(** [setReverbLevel] *)
Definition setReverbLevel (level : R) (fx : AudioEffects) : AudioEffects :=
  let reverbLevel := Math_max 0 (Math_min 1 level) in
  match dryGain fx, reverbGain fx with
  | Some _, Some _ =>
      let dryLevel := Math_sqrt (1 - reverbLevel) in
      let wetLevel := Math_sqrt reverbLevel in
      mkEffects reverbLevel (Some dryLevel) (Some wetLevel)
  | d, w => mkEffects reverbLevel d w
  end.

End Effects.

(** ** The controls of the sound designer page *)

Module Controls.
Import Js Engine.

(** [parseInt] of the [value] of a control.  The page keeps the values as
    numbers, of which [parseInt] keeps the integer part (towards zero). *)
Definition parseInt (x : R) : R :=
  if Rle_dec 0 x then IZR (Int_part x) else - IZR (Int_part (- x)).

(** The effects [setupUIEventListeners] and [exportProfile] list. *)
Definition effects : list string :=
  ["reverb"; "spatial"; "warmth"; "saturation"; "dynamics"; "modulation"].

(** The listener [setupUIEventListeners] installs on the number input of
    an EQ band, which it does for the bands of [eqFrequencies] whose slider
    and number input are both on the page.  It reads [e.target.value], the
    value the input holds when the event fires. *)
Definition eqNumberInput (bandName : string) (a : App) : App :=
  if bool_decide (bandName ∈ name <$> eqFrequencies) then
    match elements (page a) !! ("eq-" +:+ bandName),
          elements (page a) !! ("val-" +:+ bandName) with
    | Some _, Some value =>
        let clampedValue := Math_max (-30) (Math_min 30 value) in
        onEngine (updateEQBand bandName clampedValue)
          (setElement ("val-" +:+ bandName) clampedValue
             (setElement ("eq-" +:+ bandName) clampedValue a))
    | _, _ => a
    end
  else a.

(** The listener installed on the number input of an effect, for the six
    effects whose slider and number input are both on the page. *)
Definition effectNumberInput (effect : string) (a : App) : App :=
  if bool_decide (effect ∈ effects) then
    match elements (page a) !! effect,
          elements (page a) !! ("val-" +:+ effect) with
    | Some _, Some v =>
        let value := parseInt v in
        let clampedValue := Math_max 0 (Math_min 100 value) in
        onEngine (updateEffect effect clampedValue)
          (setElement ("val-" +:+ effect) clampedValue
             (setElement effect clampedValue a))
    | _, _ => a
    end
  else a.

(** The double-quote character, as a string. *)
Definition quote : string := String (Ascii.ascii_of_nat 34) EmptyString.

(** The object [exportProfile] serialises: the fields [loadProfile] reads,
    and the three it does not. *)
Record ProfileFile := mkFile {
  f_profile : Profile;
  f_volume : R;
  f_version : string;
  f_created : string
}.

(** How a call of [exportProfile] ends. *)
Inductive Exported :=
| ExportCancelled                 (* the prompt gave no name *)
| ExportThrows                    (* a slider is not in the document *)
| ExportDone (file : ProfileFile).

(** The values of the sliders named [prefix ++ key], for each [key] in
    turn; nothing when one of them is missing. *)
Definition readSliders (parse : R -> R) (prefix : string)
    (keys : list string) (p : Page) : option (list (string * R)) :=
  mapM (fun key =>
          match elements p !! (prefix +:+ key) with
          | Some v => Some (key, parse v)
          | None => None
          end) keys.

(** [exportProfile].  [fileName] is what [prompt] returns and [created]
    the date [toISOString] gives.  The download of the file is not part of
    the state. *)
Definition exportProfile (fileName : option string) (created : string)
    (a : App) : Exported * App :=
  match fileName with
  | None => (ExportCancelled, a)
  | Some fileName =>
      if decide (fileName = "") then (ExportCancelled, a)
      else
        match readSliders (fun v => v) "eq-" (name <$> eqFrequencies)
                (page a) with
        | None => (ExportThrows, a)
        | Some eq =>
            match readSliders parseInt "" effects (page a) with
            | None => (ExportThrows, a)
            | Some fx =>
                (ExportDone
                   (mkFile
                      (mkProfile (Some fileName)
                         (Some (currentNoiseType (engine a)))
                         (Some eq) (Some fx))
                      100 "1.0" created),
                 alert ("Profile " +:+ quote +:+ fileName +:+ quote +:+
                        " exported successfully!") a)
            end
        end
  end.

End Controls.

(** ** NoiseGenerator: the audio side *)

Module Player.
Import Js.

(** A [NoiseGenerator] object: its generation state and the nodes it
    owns. *)
Record NoisePlayer := mkPlayer {
  generator : NoiseGen.NoiseGenerator;
  audioContext : option string;   (* [audioContext.state], once created *)
  initPromise : option bool;      (* [init] was called: fulfilled or not *)
  gainNode : option R;            (* [gainNode.gain.value] *)
  scriptNode : bool;              (* the script node exists, connected *)
  isPlaying : bool
}.

Definition withGenerator (g : NoiseGen.NoiseGenerator) (p : NoisePlayer) :=
  mkPlayer g (audioContext p) (initPromise p) (gainNode p) (scriptNode p)
    (isPlaying p).

(** The constructor: pink is selected and the seven pink rows are
    drawn. *)
Definition construct (g : Rng) : NoisePlayer :=
  mkPlayer
    (NoiseGen.mkGen "pink" 0
       ((fun k => stream g (cursor g + N.of_nat k)%N * 2 - 1) <$> seq 0 7)
       (replicate 7 0%Z) None None
       (mkRng (stream g) (cursor g + 7)%N))
    None None None false false.

(** [setVolume] *)
Definition setVolume (volume : R) (p : NoisePlayer) : NoisePlayer :=
  match gainNode p with
  | Some _ =>
      let scaledVolume := volume * volume in
      mkPlayer (generator p) (audioContext p) (initPromise p)
        (Some scaledVolume) (scriptNode p) (isPlaying p)
  | None => p
  end.

(** What [getState] returns. *)
Record PlayerState := mkState {
  s_isPlaying : bool;
  s_currentNoiseType : string;
  s_volume : R;
  s_contextState : string
}.

(** [getState] *)
Definition getState (p : NoisePlayer) : PlayerState :=
  mkState (isPlaying p)
    (NoiseGen.currentNoiseType (generator p))
    (match gainNode p with Some gain => Math_sqrt gain | None => 0 end)
    (default "closed" (audioContext p)).

(** [stop] ([sourceNode] is never assigned, so only the script node is
    released). *)
Definition stop (p : NoisePlayer) : NoisePlayer :=
  if isPlaying p then
    mkPlayer (generator p) (audioContext p) (initPromise p) (gainNode p)
      false false
  else p.

(** [init], with [_initAudio]: the first call creates the context, which
    is running once resumed, and the gain node at volume 0.5; a later call
    returns the promise of the first.  [available] tells whether the
    browser can create an [AudioContext]; when it cannot the call
    throws. *)
Definition init (available : bool) (p : NoisePlayer) : bool * NoisePlayer :=
  match initPromise p with
  | Some fulfilled => (fulfilled, p)
  | None =>
      if available then
        (true,
         setVolume 0.5
           (mkPlayer (generator p) (Some "running") (Some true) (Some 1)
              (scriptNode p) (isPlaying p)))
      else
        (false,
         mkPlayer (generator p) (audioContext p) (Some false) (gainNode p)
           (scriptNode p) (isPlaying p))
  end.

(** The state variables [start] resets: the brown integrator, the pink
    rows, drawn afresh, and their counters. *)
Definition resetState (noiseType : string) (g : NoiseGen.NoiseGenerator)
    : NoiseGen.NoiseGenerator :=
  let r := NoiseGen.rng g in
  NoiseGen.mkGen noiseType 0
    ((fun k => stream r (cursor r + N.of_nat k)%N * 2 - 1) <$> seq 0 7)
    (replicate 7 0%Z)
    (NoiseGen.greenNoiseBuffer g) (NoiseGen.blueNoisePrev g)
    (mkRng (stream r) (cursor r + 7)%N).

(** [start]: [true] when the promise is fulfilled, [false] when it is
    rejected: the context cannot be created, or it is [null] when the
    script node is to be created, or there is no gain node to connect the
    script node to. *)
Definition start (available : bool) (noiseType : string) (p : NoisePlayer)
    : bool * NoisePlayer :=
  let '(ok, p) :=
    match audioContext p with
    | Some _ => (true, p)
    | None => init available p
    end in
  if negb ok then (false, p)
  else
    let p := stop p in
    let p := withGenerator (resetState noiseType (generator p)) p in
    match audioContext p, gainNode p with
    | Some _, Some _ =>
        (true,
         mkPlayer (generator p) (audioContext p) (initPromise p) (gainNode p)
           true true)
    | Some _, None =>
        (false,
         mkPlayer (generator p) (audioContext p) (initPromise p) (gainNode p)
           true (isPlaying p))
    | None, _ => (false, p)
    end.

(** [dispose] *)
Definition dispose (p : NoisePlayer) : NoisePlayer :=
  let p := stop p in
  mkPlayer (generator p) None (initPromise p) None (scriptNode p)
    (isPlaying p).

End Player.

(** ** AudioEffects: the whole chain *)

Module Chain.
Import Js.

Inductive Panner :=
| StereoPanner (pan : R)            (* [createStereoPanner] *)
| PositionPanner (x y z : R).       (* [createPanner], placed by position *)

(** An [AudioEffects] object: the reverb mix of [Effects.AudioEffects],
    the two other stored parameters and the nodes they drive. *)
Record AudioChain := mkChain {
  mix : Effects.AudioEffects;
  filterFrequency : R;
  lowShelfGain : R;
  lowPassFilter : option R;         (* [lowPassFilter.frequency.value] *)
  lowShelfFilter : option R;        (* [lowShelfFilter.gain.value] *)
  spatialPanner : option Panner
}.

(** The constructor. *)
Definition construct : AudioChain :=
  mkChain (Effects.mkEffects 0.4 None None) 800 3 None None None.

(** [createEffectsChain]: the nodes start from the stored parameters.
    [stereo] tells whether the browser has [createStereoPanner]. *)
Definition createEffectsChain (stereo : bool) (c : AudioChain) : AudioChain :=
  let level := Effects.reverbLevel (mix c) in
  mkChain (Effects.mkEffects level (Some (1 - level)) (Some level))
    (filterFrequency c) (lowShelfGain c)
    (Some (filterFrequency c)) (Some (lowShelfGain c))
    (Some (if stereo then StereoPanner 0 else PositionPanner 0 0 (-1))).

(** [setReverbLevel] *)
Definition setReverbLevel (level : R) (c : AudioChain) : AudioChain :=
  mkChain (Effects.setReverbLevel level (mix c))
    (filterFrequency c) (lowShelfGain c) (lowPassFilter c) (lowShelfFilter c)
    (spatialPanner c).

(** [setFilterFrequency] *)
Definition setFilterFrequency (frequency : R) (c : AudioChain) : AudioChain :=
  let filterFrequency := Math_max 200 (Math_min 20000 frequency) in
  mkChain (mix c) filterFrequency (lowShelfGain c)
    (match lowPassFilter c with
     | Some _ => Some filterFrequency
     | None => None
     end)
    (lowShelfFilter c) (spatialPanner c).

(** [setLowEndGain] *)
Definition setLowEndGain (gainDb : R) (c : AudioChain) : AudioChain :=
  let lowShelfGain := Math_max (-12) (Math_min 12 gainDb) in
  mkChain (mix c) (filterFrequency c) lowShelfGain (lowPassFilter c)
    (match lowShelfFilter c with
     | Some _ => Some lowShelfGain
     | None => None
     end)
    (spatialPanner c).

(** [setSpatialPosition] *)
Definition setSpatialPosition (position : R) (c : AudioChain) : AudioChain :=
  let clampedPosition := Math_max (-1) (Math_min 1 position) in
  mkChain (mix c) (filterFrequency c) (lowShelfGain c) (lowPassFilter c)
    (lowShelfFilter c)
    (match spatialPanner c with
     | Some (StereoPanner _) => Some (StereoPanner clampedPosition)
     | Some (PositionPanner _ _ _) =>
         Some (PositionPanner clampedPosition 0 (-1))
     | None => None
     end).

(** What [getSettings] returns. *)
Record Settings := mkSettings {
  s_reverbLevel : R;
  s_filterFrequency : R;
  s_lowShelfGain : R;
  s_spatialPosition : R
}.

(** [getSettings] *)
Definition getSettings (c : AudioChain) : Settings :=
  mkSettings (Effects.reverbLevel (mix c)) (filterFrequency c)
    (lowShelfGain c)
    (match spatialPanner c with
     | Some (StereoPanner pan) => pan
     | _ => 0
     end).

(** The names every JavaScript object inherits from [Object.prototype].
    Looked up in the table of [applyPreset], such a name finds a method
    instead of a preset, and the parameters stop being numbers; the model
    covers the other names. *)
Definition inherited : list string :=
  ["constructor"; "__defineGetter__"; "__defineSetter__"; "hasOwnProperty";
   "__lookupGetter__"; "__lookupSetter__"; "isPrototypeOf";
   "propertyIsEnumerable"; "toString"; "valueOf"; "__proto__";
   "toLocaleString"].

(** The table of [applyPreset]: reverb level, filter frequency and low
    shelf gain of each ambiance. *)
Definition presets : gmap string (R * R * R) :=
  <["ocean" := (0.6, 800, 4)]> (<["forest" := (0.4, 1200, 2)]>
    (<["cave" := (0.8, 500, 6)]> (<["space" := (0.7, 400, 1)]> ∅))).

(** [applyPreset], for a name that is not [inherited]. *)
Definition applyPreset (presetName : string) (c : AudioChain) : AudioChain :=
  match presets !! presetName with
  | Some (reverbLevel, filterFrequency, lowShelfGain) =>
      setLowEndGain lowShelfGain
        (setFilterFrequency filterFrequency (setReverbLevel reverbLevel c))
  | None => c
  end.

End Chain.

(** ** TimerManager *)

Module Timer.

(** The callbacks the timer invokes, in order of invocation. *)
Inductive Event :=
| OnTick (remainingTime totalTime : Z)
| OnComplete
| OnCancel.

(** A [TimerManager] object; times are whole seconds.  The three flags
    tell which callbacks [setCallbacks] has installed, and [calls] lists
    the invocations made so far. *)
Record TimerManager := mkTimer {
  timerInterval : bool;       (* an interval is running *)
  remainingTime : Z;
  totalTime : Z;
  isActive : bool;
  onTick : bool;
  onComplete : bool;
  onCancel : bool;
  calls : list Event
}.

(** The constructor. *)
Definition construct : TimerManager :=
  mkTimer false 0 0 false false false false [].

(** [setCallbacks] with all three callbacks, as [ColorNoiseApp] does. *)
Definition setCallbacks (t : TimerManager) : TimerManager :=
  mkTimer (timerInterval t) (remainingTime t) (totalTime t) (isActive t)
    true true true (calls t).

Definition call (installed : bool) (ev : Event) (t : TimerManager)
    : TimerManager :=
  if installed then
    mkTimer (timerInterval t) (remainingTime t) (totalTime t) (isActive t)
      (onTick t) (onComplete t) (onCancel t) (calls t ++ [ev])
  else t.

(** [reset] *)
Definition reset (t : TimerManager) : TimerManager :=
  mkTimer (timerInterval t) 0 0 (isActive t)
    (onTick t) (onComplete t) (onCancel t) (calls t).

Definition stopInterval (t : TimerManager) : TimerManager :=
  mkTimer false (remainingTime t) (totalTime t) false
    (onTick t) (onComplete t) (onCancel t) (calls t).

(** [complete] *)
Definition complete (t : TimerManager) : TimerManager :=
  let t := stopInterval t in
  let t := call (onComplete t) OnComplete t in
  reset t.

(** [cancel] *)
Definition cancel (t : TimerManager) : TimerManager :=
  if isActive t then
    let t := stopInterval t in
    let t := call (onCancel t) OnCancel t in
    reset t
  else t.

(** [start] *)
Definition start (minutes : Z) (t : TimerManager) : TimerManager :=
  let t := cancel t in
  if (minutes <=? 0)%Z then t
  else
    let totalTime := (minutes * 60)%Z in
    let t := mkTimer true totalTime totalTime true
               (onTick t) (onComplete t) (onCancel t) (calls t) in
    call (onTick t) (OnTick (remainingTime t) (Timer.totalTime t)) t.

(** [tick] *)
Definition tick (t : TimerManager) : TimerManager :=
  if negb (isActive t) then t
  else
    let t := mkTimer (timerInterval t) (remainingTime t - 1)%Z (totalTime t)
               (isActive t) (onTick t) (onComplete t) (onCancel t)
               (calls t) in
    let t := call (onTick t) (OnTick (remainingTime t) (totalTime t)) t in
    if (remainingTime t <=? 0)%Z then complete t else t.

(** One second of the clock: the interval, when one is running, calls
    [tick].  (No second interval can be running beside the one the timer
    holds as long as a timer that is not active holds none.) *)
Definition second (t : TimerManager) : TimerManager :=
  if timerInterval t then tick t else t.

(** [pause] *)
Definition pause (t : TimerManager) : TimerManager :=
  if isActive t && timerInterval t then
    mkTimer false (remainingTime t) (totalTime t) (isActive t)
      (onTick t) (onComplete t) (onCancel t) (calls t)
  else t.

(** [resume] *)
Definition resume (t : TimerManager) : TimerManager :=
  if isActive t && negb (timerInterval t) && (0 <? remainingTime t)%Z then
    mkTimer true (remainingTime t) (totalTime t) (isActive t)
      (onTick t) (onComplete t) (onCancel t) (calls t)
  else t.

(** [addTime] *)
Definition addTime (minutes : Z) (t : TimerManager) : TimerManager :=
  if isActive t then
    let additionalSeconds := (minutes * 60)%Z in
    let t := mkTimer (timerInterval t)
               (remainingTime t + additionalSeconds)%Z
               (totalTime t + additionalSeconds)%Z
               (isActive t) (onTick t) (onComplete t) (onCancel t)
               (calls t) in
    call (onTick t) (OnTick (remainingTime t) (totalTime t)) t
  else t.

(** [isInWarningPeriod], with [getWarningTime]. *)
Definition isInWarningPeriod (t : TimerManager) : bool :=
  isActive t && (remainingTime t <=? 30)%Z.

(** What the control surface and the clock do to a timer. *)
Inductive Op :=
| Start (minutes : Z)
| Second
| Pause
| Resume
| Cancel
| AddTime (minutes : Z).

Definition apply (o : Op) (t : TimerManager) : TimerManager :=
  match o with
  | Start minutes => start minutes t
  | Second => second t
  | Pause => pause t
  | Resume => resume t
  | Cancel => cancel t
  | AddTime minutes => addTime minutes t
  end.

Definition run (ops : list Op) (t : TimerManager) : TimerManager :=
  foldl (fun t o => apply o t) t ops.

End Timer.

(** ** The preset removal tool *)

Module RemovePreset.
Import Js.

(** An entry of the preset database: its id, its name and the rest of
    its content. *)
Record Preset := mkPreset {
  id : string;
  name : string;
  data : string
}.





End RemovePreset.

(** ** The impulse responses of the two reverbs *)

Module Impulse.
Import Js.

(** [Math.pow] for a base that is not negative and a positive exponent. *)
Definition Math_pow (x y : R) : R := if Rlt_dec 0 x then Rpower x y else 0.

(** Cell [i] of a channel of [SoundDesignerEngine.createReverbImpulse],
    for the draw [r]. *)
Definition reverbCell (sampleRate duration decay : R) (i : nat) (r : R) : R :=
  let t := INR i / sampleRate in
  (r * 2 - 1) * Math_pow (1 - t / duration) decay.

(** [createReverbImpulse]: the two channels, of [length] cells each, filled
    in turn from the draws of [g]. *)
Definition createReverbImpulse (sampleRate duration decay : R)
    (length : nat) (g : Rng) : list R * list R :=
  let channel c :=
    (fun i => reverbCell sampleRate duration decay i
                (stream g (cursor g + N.of_nat (c * length + i))%N))
    <$> seq 0 length in
  (channel 0%nat, channel 1%nat).

(** Cell [i] of channel [channel] of
    [AudioEffects.createOceanImpulseResponse], for its three draws. *)
Definition oceanCell (sampleRate : R) (channel i : nat) (r1 r2 r3 : R) : R :=
  let time := INR i / sampleRate in
  let sample := 0 in
  let sample := sample + r1 * 0.5 * exp (- time * 2) in
  let sample :=
    sample + r2 * 0.3 * exp (- time * 0.8) * sin (time * 0.5) in
  let sample :=
    sample + r3 * 0.2 * exp (- time * 0.3) * sin (time * 0.1) in
  let modulation := 1 + 0.1 * sin (time * 0.3) * exp (- time) in
  let sample := sample * modulation in
  let sample :=
    if decide (channel = 1%nat) then sample * (0.8 + 0.2 * sin (time * 0.7))
    else sample in
  sample * 0.3.

(** [createOceanImpulseResponse]: the two channels, three draws a cell. *)
Definition createOceanImpulseResponse (sampleRate : R) (length : nat)
    (g : Rng) : list R * list R :=
  let channel c :=
    (fun i =>
       let k := (cursor g + N.of_nat (3 * (c * length + i)))%N in
       oceanCell sampleRate c i (stream g k) (stream g (k + 1)%N)
         (stream g (k + 2)%N))
    <$> seq 0 length in
  (channel 0%nat, channel 1%nat).

End Impulse.

(** * Vocabulary of the properties *)

Module Spec.
Import Js Engine.

#[global] Instance Rlt_decision (x y : R) : Decision (x < y) := Rlt_dec x y.

(** *** Sample states *)

(** A freshly constructed engine, every draw being 0.75. *)
Definition freshEngine : SoundDesignerEngine :=
  construct (mkRng (fun _ => 0.75) 0).

(** The engine with its audio graph built, as it is once playback has
    been started for the first time. *)
Definition readyEngine : SoundDesignerEngine :=
  createAudioGraph true freshEngine.

(** An engine whose red integrator stands at 0.95, every draw being
    0.75. *)
Definition redAtThreshold : SoundDesignerEngine :=
  withNoiseStates
    (fun n => mkNoiseStates (brown n) (pink_generators n) (pink_counters n)
                (violet_state n) (violet_prev n) (gray n) 0.95 (green n))
    freshEngine.

(** A page with the controls of the band "bass" and of the reverb, and
    three of the noise-type buttons, "white" being active. *)
Definition somePage : Page :=
  mkPage
    (<["eq-bass" := 0]> (<["val-bass" := 0]>
       (<["reverb" := 20]> (<["val-reverb" := 20]> ∅))))
    [("white", true); ("pink", false); ("brown", false)].

Definition someApp : App := mkApp readyEngine somePage [].

(** A profile file without the field [effects]. *)
Definition partialProfile : Profile :=
  mkProfile (Some "night") (Some "brown") (Some [("bass", 30)]) None.

(** *** The gain governor *)

(** The sum of the strictly positive numbers of a list, as the design
    document words the governor's rule. *)
Definition positiveSum (gains : list R) : R :=
  foldr Rplus 0 (filter (fun g => 0 < g) gains).

(** *** Noise types *)

(** The types the [switch] of [NoiseGenerator] names, and those the
    [switch] of [SoundDesignerEngine] names. *)
Definition generatorTypes : list string :=
  ["white"; "pink"; "brown"; "green"; "blue"].

Definition engineTypes : list string :=
  ["white"; "pink"; "brown"; "blue"; "violet"; "gray"; "red"; "green"].

(** *** Integrators *)

(** Soft clamping, as the design document words it: whenever the state
    magnitude exceeds 0.95 after the leaky-integrator update, the excess
    above 0.95 is kept at one tenth. *)
Definition softClamped (leakage scaling : R) (step : R -> R -> R) : Prop :=
  forall s r, 0 <= r < 1 ->
    let updated := s * leakage + (r * 2 - 1) * scaling in
    Rabs updated > 0.95 ->
    Rabs (step s r) = 0.95 + (Rabs updated - 0.95) * 0.1.

(** The update shared by the brown generators of both classes, for a
    given leakage and step scale. *)
Definition clampedStep (leakage scaling state r : R) : R :=
  let state := state * leakage + (r * 2 - 1) * scaling in
  if gtb (Math_abs state) 0.95 then
    Math_sign state * (0.95 + (Math_abs state - 0.95) * 0.1)
  else state.

(** The invariant of the render path: the draws are fair and both
    integrators are within their bounds. *)
Definition bounded (e : SoundDesignerEngine) : Prop :=
  fair (rng e) /\
  Rabs (brown (noiseStates e)) <= 0.96 /\
  Rabs (red (noiseStates e)) <= 20.

(** What happens to the engine during a session: the backend asks for a
    block, or the control surface selects a noise type, starts or stops
    playback (the assignment to [isPlaying] made by [play] and [stop]),
    moves an EQ band or moves an effect knob. *)
Inductive Action :=
| Render (b : OutputBuffer)
| SelectType (t : string)
| SetPlaying (playing : bool)
| SetBand (bandName : string) (gainDb : R)
| SetEffect (effectName : string) (value : R).

Definition perform (a : Action) (e : SoundDesignerEngine)
    : SoundDesignerEngine :=
  match a with
  | Render b => (generateAudio b e).2
  | SelectType t => withNoiseType t e
  | SetPlaying playing => withPlaying playing e
  | SetBand bandName gainDb => updateEQBand bandName gainDb e
  | SetEffect effectName value => updateEffect effectName value e
  end.

(** The actions of a session, performed in order. *)
Definition session (actions : list Action) (e : SoundDesignerEngine)
    : SoundDesignerEngine :=
  foldl (fun e a => perform a e) e actions.

(** [n] successive calls of [generateRedNoise]. *)
Definition redRun (n : nat) (e : SoundDesignerEngine) : SoundDesignerEngine :=
  Nat.iter n (fun e => (generateRedNoise e).2) e.

(** *** Profiles *)

(** The effect parameters of the engine. *)
Definition effectParams (e : SoundDesignerEngine) :=
  (reverbGain e, dryGain e, spatialPanner e, warmthFilter e, saturation e,
   compressor e, modulationGain e).

End Spec.

(** * Further vocabulary *)

Module Terms.
Import Js Engine.

(** *** Ranges of the engine's parameters *)

(** Every effect parameter of the engine is within the range its knob
    spans. *)
Definition withinRanges (e : SoundDesignerEngine) : Prop :=
  (forall w, reverbGain e = Some w -> 0 <= w <= 0.8) /\
  (forall d, dryGain e = Some d -> 0.5 <= d <= 1) /\
  (forall p, spatialPanner e = Some (StereoPanner p) -> -0.3 <= p <= 0.3) /\
  (forall w, warmthFilter e = Some w -> 5000 <= f_frequency w <= 20000) /\
  (forall s, saturation e = Some s -> 1 <= sat_gain s <= 2.5) /\
  (forall c, compressor e = Some c ->
     1 <= ratio c <= 9 /\ -40 <= threshold c <= -5) /\
  (forall m, modulationGain e = Some m -> 0 <= m <= 0.3).

(** Every band gain is within the range of the EQ controls. *)
Definition gainsWithin (e : SoundDesignerEngine) : Prop :=
  Forall (fun band => -30 <= f_gain band <= 30) (eqBands e).

(** The master gain is the compensation of the current band gains. *)
Definition compensated (e : SoundDesignerEngine) : Prop :=
  exists m, masterGain e = Some m /\ m = compensationFactor (eqBands e).

(** What the number inputs keep: the band gains and the effect parameters
    within the ranges of the controls, ten filters, and the master gain at
    the compensation of the current gains. *)
Definition inRange (e : SoundDesignerEngine) : Prop :=
  gainsWithin e /\ withinRanges e /\ compensated e /\
  length (eqBands e) = 10%nat.

(** A number typed into the number input of a band or of an effect. *)
Inductive Typed :=
| TypedBand (bandName : string) (v : R)
| TypedEffect (effect : string) (v : R).

(** A control of the page takes a value, when it is on the page. *)
Definition setValue (id : string) (v : R) (a : App) : App :=
  match elements (page a) !! id with
  | Some _ => setElement id v a
  | None => a
  end.

(** The input takes the number and its listener, if it has one, runs. *)
Definition typeIn (t : Typed) (a : App) : App :=
  match t with
  | TypedBand bandName v =>
      Controls.eqNumberInput bandName
        (setValue ("val-" +:+ bandName) v a)
  | TypedEffect effect v =>
      Controls.effectNumberInput effect
        (setValue ("val-" +:+ effect) v a)
  end.

Definition typeAll (inputs : list Typed) (a : App) : App :=
  foldl (fun a t => typeIn t a) a inputs.

(** *** Amplitudes of the generators *)

(** Bounds of the six cells of the green filter memory. *)
Definition greenBounds : list R :=
  [0.3; 0.585; 0.585; 1.14075; 1.14075; 2.2244625].

(** The memory of every generator has the size the constructor gave it
    and is within its bound. *)
Definition steadyMemory (n : NoiseStates) : Prop :=
  Rabs (brown n) <= 0.96 /\
  Rabs (red n) <= 20 /\
  length (pink_generators n) = 7%nat /\
  length (pink_counters n) = 7%nat /\
  Forall (fun g => Rabs g <= 1) (pink_generators n) /\
  Rabs (violet_prev n) <= 0.3 /\
  length (gray n) = 4%nat /\
  Forall (fun x => Rabs x <= 0.3) (gray n) /\
  Forall2 (fun x b => Rabs x <= b) (green n) greenBounds.

(** The draws are fair and the memory of the generators is steady. *)
Definition steady (e : SoundDesignerEngine) : Prop :=
  fair (rng e) /\ steadyMemory (noiseStates e).

(** The bound of a sample of each noise type; an unrecognised type gives
    white noise. *)
Definition amplitude (noiseType : string) : R :=
  if decide (noiseType = "pink") then 0.35
  else if decide (noiseType = "brown") then 0.384
  else if decide (noiseType = "blue") then 0.27
  else if decide (noiseType = "violet") then 0.3
  else if decide (noiseType = "gray") then 0.18
  else if decide (noiseType = "red") then 16
  else if decide (noiseType = "green") then 2.669355
  else 0.3.

(** A stereo frame made from a sample of magnitude at most [A]: the left
    cell is the sample, the right cell is 0.95 times the sample moved by
    less than 0.05. *)
Definition framed (A l r : R) : Prop :=
  Rabs l <= A /\ -0.05 <= r - 0.95 * l < 0.05.

(** Every frame below [n] of a block is [framed]. *)
Definition blockFramed (A : R) (n : nat) (out : OutputBuffer) : Prop :=
  forall i, (i < n)%nat ->
    exists l r, outputL out !! i = Some l /\ outputR out !! i = Some r /\
                framed A l r.

(** The rows of the pink generator that are drawn afresh for the sample
    numbered [n]: those whose rate divides [n]. *)
Definition redrawn (n : Z) (rates : list Z) : N :=
  foldr (fun rate k => if (n mod rate =? 0)%Z then N.succ k else k) 0%N
    rates.

(** *** The memory of the generator class *)

(** The memory of [NoiseGenerator] has the size it was given and is
    within its bounds, and the draws are fair. *)
Definition generatorSteady (s : NoiseGen.NoiseGenerator) : Prop :=
  fair (NoiseGen.rng s) /\
  Rabs (NoiseGen.brownNoiseState s) <= 0.96 /\
  length (NoiseGen.pinkNoiseState s) = 7%nat /\
  length (NoiseGen.pinkNoiseCounters s) = 7%nat /\
  Forall (fun g => Rabs g <= 1) (NoiseGen.pinkNoiseState s) /\
  (forall buffer, NoiseGen.greenNoiseBuffer s = Some buffer ->
     length buffer = 2%nat /\ Forall (fun x => Rabs x <= 4 / 3) buffer).

(** The bound of a sample of each noise type of [NoiseGenerator]; an
    unrecognised type gives pink noise. *)
Definition generatorAmplitude (noiseType : string) : R :=
  if decide (noiseType = "white") then 1
  else if decide (noiseType = "brown") then 0.96
  else if decide (noiseType = "green") then 14 / 15
  else if decide (noiseType = "blue") then 0.68
  else 1.05.

(** The draws of the generator are fair. *)
Definition fairSource (s : NoiseGen.NoiseGenerator) : Prop :=
  fair (NoiseGen.rng s).

(** The bound of a cell of the buffer [createNoiseBuffer] makes for each
    noise type; an unrecognised type gives pink noise. *)
Definition bufferAmplitude (noiseType : string) : R :=
  if decide (noiseType = "white") then 1
  else if decide (noiseType = "brown") then 0.96
  else if decide (noiseType = "green") then 28 / 15
  else if decide (noiseType = "blue") then 0.68
  else 1.05.

(** *** The effects chain *)

(** The stored parameters of the chain are within their ranges, every
    filter that exists holds the stored value, both gains of the reverb
    mix are within [0, 1] and the panner is within [-1, 1]. *)
Definition chainConsistent (c : Chain.AudioChain) : Prop :=
  0 <= Effects.reverbLevel (Chain.mix c) <= 1 /\
  200 <= Chain.filterFrequency c <= 20000 /\
  -12 <= Chain.lowShelfGain c <= 12 /\
  (forall f, Chain.lowPassFilter c = Some f -> f = Chain.filterFrequency c) /\
  (forall g, Chain.lowShelfFilter c = Some g -> g = Chain.lowShelfGain c) /\
  (forall d, Effects.dryGain (Chain.mix c) = Some d -> 0 <= d <= 1) /\
  (forall w, Effects.reverbGain (Chain.mix c) = Some w -> 0 <= w <= 1) /\
  (forall pan, Chain.spatialPanner c = Some (Chain.StereoPanner pan) ->
     -1 <= pan <= 1) /\
  (forall x y z, Chain.spatialPanner c = Some (Chain.PositionPanner x y z) ->
     -1 <= x <= 1 /\ y = 0 /\ z = -1).

(** A call of one of the setters of the chain. *)
Inductive Setting :=
| ReverbLevel (level : R)
| FilterFrequency (frequency : R)
| LowEndGain (gainDb : R)
| SpatialPosition (position : R)
| Preset (presetName : string).

Definition set (s : Setting) (c : Chain.AudioChain) : Chain.AudioChain :=
  match s with
  | ReverbLevel level => Chain.setReverbLevel level c
  | FilterFrequency frequency => Chain.setFilterFrequency frequency c
  | LowEndGain gainDb => Chain.setLowEndGain gainDb c
  | SpatialPosition position => Chain.setSpatialPosition position c
  | Preset presetName => Chain.applyPreset presetName c
  end.

(** A setting the model covers: a preset is asked for by a name that is
    not inherited. *)
Definition ownPreset (s : Setting) : Prop :=
  match s with
  | Preset presetName => presetName ∉ Chain.inherited
  | _ => True
  end.

(** The settings made before the chain is built, the building of the
    chain, and the settings made after it. *)
Definition chainSession (before : list Setting) (stereo : bool)
    (after : list Setting) : Chain.AudioChain :=
  foldl (fun c s => set s c)
    (Chain.createEffectsChain stereo
       (foldl (fun c s => set s c) Chain.construct before))
    after.

(** *** The timer *)

(** What holds of a timer between two operations. *)
Definition timerSound (t : Timer.TimerManager) : Prop :=
  (Timer.isActive t = false ->
     Timer.remainingTime t = 0%Z /\ Timer.totalTime t = 0%Z /\
     Timer.timerInterval t = false) /\
  (Timer.isActive t = true ->
     (0 < Timer.remainingTime t <= Timer.totalTime t)%Z).

(** An operation that does not take time away. *)
Definition addsTime (o : Timer.Op) : Prop :=
  match o with
  | Timer.AddTime minutes => (0 <= minutes)%Z
  | _ => True
  end.

(** The calls of [onTick] made by the first [k] seconds of a countdown of
    [n] seconds, when the callback is installed. *)
Definition ticks (installed : bool) (n : Z) (k : nat) : list Timer.Event :=
  if installed
  then (fun j => Timer.OnTick (n - Z.of_nat j)%Z n) <$> seq 1 k
  else [].

(** The timer after [k] seconds of the clock. *)
Definition afterSeconds (k : nat) (t : Timer.TimerManager)
    : Timer.TimerManager :=
  Nat.iter k Timer.second t.

(** *** Noise types as selectors *)

(** The characters that cannot stand as they are in the quoted string of
    an attribute selector: the double quote, the backslash and the line
    breaks. *)
Definition escaped : list Ascii.ascii :=
  Ascii.ascii_of_nat <$> [34; 92; 10; 12; 13]%nat.

(** A noise type that [selectNoiseType] can put in its selector as it
    is: [document.querySelector] then finds the first button whose
    [data-type] is the type, the buttons being the only elements of the
    page that carry one. *)
Definition selectorSafe (t : string) : Prop :=
  Forall (fun c => c ∉ escaped) (String.list_ascii_of_string t).

(** *** Profiles on a full page *)



(** The page of [Spec.someApp], which lacks most sliders, on an engine
    whose audio graph is not built. *)
Definition sparseApp : App := mkApp Spec.freshEngine Spec.somePage [].


(** *** The preset database *)


End Terms.

(** * Properties *)

(** ** Reasoning about the state monad *)

Section Preservation.
Context {S : Type}.

Lemma yields_bind {A B} I (m : M S A) (k : A -> M S B) P Q :
  yields I m P -> (forall a, P a -> yields I (k a) Q) ->
  yields I (bind m k) Q.
Proof.
  intros Hm Hk s Hs. unfold bind.
  destruct (Hm s Hs) as [Ha Hs']. destruct (m s) as [a s'].
  apply (Hk a Ha), Hs'.
Qed.

Lemma preserves_ret {A} (I : S -> Prop) (a : A) : preserves I (ret a).
Proof. intros s Hs. split; [exact Logic.I | exact Hs]. Qed.

Lemma preserves_gets {A} I (f : S -> A) : preserves I (gets f).
Proof. intros s Hs. split; [exact Logic.I | exact Hs]. Qed.

Lemma preserves_modify I (f : S -> S) :
  (forall s, I s -> I (f s)) -> preserves I (modify f).
Proof. intros Hf s Hs. split; [exact Logic.I | apply Hf, Hs]. Qed.

Lemma preserves_bind {A B} I (m : M S A) (k : A -> M S B) :
  preserves I m -> (forall a, preserves I (k a)) -> preserves I (bind m k).
Proof. intros Hm Hk. eapply yields_bind; [exact Hm | intros a _; apply Hk]. Qed.

Lemma preserves_if {A} I (b : bool) (m1 m2 : M S A) :
  preserves I m1 -> preserves I m2 -> preserves I (if b then m1 else m2).
Proof. destruct b; auto. Qed.

Lemma yields_preserves {A} I (m : M S A) Q : yields I m Q -> preserves I m.
Proof. intros H s Hs. split; [exact Logic.I | apply (H s Hs)]. Qed.

Lemma preserves_state {A} I (m : M S A) (s : S) :
  preserves I m -> I s -> I (m s).2.
Proof. intros H Hs. apply (H s Hs). Qed.

End Preservation.

(** ** Real-number facts used below *)

Section RealFacts.

Lemma ratio_below_one (n d : R) : 0 < d -> - d < n < d -> -1 < n / d < 1.
Proof.
  intros Hd [Hlo Hhi].
  assert (Hi : 0 < / d) by (apply Rinv_0_lt_compat; exact Hd).
  assert (Hone : d * / d = 1) by (apply Rinv_r; lra).
  unfold Rdiv. split; nra.
Qed.

Lemma tanh_range (x : R) : -1 < tanh x < 1.
Proof.
  unfold tanh, sinh, cosh.
  pose proof (exp_pos x). pose proof (exp_pos (- x)).
  apply ratio_below_one; lra.
Qed.

Lemma PI_gt_3 : 3 < PI.
Proof. pose proof PI2_3_2. lra. Qed.

Lemma div_le_cross (n1 d1 n2 d2 : R) :
  0 < d1 -> 0 < d2 -> n1 * d2 <= n2 * d1 -> n1 / d1 <= n2 / d2.
Proof.
  intros H1 H2 H.
  replace (n1 / d1) with ((n1 * d2) * / (d1 * d2)) by (field; lra).
  replace (n2 / d2) with ((n2 * d1) * / (d1 * d2)) by (field; lra).
  apply Rmult_le_compat_r; [|exact H].
  left. apply Rinv_0_lt_compat. nra.
Qed.

Lemma div_lt_cross (n1 d1 n2 d2 : R) :
  0 < d1 -> 0 < d2 -> n1 * d2 < n2 * d1 -> n1 / d1 < n2 / d2.
Proof.
  intros H1 H2 H.
  replace (n1 / d1) with ((n1 * d2) * / (d1 * d2)) by (field; lra).
  replace (n2 / d2) with ((n2 * d1) * / (d1 * d2)) by (field; lra).
  apply Rmult_lt_compat_r; [|exact H].
  apply Rinv_0_lt_compat. nra.
Qed.

Lemma Rabs_le_inv (a b : R) : Rabs a <= b -> - b <= a <= b.
Proof. unfold Rabs. destruct (Rcase_abs a); lra. Qed.

Lemma Rabs_lt_inv (a b : R) : Rabs a < b -> - b < a < b.
Proof. unfold Rabs. destruct (Rcase_abs a); lra. Qed.

Lemma Rabs_convex (u v t b : R) :
  Rabs u <= b -> Rabs v <= b -> 0 <= t <= 1 ->
  Rabs ((1 - t) * u + t * v) <= b.
Proof.
  intros Hu Hv Ht.
  apply Rabs_le. apply Rabs_le_inv in Hu, Hv. nra.
Qed.

End RealFacts.

(** ** The soft limiter and the saturation curve *)

Module CurveFacts.
Import Js Engine Spec.

Lemma INR_samples : INR samples = 44100.
Proof.
  unfold samples. rewrite INR_IZR_INZ, Z2Nat.id by lia. reflexivity.
Qed.

(** Every abscissa of a table lies in [-1, 1). *)
Lemma abscissa_range (i : nat) :
  (i < samples)%nat -> -1 <= abscissa i < 1.
Proof.
  intros Hi. unfold abscissa. rewrite INR_samples.
  apply lt_INR in Hi. rewrite INR_samples in Hi.
  pose proof (pos_INR i). lra.
Qed.

Lemma softLimiterAt_bound (x : R) : Rabs (softLimiterAt x) < 0.95.
Proof.
  unfold softLimiterAt, Math_tanh.
  pose proof (tanh_range (x * 0.7)) as [Hlo Hhi].
  apply Rabs_def1; lra.
Qed.

Lemma limiter_lookup (i : nat) (v : R) :
  createSoftLimiterCurve !! i = Some v ->
  (i < samples)%nat /\ v = softLimiterAt (abscissa i).
Proof.
  unfold createSoftLimiterCurve. rewrite list_lookup_fmap.
  intros H. apply fmap_Some in H as (j & Hj & ->).
  apply lookup_seq in Hj as [-> Hlt]. split; [lia | reflexivity].
Qed.

Lemma limiter_cell_bound (i : nat) (v : R) :
  createSoftLimiterCurve !! i = Some v -> Rabs v <= 0.95.
Proof.
  intros H. apply limiter_lookup in H as [_ ->].
  left. apply softLimiterAt_bound.
Qed.

(** C1. The soft limiter's transfer curve is the fixed curve
    [tanh(0.7 x) * 0.95]: for every input [x] in [-1,1] its output has
    magnitude at most 0.95.  The table installed in the limiter node has
    44100 cells, each the curve at an abscissa of [-1,1) and so of
    magnitude at most 0.95; every value interpolated between two cells
    keeps that bound, so what leaves the limiter stays within [-1,1]
    whatever the noise type and the parameters upstream. *)
Theorem soft_limiter_bounded :
  (forall x, -1 <= x <= 1 ->
     softLimiterAt x = tanh (x * 0.7) * 0.95 /\
     Rabs (softLimiterAt x) <= 0.95) /\
  length createSoftLimiterCurve = Z.to_nat 44100 /\
  (forall stereo e,
     limiter (createAudioGraph stereo e) = Some createSoftLimiterCurve) /\
  (forall i v, createSoftLimiterCurve !! i = Some v ->
     v = softLimiterAt (abscissa i) /\ -1 <= abscissa i < 1 /\
     Rabs v <= 0.95) /\
  (forall i j u v t,
     createSoftLimiterCurve !! i = Some u ->
     createSoftLimiterCurve !! j = Some v ->
     0 <= t <= 1 ->
     -1 <= (1 - t) * u + t * v <= 1).
Proof.
  split; [|split; [|split; [|split]]].
  - intros x _. split; [reflexivity|]. left. apply softLimiterAt_bound.
  - unfold createSoftLimiterCurve. rewrite length_fmap, length_seq.
    reflexivity.
  - reflexivity.
  - intros i v H. pose proof (limiter_cell_bound _ _ H) as Hb.
    apply limiter_lookup in H as [Hi ->].
    split; [reflexivity|]. split; [apply abscissa_range, Hi | exact Hb].
  - intros i j u v t Hu Hv Ht.
    apply limiter_cell_bound in Hu, Hv.
    pose proof (Rabs_convex u v t 0.95 Hu Hv Ht) as H.
    apply Rabs_le_inv in H. lra.
Qed.

Lemma soft_limiter_bounded_witness :
  Rabs (softLimiterAt 1) <= 0.95.
Proof.
  apply (proj1 soft_limiter_bounded 1). lra.
Defined.

(** *** The saturation curve *)

Lemma saturation_lookup (amount : R) (i : nat) (v : R) :
  createSaturationCurve amount !! i = Some v ->
  (i < samples)%nat /\ v = saturationAt amount (abscissa i).
Proof.
  unfold createSaturationCurve. rewrite list_lookup_fmap.
  intros H. apply fmap_Some in H as (j & Hj & ->).
  apply lookup_seq in Hj as [-> Hlt]. split; [lia | reflexivity].
Qed.

Lemma saturation_cell (amount : R) (i : nat) :
  (i < samples)%nat ->
  createSaturationCurve amount !! i = Some (saturationAt amount (abscissa i)).
Proof.
  intros Hi. unfold createSaturationCurve.
  rewrite list_lookup_fmap, lookup_seq_lt by exact Hi. reflexivity.
Qed.

Section Drive.
Variable amount : R.
Hypothesis amount_range : 0 <= amount <= 0.8.

Lemma saturation_denominator (x : R) : 0 < Math_PI + amount * Math_abs x.
Proof.
  unfold Math_PI, Math_abs. pose proof PI_gt_3. pose proof (Rabs_pos x).
  nra.
Qed.

Lemma saturationAt_odd (x : R) :
  saturationAt amount (- x) = - saturationAt amount x.
Proof.
  pose proof (saturation_denominator x) as Hd.
  unfold saturationAt, Math_abs in *. rewrite Rabs_Ropp.
  field. lra.
Qed.

Lemma saturationAt_monotone (x y : R) :
  x <= y -> saturationAt amount x <= saturationAt amount y.
Proof.
  intros Hxy.
  pose proof (saturation_denominator x) as Hdx.
  pose proof (saturation_denominator y) as Hdy.
  unfold saturationAt. apply div_le_cross; [exact Hdx | exact Hdy |].
  unfold Math_PI, Math_abs in *. pose proof PI_gt_3 as Hpi.
  assert (Hcore : x * (PI + amount * Rabs y) <= y * (PI + amount * Rabs x)).
  { unfold Rabs. destruct (Rcase_abs x), (Rcase_abs y); try nra.
    assert (0 <= amount * (- x) * y)
      by (apply Rmult_le_pos; [apply Rmult_le_pos|]; lra).
    nra. }
  set (c := (3 + amount * 20) * 20 * (PI / 180)).
  assert (Hc : 0 <= c) by (unfold c; nra).
  replace ((3 + amount * 20) * x * 20 * (PI / 180) *
           (PI + amount * Rabs y))
    with (c * (x * (PI + amount * Rabs y))) by (unfold c; ring).
  replace ((3 + amount * 20) * y * 20 * (PI / 180) *
           (PI + amount * Rabs x))
    with (c * (y * (PI + amount * Rabs x))) by (unfold c; ring).
  apply Rmult_le_compat_l; assumption.
Qed.

Lemma saturationAt_one :
  saturationAt amount 1 = (3 + 20 * amount) * PI / (9 * (PI + amount)).
Proof.
  unfold saturationAt, Math_PI, Math_abs. rewrite Rabs_R1.
  pose proof PI_gt_3. field. lra.
Qed.

Lemma saturationAt_peak (x : R) :
  -1 <= x <= 1 -> Rabs (saturationAt amount x) <= saturationAt amount 1.
Proof.
  intros [Hlo Hhi]. apply Rabs_le. split.
  - rewrite <- saturationAt_odd.
    apply saturationAt_monotone. lra.
  - apply saturationAt_monotone, Hhi.
Qed.

Lemma saturationAt_one_below_two : saturationAt amount 1 < 2.
Proof.
  rewrite saturationAt_one. pose proof PI_gt_3. pose proof PI_4.
  replace 2 with (2 / 1) by field.
  apply div_lt_cross; nra.
Qed.

Lemma saturationAt_one_within_unit :
  saturationAt amount 1 <= 1 <-> amount * (20 * PI - 9) <= 6 * PI.
Proof.
  rewrite saturationAt_one. pose proof PI_gt_3.
  assert (Hd : 0 < 9 * (PI + amount)) by lra.
  split; intros Hle.
  - apply (Rmult_le_compat_r (9 * (PI + amount))) in Hle; [|lra].
    unfold Rdiv in Hle. rewrite Rmult_assoc, Rinv_l in Hle by lra. lra.
  - replace 1 with (1 / 1) by field.
    apply div_le_cross; lra.
Qed.

End Drive.

(** C5 as stated fails: with the saturation knob at 100
    the drive amount is 0.8 and the curve leaves [-1,1], both as a
    formula at the input 1 and in the last cell of the table that
    [updateEffect] installs. *)
Lemma saturation_curve_leaves_unit_range :
  ~ (forall x, -1 <= x <= 1 ->
       -1 <= saturationAt (100 / 100 * 0.8) x <= 1) /\
  exists s v,
    saturation (updateEffect "saturation" 100 readyEngine) = Some s /\
    sat_curve s !! Z.to_nat 44099 = Some v /\ 1 < v.
Proof.
  assert (Ha : 0 <= 100 / 100 * 0.8 <= 0.8) by lra.
  split.
  - intros H. specialize (H 1 ltac:(lra)). destruct H as [_ H].
    rewrite (saturationAt_one _ Ha) in H.
    pose proof PI_gt_3.
    apply (Rmult_le_compat_r (9 * (PI + 100 / 100 * 0.8))) in H; [|lra].
    unfold Rdiv in H at 1.
    rewrite Rmult_assoc, Rinv_l in H by lra. lra.
  - eexists _, _. split; [reflexivity|]. split.
    + cbn [sat_curve]. apply saturation_cell. unfold samples. lia.
    + pose proof (saturation_denominator _ Ha (abscissa (Z.to_nat 44099)))
        as Hd.
      unfold saturationAt.
      replace 1 with (1 / 1) at 1 by field.
      apply div_lt_cross; [lra | exact Hd |].
      assert (Hx : abscissa (Z.to_nat 44099) = 44098 / 44100).
      { unfold abscissa. rewrite INR_samples, INR_IZR_INZ, Z2Nat.id by lia.
        field. }
      rewrite Hx. unfold Math_abs, Math_PI in *.
      rewrite Rabs_pos_eq by lra. pose proof PI_gt_3. nra.
Qed.

(** C5, amended.  For every position [value] of the saturation knob, from
    0 to 100, [updateEffect] installs the table of the curve with drive
    amount [value / 100 * 0.8].  That curve is monotonic (non-decreasing)
    and odd-symmetric, and on [-1,1] its magnitude is at most its value
    at 1, which is [(3 + 20 amount) PI / (9 (PI + amount))] and less
    than 2; the outputs stay within [-1,1] exactly when
    [amount * (20 PI - 9) <= 6 PI]. *)
Theorem saturation_curve_shape (value : R) :
  0 <= value <= 100 ->
  let amount := value / 100 * 0.8 in
  (forall e s, saturation e = Some s ->
     saturation (updateEffect "saturation" value e) =
     Some (mkSaturation (1 + value / 100 * 1.5)
             (createSaturationCurve amount))) /\
  (forall i v, createSaturationCurve amount !! i = Some v ->
     v = saturationAt amount (abscissa i) /\ -1 <= abscissa i < 1) /\
  (forall x y, x <= y -> saturationAt amount x <= saturationAt amount y) /\
  (forall x, saturationAt amount (- x) = - saturationAt amount x) /\
  (forall x, -1 <= x <= 1 ->
     Rabs (saturationAt amount x) <= saturationAt amount 1) /\
  saturationAt amount 1 = (3 + 20 * amount) * PI / (9 * (PI + amount)) /\
  saturationAt amount 1 < 2 /\
  ((forall x, -1 <= x <= 1 -> -1 <= saturationAt amount x <= 1) <->
   amount * (20 * PI - 9) <= 6 * PI).
Proof.
  intros Hv amount.
  assert (Ha : 0 <= amount <= 0.8) by (unfold amount; lra).
  split; [|split; [|split; [|split; [|split; [|split; [|split]]]]]].
  - intros e s Hs. unfold updateEffect. cbn. rewrite Hs. reflexivity.
  - intros i v Hcell. apply saturation_lookup in Hcell as [Hi ->].
    split; [reflexivity | apply abscissa_range, Hi].
  - apply saturationAt_monotone, Ha.
  - apply saturationAt_odd, Ha.
  - apply saturationAt_peak, Ha.
  - apply saturationAt_one, Ha.
  - apply saturationAt_one_below_two, Ha.
  - split.
    + intros Hunit. apply (saturationAt_one_within_unit _ Ha).
      apply (Hunit 1). lra.
    + intros Hsmall x Hx.
      apply (saturationAt_one_within_unit _ Ha) in Hsmall.
      pose proof (saturationAt_peak _ Ha x Hx) as Hpeak.
      apply Rabs_le_inv in Hpeak. lra.
Qed.

Lemma saturation_curve_shape_witness :
  saturationAt (50 / 100 * 0.8) 1 < 2.
Proof.
  pose proof (saturation_curve_shape 50 ltac:(lra)) as H. cbv zeta in H.
  exact (proj1 (proj2 (proj2 (proj2 (proj2 (proj2 (proj2 H))))))).
Defined.

End CurveFacts.

(** ** The equaliser and the gain governor *)

Module EqFacts.
Import Js Engine Spec.

Lemma totalBoost_from (bands : list BiquadFilter) (acc : R) :
  foldl (fun totalBoost band =>
           let gain := f_gain band in
           if gtb gain 0 then totalBoost + gain else totalBoost)
        acc bands
  = acc + positiveSum (f_gain <$> bands).
Proof.
  revert acc. induction bands as [|b bands IH]; intros acc.
  - unfold positiveSum. cbn. lra.
  - cbn [foldl]. rewrite IH. unfold positiveSum.
    rewrite fmap_cons, filter_cons. unfold gtb. cbv zeta.
    destruct (Rgt_dec (f_gain b) 0) as [Hpos|Hneg];
      destruct (decide (0 < f_gain b)) as [Hd|Hd]; cbn [foldr]; lra.
Qed.

Lemma totalBoost_positiveSum (bands : list BiquadFilter) :
  totalBoost bands = positiveSum (f_gain <$> bands).
Proof. unfold totalBoost. rewrite totalBoost_from. lra. Qed.

Lemma positiveSum_nonneg (gains : list R) : 0 <= positiveSum gains.
Proof.
  unfold positiveSum. induction gains as [|g gains IH]; [cbn; lra|].
  rewrite filter_cons. destruct (decide (0 < g)); cbn [foldr]; lra.
Qed.

Lemma totalBoost_nonneg (bands : list BiquadFilter) : 0 <= totalBoost bands.
Proof. rewrite totalBoost_positiveSum. apply positiveSum_nonneg. Qed.

Lemma compensation_law (bands : list BiquadFilter) :
  (totalBoost bands <= 20 -> compensationFactor bands = 1) /\
  (totalBoost bands > 20 ->
     compensationFactor bands = 20 / totalBoost bands) /\
  0 < compensationFactor bands <= 1 /\
  compensationFactor bands * totalBoost bands <= 20.
Proof.
  unfold compensationFactor, gtb.
  pose proof (totalBoost_nonneg bands) as Hnn.
  destruct (Rgt_dec (totalBoost bands) 20) as [Hgt|Hle].
  - assert (Hinv : 0 < / totalBoost bands)
      by (apply Rinv_0_lt_compat; lra).
    assert (Hone : totalBoost bands * / totalBoost bands = 1)
      by (apply Rinv_r; lra).
    unfold Rdiv. repeat split; try lra; nra.
  - repeat split; lra.
Qed.

(** The band names are pairwise distinct, so [findIndex] returns the
    position of the name. *)
Lemma findIndex_band (i : nat) (bandName : string) :
  (name <$> eqFrequencies) !! i = Some bandName ->
  findIndex (fun band => bool_decide (name band = bandName)) eqFrequencies
  = Z.of_nat i.
Proof.
  intros H.
  do 10 (destruct i as [|i]; [injection H as <-; reflexivity|]).
  discriminate H.
Qed.

Lemma findIndex_from_none {A} (p : A -> bool) (l : list A) (i : Z) :
  Forall (fun x => p x = false) l -> findIndex_from p l i = (-1)%Z.
Proof.
  intros H. revert i. induction H as [|x l Hx _ IH]; intros i; cbn.
  - reflexivity.
  - rewrite Hx. apply IH.
Qed.

Lemma findIndex_unknown (bandName : string) :
  bandName ∉ name <$> eqFrequencies ->
  findIndex (fun band => bool_decide (name band = bandName)) eqFrequencies
  = (-1)%Z.
Proof.
  intros H. apply findIndex_from_none.
  apply Forall_forall. intros band Hband.
  apply bool_decide_eq_false. intros Heq. apply H.
  rewrite <- Heq. apply list_elem_of_fmap_2. exact Hband.
Qed.

Lemma updateEQBand_known (e : SoundDesignerEngine) (bandName : string)
    (gainDb : R) (i : nat) (band : BiquadFilter) :
  (name <$> eqFrequencies) !! i = Some bandName ->
  eqBands e !! i = Some band ->
  updateEQBand bandName gainDb e =
  updateAutoGainCompensation
    (withEqBands (<[i := setGain gainDb band]> (eqBands e)) e).
Proof.
  intros Hname Hband. unfold updateEQBand.
  rewrite (findIndex_band _ _ Hname).
  rewrite bool_decide_eq_true_2 by lia.
  rewrite Nat2Z.id, Hband. reflexivity.
Qed.

(** C2. The gain compensation sums only the strictly positive band
    gains; when that sum is at most 20 the factor is 1, when it exceeds
    20 the factor is 20 divided by the sum, so the factor lies in (0,1]
    and factor times sum never exceeds 20.  [updateAutoGainCompensation]
    writes 1.0 times the factor into the master gain, and every change
    of a band gain through [updateEQBand] recomputes it from the new
    gains. *)
Theorem gain_compensation :
  (forall bands : list BiquadFilter,
     totalBoost bands = positiveSum (f_gain <$> bands) /\
     (totalBoost bands <= 20 -> compensationFactor bands = 1) /\
     (totalBoost bands > 20 ->
        compensationFactor bands = 20 / totalBoost bands) /\
     0 < compensationFactor bands <= 1 /\
     compensationFactor bands * totalBoost bands <= 20) /\
  (forall e m, masterGain e = Some m ->
     masterGain (updateAutoGainCompensation e)
     = Some (1.0 * compensationFactor (eqBands e)) /\
     eqBands (updateAutoGainCompensation e) = eqBands e) /\
  (forall e bandName gainDb i band m,
     (name <$> eqFrequencies) !! i = Some bandName ->
     eqBands e !! i = Some band ->
     masterGain e = Some m ->
     let e' := updateEQBand bandName gainDb e in
     eqBands e' = <[i := setGain gainDb band]> (eqBands e) /\
     masterGain e' = Some (1.0 * compensationFactor (eqBands e'))).
Proof.
  split; [|split].
  - intros bands. split; [apply totalBoost_positiveSum|].
    apply compensation_law.
  - intros e m Hm. unfold updateAutoGainCompensation. rewrite Hm.
    split; reflexivity.
  - intros e bandName gainDb i band m Hname Hband Hm e'.
    unfold e'. rewrite (updateEQBand_known _ _ _ _ _ Hname Hband).
    unfold updateAutoGainCompensation. cbn [masterGain withEqBands eqBands].
    rewrite Hm. split; reflexivity.
Qed.

(** The scenario of the design document: the band "bass" raised to +30
    alone gives the master gain 20/30. *)
Lemma gain_compensation_witness :
  masterGain (updateEQBand "bass" 30 readyEngine)
  = Some (1.0 * compensationFactor
                  (eqBands (updateEQBand "bass" 30 readyEngine))).
Proof.
  refine (proj2 (proj2 (proj2 gain_compensation) readyEngine
            "bass" 30 1%nat (mkBiquad "peaking" 80 1.0 0) 1.0 _ _ _));
    reflexivity.
Defined.

Lemma bass_boost_factor :
  masterGain (updateEQBand "bass" 30 readyEngine)
  = Some (1.0 * (20 / 30)).
Proof.
  rewrite (updateEQBand_known _ _ _ 1%nat (mkBiquad "peaking" 80 1.0 0))
    by reflexivity.
  set (bands := <[1%nat := _]> _).
  assert (Htotal : totalBoost bands = 30).
  { unfold totalBoost, gtb, bands. cbn.
    destruct (Rgt_dec 0 0); [lra|]. destruct (Rgt_dec 30 0); lra. }
  unfold updateAutoGainCompensation.
  change (masterGain (withEqBands bands readyEngine))
    with (Some 1.0).
  change (eqBands (withEqBands bands readyEngine)) with bands.
  cbn [masterGain withMasterGain]. do 2 f_equal.
  unfold compensationFactor, gtb. rewrite Htotal.
  destruct (Rgt_dec 30 20); lra.
Qed.

(** C10. For a band name that matches no configured EQ band,
    [updateEQBand] is a complete no-op: it returns normally with the
    engine as it was, so no filter gain and no master gain has
    changed. *)
Theorem updateEQBand_unknown_band (e : SoundDesignerEngine)
    (bandName : string) (gainDb : R) :
  bandName ∉ name <$> eqFrequencies ->
  updateEQBand bandName gainDb e = e /\
  eqBands (updateEQBand bandName gainDb e) = eqBands e /\
  masterGain (updateEQBand bandName gainDb e) = masterGain e.
Proof.
  intros H.
  assert (Heq : updateEQBand bandName gainDb e = e).
  { unfold updateEQBand. rewrite (findIndex_unknown _ H). reflexivity. }
  rewrite Heq. auto.
Qed.

Lemma updateEQBand_unknown_band_witness :
  updateEQBand "midrange" 12 readyEngine = readyEngine.
Proof.
  apply (updateEQBand_unknown_band readyEngine "midrange" 12).
  apply (bool_decide_unpack _). vm_compute. exact I.
Defined.

End EqFacts.

(** ** The render callback and the noise-type selector *)

Module RenderFacts.
Import Js Engine Spec.

(** C8. While the engine is stopped, a call of the render callback
    returns normally, writes zeros into every cell of both output
    channels and leaves the engine exactly as it was: the script node
    stays connected, no generator state advances and no random number
    is drawn.  This holds for any number of successive calls. *)
Theorem stopped_render_is_silent (e : SoundDesignerEngine)
    (b : OutputBuffer) :
  isPlaying e = false ->
  let out := (generateAudio b e).1 in
  let e' := (generateAudio b e).2 in
  e' = e /\
  scriptNodeConnected e' = scriptNodeConnected e /\
  noiseStates e' = noiseStates e /\
  rng e' = rng e /\
  length (outputL out) = length (outputL b) /\
  length (outputR out) = length (outputR b) /\
  (forall i v, outputL out !! i = Some v -> v = 0) /\
  (forall i v, outputR out !! i = Some v -> v = 0) /\
  (forall blocks : list OutputBuffer,
     foldl (fun e b => (generateAudio b e).2) e blocks = e).
Proof.
  intros Hstop.
  assert (Hrun : forall b', generateAudio b' e =
            (mkBuffer (replicate (length (outputL b')) 0)
               (replicate (length (outputR b')) 0), e)).
  { intros b'. unfold generateAudio, bind, gets. rewrite Hstop.
    reflexivity. }
  cbv zeta. rewrite Hrun. cbn [fst snd outputL outputR].
  repeat split.
  - apply length_replicate.
  - apply length_replicate.
  - intros i v Hv. apply lookup_replicate in Hv as [-> _]. reflexivity.
  - intros i v Hv. apply lookup_replicate in Hv as [-> _]. reflexivity.
  - intros blocks. induction blocks as [|b' blocks IH]; [reflexivity|].
    cbn [foldl]. rewrite Hrun. exact IH.
Qed.

Lemma stopped_render_is_silent_witness :
  (generateAudio (mkBuffer [0.5; 0.25] [0.5; 0.25])
     readyEngine).2 = readyEngine.
Proof.
  exact (proj1 (stopped_render_is_silent readyEngine
                  (mkBuffer [0.5; 0.25] [0.5; 0.25]) eq_refl)).
Defined.

(** C9. Switching the active noise type changes, in the engine, only
    the active-type field: the memory of every generator (pink rows and
    counters, brown and red integrators, violet previous sample, gray
    and green filter states) and every other field are as before. *)
Theorem selectNoiseType_frame (a : App) (t : string) :
  let e := engine a in
  let e' := engine (selectNoiseType t a) in
  currentNoiseType e' = t /\
  noiseStates e' = noiseStates e /\
  pink_generators (noiseStates e') = pink_generators (noiseStates e) /\
  pink_counters (noiseStates e') = pink_counters (noiseStates e) /\
  brown (noiseStates e') = brown (noiseStates e) /\
  red (noiseStates e') = red (noiseStates e) /\
  violet_prev (noiseStates e') = violet_prev (noiseStates e) /\
  gray (noiseStates e') = gray (noiseStates e) /\
  green (noiseStates e') = green (noiseStates e) /\
  e' = withNoiseType t e /\
  isPlaying e' = isPlaying e /\
  scriptNodeConnected e' = scriptNodeConnected e /\
  masterGain e' = masterGain e /\
  eqBands e' = eqBands e /\
  reverbGain e' = reverbGain e /\
  dryGain e' = dryGain e /\
  spatialPanner e' = spatialPanner e /\
  warmthFilter e' = warmthFilter e /\
  saturation e' = saturation e /\
  compressor e' = compressor e /\
  modulationGain e' = modulationGain e /\
  limiter e' = limiter e /\
  rng e' = rng e.
Proof. cbv zeta. repeat split. Qed.

End RenderFacts.

(** ** Unrecognised noise types *)

Module FallbackFacts.
Import Spec.

(** C7 as stated fails for the engine: for the type
    "purple" its render callback produces a white sample, which is not
    what the pink generator produces (white draws one number, pink redraws
    all seven rows of a fresh engine). *)
Lemma engine_fallback_is_white :
  Engine.noiseSample "purple" freshEngine
  = Engine.generateWhiteNoise freshEngine /\
  Engine.noiseSample "purple" freshEngine
  <> Engine.generatePinkNoise freshEngine.
Proof.
  split; [reflexivity|].
  intros H.
  apply (f_equal (fun p => cursor (Engine.rng p.2))) in H.
  vm_compute in H. discriminate H.
Qed.

Lemma generator_switch_default (t : string) :
  t ∉ generatorTypes ->
  NoiseGen.noiseSample t = NoiseGen.generatePinkNoiseSample.
Proof.
  intros H. unfold NoiseGen.noiseSample.
  repeat (case_decide as Heq;
          [exfalso; apply H; rewrite Heq; unfold generatorTypes;
           repeat constructor|]; clear Heq).
  reflexivity.
Qed.

Lemma engine_switch_default (t : string) :
  t ∉ engineTypes ->
  Engine.noiseSample t = Engine.generateWhiteNoise.
Proof.
  intros H. unfold Engine.noiseSample.
  repeat (case_decide as Heq;
          [exfalso; apply H; rewrite Heq; unfold engineTypes;
           repeat constructor|]; clear Heq).
  reflexivity.
Qed.

(** C7, amended.  For a noise type that is not one of the variants its
    [switch] names, the per-sample generation of [NoiseGenerator] falls
    back to pink noise, and that of [SoundDesignerEngine] falls back to
    white noise. *)
Theorem unknown_type_fallback (t : string) :
  (t ∉ generatorTypes ->
   NoiseGen.noiseSample t = NoiseGen.generatePinkNoiseSample /\
   forall s b i, NoiseGen.currentNoiseType s = t ->
     NoiseGen.renderFrame b i s =
     (sample <- NoiseGen.generatePinkNoiseSample ;;
      r <- Math_random ;;
      ret (Engine.mkBuffer (<[i := sample]> (Engine.outputL b))
             (<[i := sample * 0.95 + (r * 0.1 - 0.05)]>
                (Engine.outputR b)))) s) /\
  (t ∉ engineTypes ->
   Engine.noiseSample t = Engine.generateWhiteNoise /\
   forall e b i, Engine.currentNoiseType e = t ->
     Engine.renderFrame b i e =
     (sample <- Engine.generateWhiteNoise ;;
      r <- Math_random ;;
      ret (Engine.mkBuffer (<[i := sample]> (Engine.outputL b))
             (<[i := sample * 0.95 + (r * 0.1 - 0.05)]>
                (Engine.outputR b)))) e).
Proof.
  split; intros H.
  - split; [apply generator_switch_default, H|].
    intros s b i Ht. unfold NoiseGen.renderFrame.
    unfold bind at 1, gets. rewrite Ht, (generator_switch_default _ H).
    reflexivity.
  - split; [apply engine_switch_default, H|].
    intros e b i Ht. unfold Engine.renderFrame.
    unfold bind at 1, gets. rewrite Ht, (engine_switch_default _ H).
    reflexivity.
Qed.

Lemma unknown_type_fallback_witness :
  NoiseGen.noiseSample "purple" = NoiseGen.generatePinkNoiseSample /\
  Engine.noiseSample "purple" = Engine.generateWhiteNoise.
Proof.
  split.
  - apply (proj1 (unknown_type_fallback "purple")).
    apply (bool_decide_unpack _). vm_compute. exact I.
  - apply (proj2 (unknown_type_fallback "purple")).
    apply (bool_decide_unpack _). vm_compute. exact I.
Defined.

End FallbackFacts.

(** ** The reverb mix *)

Module MixFacts.
Import Js Spec.

(** C6 as stated fails for the engine: with the reverb
    knob at 50 the wet gain is 0.4 and the dry gain 0.75, neither of which
    is the square root the equal-power law asks for. *)
Lemma engine_reverb_mix_is_linear :
  let e := Engine.updateEffect "reverb" 50 readyEngine in
  Engine.reverbGain e = Some (50 / 100 * 0.8) /\
  Engine.dryGain e = Some (1 - 50 / 100 * 0.5) /\
  50 / 100 * 0.8 <> sqrt (50 / 100) /\
  1 - 50 / 100 * 0.5 <> sqrt (1 - 50 / 100).
Proof.
  cbv zeta. split; [reflexivity|]. split; [reflexivity|]. split.
  - intros H. pose proof (sqrt_sqrt (50 / 100) ltac:(lra)) as Hs.
    rewrite <- H in Hs. lra.
  - intros H. pose proof (sqrt_sqrt (1 - 50 / 100) ltac:(lra)) as Hs.
    rewrite <- H in Hs. lra.
Qed.

Lemma clamp_unit (level : R) :
  0 <= Math_max 0 (Math_min 1 level) <= 1 /\
  (0 <= level <= 1 -> Math_max 0 (Math_min 1 level) = level).
Proof.
  unfold Math_max, Math_min, Rmax, Rmin.
  destruct (Rle_dec 1 level); destruct (Rle_dec 0 _); split; lra.
Qed.

(** C6, amended.  [AudioEffects.setReverbLevel] clamps the level to
    [0,1] and sets the gains by the equal-power law: the dry gain is the
    square root of one minus the level and the wet gain the square root of
    the level, so their squares sum to one.  [SoundDesignerEngine]'s
    reverb knob is linear instead: wet gain 0.8 times the normalised value
    and dry gain one minus half of it. *)
Theorem reverb_mix_laws :
  (forall fx level d w,
     Effects.dryGain fx = Some d -> Effects.reverbGain fx = Some w ->
     let wet := Rmax 0 (Rmin 1 level) in
     let fx' := Effects.setReverbLevel level fx in
     0 <= wet <= 1 /\
     (0 <= level <= 1 -> wet = level) /\
     Effects.reverbLevel fx' = wet /\
     Effects.dryGain fx' = Some (sqrt (1 - wet)) /\
     Effects.reverbGain fx' = Some (sqrt wet) /\
     sqrt (1 - wet) * sqrt (1 - wet) + sqrt wet * sqrt wet = 1) /\
  (forall e value d w,
     Engine.dryGain e = Some d -> Engine.reverbGain e = Some w ->
     let e' := Engine.updateEffect "reverb" value e in
     Engine.reverbGain e' = Some (value / 100 * 0.8) /\
     Engine.dryGain e' = Some (1 - value / 100 * 0.5)).
Proof.
  split.
  - intros fx level d w Hd Hw wet fx'.
    pose proof (clamp_unit level) as [Hrange Hid].
    unfold Math_max, Math_min in Hrange, Hid. fold wet in Hrange, Hid.
    unfold fx', Effects.setReverbLevel. rewrite Hd, Hw.
    cbn [Effects.reverbLevel Effects.dryGain Effects.reverbGain].
    unfold Math_sqrt, Math_max, Math_min. fold wet.
    repeat split; try tauto.
    rewrite !sqrt_sqrt by lra. lra.
  - intros e value d w Hd Hw e'. unfold e', Engine.updateEffect.
    cbn. rewrite Hw, Hd. split; reflexivity.
Qed.

Lemma reverb_mix_laws_witness :
  Effects.dryGain
    (Effects.setReverbLevel 0.25 (Effects.mkEffects 0.4 (Some 0.6) (Some 0.4)))
  = Some (sqrt (1 - Rmax 0 (Rmin 1 0.25))).
Proof.
  pose proof (proj1 reverb_mix_laws
                (Effects.mkEffects 0.4 (Some 0.6) (Some 0.4)) 0.25 0.6 0.4
                eq_refl eq_refl) as H.
  cbv zeta in H. exact (proj1 (proj2 (proj2 (proj2 H)))).
Defined.

End MixFacts.

(** ** The brown and red integrators *)

Module IntegratorFacts.
Import Js Engine Spec.

(** C3 as stated fails for red: from the state 0.95 the
    draw 0.75 moves the red integrator to 0.954525, above 0.95, and
    [generateRedNoise] keeps that value, where compressing the excess
    would give 0.9504525. *)
Lemma red_is_not_soft_clamped :
  red (noiseStates (generateRedNoise redAtThreshold).2) = 0.954525 /\
  (generateRedNoise redAtThreshold).1 = 0.954525 * 0.8 /\
  ~ softClamped 0.9995 0.01 redStep.
Proof.
  split; [|split].
  - cbn. unfold redStep. lra.
  - cbn. unfold redStep. lra.
  - intros H. specialize (H 0.95 0.75 ltac:(lra)). cbv zeta in H.
    unfold redStep in H.
    replace (0.95 * 0.9995 + (0.75 * 2 - 1) * 0.01) with 0.954525 in H
      by lra.
    rewrite Rabs_pos_eq in H by lra.
    specialize (H ltac:(lra)). lra.
Qed.

Lemma Math_sign_abs (x : R) : Math_sign x * Rabs x = x.
Proof.
  unfold Math_sign, Rabs.
  destruct (Rlt_dec 0 x), (Rlt_dec x 0), (Rcase_abs x); lra.
Qed.

Section SoftClamp.
Variables leakage scaling : R.

Lemma clampedStep_above (s r : R) :
  let updated := s * leakage + (r * 2 - 1) * scaling in
  Rabs updated > 0.95 ->
  Rabs (clampedStep leakage scaling s r) = 0.95 + (Rabs updated - 0.95) * 0.1 /\
  0 < clampedStep leakage scaling s r * updated /\
  0.95 < Rabs (clampedStep leakage scaling s r).
Proof.
  intros updated Hgt. unfold clampedStep, gtb, Math_abs. fold updated.
  destruct (Rgt_dec (Rabs updated) 0.95) as [_|Hn]; [|contradiction].
  unfold Math_sign, Rabs in *.
  destruct (Rlt_dec 0 updated), (Rlt_dec updated 0), (Rcase_abs updated);
    try lra;
    repeat match goal with
           | |- context [Rcase_abs ?x] => destruct (Rcase_abs x)
           end; repeat split; nra.
Qed.

Lemma clampedStep_below (s r : R) :
  let updated := s * leakage + (r * 2 - 1) * scaling in
  Rabs updated <= 0.95 -> clampedStep leakage scaling s r = updated.
Proof.
  intros updated Hle. unfold clampedStep, gtb, Math_abs. fold updated.
  destruct (Rgt_dec (Rabs updated) 0.95) as [Hgt|_]; [lra | reflexivity].
Qed.

(** A bound [B] on the state that the update cannot widen by more than
    the clamp takes back. *)
Lemma clampedStep_bound (B s r : R) :
  0 <= leakage -> 0 <= scaling -> 0.95 <= B ->
  0.95 + (leakage * B + scaling - 0.95) * 0.1 <= B ->
  0 <= r < 1 -> Rabs s <= B -> Rabs (clampedStep leakage scaling s r) <= B.
Proof.
  intros Hl Hs HB Hfix Hr Hb.
  set (updated := s * leakage + (r * 2 - 1) * scaling).
  assert (Hup : Rabs updated <= leakage * B + scaling).
  { apply Rabs_le_inv in Hb. apply Rabs_le. unfold updated. nra. }
  destruct (Rle_lt_dec (Rabs updated) 0.95) as [Hle|Hgt].
  - rewrite (clampedStep_below s r Hle). fold updated. lra.
  - destruct (clampedStep_above s r Hgt) as [-> _]. fold updated. lra.
Qed.

End SoftClamp.

Lemma brownStep_clamped (s r : R) :
  brownStep s r = clampedStep 0.999 0.02 s r.
Proof. reflexivity. Qed.

Lemma generator_brownStep_clamped (s r : R) :
  NoiseGen.brownStep s r = clampedStep 0.9995 0.018 s r.
Proof. reflexivity. Qed.

Lemma brownStep_bound (s r : R) :
  0 <= r < 1 -> Rabs s <= 0.96 -> Rabs (brownStep s r) <= 0.96.
Proof.
  intros Hr Hs. rewrite brownStep_clamped.
  apply clampedStep_bound; try assumption; lra.
Qed.

Lemma generator_brownStep_bound (s r : R) :
  0 <= r < 1 -> Rabs s <= 0.96 -> Rabs (NoiseGen.brownStep s r) <= 0.96.
Proof.
  intros Hr Hs. rewrite generator_brownStep_clamped.
  apply clampedStep_bound; try assumption; lra.
Qed.

Lemma redStep_bound (s r : R) :
  0 <= r < 1 -> Rabs s <= 20 -> Rabs (redStep s r) <= 20.
Proof.
  intros Hr Hs. apply Rabs_le_inv in Hs. apply Rabs_le.
  unfold redStep. lra.
Qed.

Lemma bounded_random :
  yields bounded Math_random (fun r => 0 <= r < 1).
Proof.
  intros e (Hf & Hb & Hr). split; [apply Hf|].
  split; [exact Hf | split; assumption].
Qed.

Lemma bounded_frame (f : NoiseStates -> NoiseStates)
    (e : SoundDesignerEngine) :
  bounded e ->
  brown (f (noiseStates e)) = brown (noiseStates e) ->
  red (f (noiseStates e)) = red (noiseStates e) ->
  bounded (withNoiseStates f e).
Proof.
  intros (Hf & Hb & Hr) Eb Er. unfold bounded. cbn.
  rewrite Eb, Er. auto.
Qed.

(** Discharges [preserves bounded m] for a generator that touches neither
    integrator. *)
Ltac keep_bounded :=
  repeat first
    [ apply preserves_ret
    | apply preserves_gets
    | apply (yields_preserves _ _ _ bounded_random)
    | apply preserves_if
    | apply preserves_modify; intros ? ?;
      apply bounded_frame; [assumption | reflexivity | reflexivity]
    | apply preserves_bind; [|intros ?]
    | match goal with
      | |- preserves _ (let '(_, _) := ?x in _) => destruct x
      end ].

Lemma bounded_white : preserves bounded generateWhiteNoise.
Proof. unfold generateWhiteNoise. keep_bounded. Qed.

Lemma bounded_pinkRows (rates : list Z) (sum : R) (index : nat) :
  preserves bounded (pinkRows sum rates index).
Proof.
  revert sum index. induction rates as [|rate rates IH]; intros sum index.
  - apply preserves_ret.
  - cbn [pinkRows]. apply preserves_bind; [|intros sum'; apply IH].
    unfold pinkRow. keep_bounded.
Qed.

Lemma bounded_pink : preserves bounded generatePinkNoise.
Proof.
  unfold generatePinkNoise.
  apply preserves_bind; [apply bounded_pinkRows | intros; apply preserves_ret].
Qed.

Lemma bounded_brown : preserves bounded generateBrownNoise.
Proof.
  unfold generateBrownNoise.
  eapply yields_bind; [apply bounded_random|]. intros r Hr.
  apply preserves_bind; [|intros; keep_bounded].
  apply preserves_modify. intros e (Hf & Hb & Hred).
  split; [exact Hf|]. split; [|exact Hred].
  cbn. apply brownStep_bound; assumption.
Qed.

Lemma bounded_red : preserves bounded generateRedNoise.
Proof.
  unfold generateRedNoise.
  eapply yields_bind; [apply bounded_random|]. intros r Hr.
  apply preserves_bind; [|intros; keep_bounded].
  apply preserves_modify. intros e (Hf & Hb & Hred).
  split; [exact Hf|]. split; [exact Hb|].
  cbn. apply redStep_bound; assumption.
Qed.

Lemma bounded_blue : preserves bounded generateBlueNoise.
Proof.
  unfold generateBlueNoise.
  apply preserves_bind; [apply bounded_white | intros]. keep_bounded.
Qed.

Lemma bounded_violet : preserves bounded generateVioletNoise.
Proof.
  unfold generateVioletNoise.
  apply preserves_bind; [apply bounded_white | intros]. keep_bounded.
Qed.

Lemma bounded_gray : preserves bounded generateGrayNoise.
Proof.
  unfold generateGrayNoise.
  apply preserves_bind; [apply bounded_white | intros]. keep_bounded.
Qed.

Lemma bounded_green : preserves bounded generateGreenNoise.
Proof.
  unfold generateGreenNoise.
  apply preserves_bind; [apply bounded_white | intros]. keep_bounded.
Qed.

Lemma bounded_noiseSample (t : string) : preserves bounded (noiseSample t).
Proof.
  unfold noiseSample.
  repeat case_decide;
    auto using bounded_white, bounded_pink, bounded_brown, bounded_blue,
      bounded_violet, bounded_gray, bounded_red, bounded_green.
Qed.

Lemma bounded_renderFrames (indices : list nat) (b : OutputBuffer) :
  preserves bounded (renderFrames b indices).
Proof.
  revert b. induction indices as [|i indices IH]; intros b.
  - apply preserves_ret.
  - cbn [renderFrames]. apply preserves_bind; [|intros b'; apply IH].
    unfold renderFrame.
    apply preserves_bind; [apply preserves_gets | intros t].
    apply preserves_bind; [apply bounded_noiseSample | intros sample].
    keep_bounded.
Qed.

Lemma bounded_generateAudio (b : OutputBuffer) :
  preserves bounded (generateAudio b).
Proof.
  unfold generateAudio.
  apply preserves_bind; [apply preserves_gets | intros playing].
  apply preserves_if; [apply preserves_ret | apply bounded_renderFrames].
Qed.

Lemma bounded_construct (g : Rng) : fair g -> bounded (construct g).
Proof.
  intros Hg. split; [exact Hg|].
  cbn. rewrite Rabs_R0. lra.
Qed.

Lemma updateEQBand_keeps_generators (bandName : string) (gainDb : R)
    (e : SoundDesignerEngine) :
  noiseStates (updateEQBand bandName gainDb e) = noiseStates e /\
  rng (updateEQBand bandName gainDb e) = rng e.
Proof.
  unfold updateEQBand, updateAutoGainCompensation.
  repeat case_match; auto.
Qed.

Lemma updateEffect_keeps_generators (effectName : string) (value : R)
    (e : SoundDesignerEngine) :
  noiseStates (updateEffect effectName value e) = noiseStates e /\
  rng (updateEffect effectName value e) = rng e.
Proof.
  unfold updateEffect.
  repeat case_decide; repeat case_match; auto.
Qed.

Lemma bounded_perform (a : Action) (e : SoundDesignerEngine) :
  bounded e -> bounded (perform a e).
Proof.
  intros He. destruct a as [b|t|playing|bandName gainDb|effectName value];
    cbn [perform].
  - apply preserves_state; [apply bounded_generateAudio | exact He].
  - exact He.
  - exact He.
  - destruct (updateEQBand_keeps_generators bandName gainDb e) as [Hn Hr].
    unfold bounded. rewrite Hn, Hr. exact He.
  - destruct (updateEffect_keeps_generators effectName value e) as [Hn Hr].
    unfold bounded. rewrite Hn, Hr. exact He.
Qed.

Lemma bounded_session (actions : list Action) (e : SoundDesignerEngine) :
  bounded e -> bounded (session actions e).
Proof.
  unfold session. revert e.
  induction actions as [|a actions IH]; intros e He; [exact He|].
  cbn [foldl]. apply IH, bounded_perform, He.
Qed.

Lemma redRun_state (c : R) (n : nat) (e : SoundDesignerEngine) :
  stream (rng e) = (fun _ => c) ->
  stream (rng (redRun n e)) = (fun _ => c) /\
  red (noiseStates (redRun n e))
  = Nat.iter n (fun s => redStep s c) (red (noiseStates e)).
Proof.
  intros Hc. induction n as [|n [IHs IHr]]; [split; [exact Hc | reflexivity]|].
  change (redRun (Datatypes.S n) e) with ((generateRedNoise (redRun n e)).2).
  set (e' := redRun n e) in *.
  split; [exact IHs|].
  change (red (noiseStates (generateRedNoise e').2))
    with (redStep (red (noiseStates e')) (stream (rng e') (cursor (rng e')))).
  rewrite IHs, IHr. reflexivity.
Qed.

Lemma red_climbs (n : nat) :
  Rmin (0.0094 * INR n) 0.96
  <= Nat.iter n (fun s => redStep s 0.999) 0.
Proof.
  induction n as [|n IH].
  - cbn. unfold Rmin. destruct (Rle_dec _ _); lra.
  - rewrite S_INR, Nat.iter_succ.
    set (s := Nat.iter n (fun s => redStep s 0.999) 0) in *.
    unfold redStep. unfold Rmin in *.
    destruct (Rle_dec (0.0094 * INR n) 0.96),
             (Rle_dec (0.0094 * (INR n + 1)) 0.96);
      destruct (Rle_lt_dec 0.96 s); lra.
Qed.

(** The red integrator does leave the band of the clamp on its own: from
    the constructed engine, 102 samples with every draw at 0.999 take it
    above 0.95. *)
Lemma red_leaves_clamp_band :
  0.95 < red (noiseStates
                (redRun 102 (construct (mkRng (fun _ => 0.999) 0)))).
Proof.
  destruct (redRun_state 0.999 102 (construct (mkRng (fun _ => 0.999) 0))
              eq_refl) as [_ ->].
  pose proof (red_climbs 102) as H.
  change (red (noiseStates (construct (mkRng (fun _ => 0.999) 0)))) with 0.
  replace (INR 102) with 102 in H by (rewrite INR_IZR_INZ; reflexivity).
  unfold Rmin in H. destruct (Rle_dec (0.0094 * 102) 0.96); lra.
Qed.

(** C3, amended.  The brown generator soft-clamps its integrator: when
    the state magnitude exceeds 0.95 after the leaky-integrator update,
    the excess above 0.95 is multiplied by 0.1, the sign is kept and the
    result is still above 0.95 (no hard clip); otherwise the updated state
    is kept as it is.  Over arbitrarily long sessions (render blocks mixed
    with changes of noise type, playback, EQ and effects) with draws in
    [0,1), the brown and the red integrator remain bounded: brown within
    0.96 and red, by its leakage, within 20; both bounds hold for the
    constructed engine. *)
Theorem integrators_stay_bounded :
  (forall s r,
     let updated := s * 0.999 + (r * 2 - 1) * 0.02 in
     (Rabs updated > 0.95 ->
        Rabs (brownStep s r) = 0.95 + (Rabs updated - 0.95) * 0.1 /\
        0 < brownStep s r * updated /\
        0.95 < Rabs (brownStep s r)) /\
     (Rabs updated <= 0.95 -> brownStep s r = updated)) /\
  (forall e,
     let r := stream (rng e) (cursor (rng e)) in
     brown (noiseStates (generateBrownNoise e).2)
     = brownStep (brown (noiseStates e)) r /\
     (generateBrownNoise e).1 = brownStep (brown (noiseStates e)) r * 0.4) /\
  (forall g, fair g ->
     Rabs (brown (noiseStates (construct g))) <= 0.96 /\
     Rabs (red (noiseStates (construct g))) <= 20) /\
  (forall e actions,
     fair (rng e) ->
     Rabs (brown (noiseStates e)) <= 0.96 ->
     Rabs (red (noiseStates e)) <= 20 ->
     Rabs (brown (noiseStates (session actions e))) <= 0.96 /\
     Rabs (red (noiseStates (session actions e))) <= 20).
Proof.
  split; [|split; [|split]].
  - intros s r updated. rewrite brownStep_clamped. split.
    + apply clampedStep_above.
    + apply clampedStep_below.
  - intros e r. split; reflexivity.
  - intros g Hg. apply (bounded_construct g Hg).
  - intros e actions Hf Hb Hr.
    destruct (bounded_session actions e) as (_ & Hb' & Hr').
    + split; [exact Hf | split; assumption].
    + split; assumption.
Qed.

Lemma integrators_stay_bounded_witness :
  let actions :=
    [SelectType "red"; SetPlaying true; Render (mkBuffer [0; 0] [0; 0]);
     SelectType "brown"; Render (mkBuffer [0; 0] [0; 0])] in
  Rabs (brown (noiseStates (session actions freshEngine))) <= 0.96 /\
  Rabs (red (noiseStates (session actions freshEngine))) <= 20.
Proof.
  cbv zeta.
  apply (proj2 (proj2 (proj2 integrators_stay_bounded))).
  - intros n. cbn. lra.
  - cbn. rewrite Rabs_R0. lra.
  - cbn. rewrite Rabs_R0. lra.
Defined.

End IntegratorFacts.

(** ** Importing a profile *)

Module ProfileFacts.
Import Js Engine Spec.


Lemma updateEQBand_frame (bandName : string) (gainDb : R)
    (e : SoundDesignerEngine) :
  let e' := updateEQBand bandName gainDb e in
  effectParams e' = effectParams e /\
  currentNoiseType e' = currentNoiseType e /\
  noiseStates e' = noiseStates e /\
  length (eqBands e') = length (eqBands e).
Proof.
  cbv zeta. unfold updateEQBand.
  destruct (bool_decide _); [|auto].
  destruct (eqBands e !! _) as [band|]; [|auto].
  unfold updateAutoGainCompensation. cbn [masterGain withEqBands].
  destruct (masterGain e); cbn; rewrite length_insert; auto.
Qed.

Lemma loadBand_frame (a : App) (entry : string * R) :
  let a' := loadBand a entry in
  effectParams (engine a') = effectParams (engine a) /\
  currentNoiseType (engine a') = currentNoiseType (engine a) /\
  noiseStates (engine a') = noiseStates (engine a) /\
  length (eqBands (engine a')) = length (eqBands (engine a)) /\
  alerts a' = alerts a /\
  (forall id, is_Some (elements (page a) !! id) ->
              is_Some (elements (page a') !! id)).
Proof.
  cbv zeta. destruct entry as [bandName v]. unfold loadBand.
  destruct (elements (page a) !! _); [|auto 10].
  destruct (elements (page a) !! _); [|auto 10].
  cbn [engine onEngine setElement page alerts elements].
  destruct (updateEQBand_frame bandName v (engine a)) as (H1 & H2 & H3 & H4).
  repeat split; try assumption.
  intros id Hid. rewrite !lookup_insert_is_Some'. auto.
Qed.

Lemma loadBands_frame (eq : list (string * R)) (a : App) :
  let a' := foldl loadBand a eq in
  effectParams (engine a') = effectParams (engine a) /\
  currentNoiseType (engine a') = currentNoiseType (engine a) /\
  noiseStates (engine a') = noiseStates (engine a) /\
  length (eqBands (engine a')) = length (eqBands (engine a)) /\
  alerts a' = alerts a /\
  (forall id, is_Some (elements (page a) !! id) ->
              is_Some (elements (page a') !! id)).
Proof.
  cbv zeta. revert a. induction eq as [|entry eq IH]; intros a.
  - cbn. auto 10.
  - cbn [foldl].
    destruct (IH (loadBand a entry)) as (H1 & H2 & H3 & H4 & H5 & H6).
    destruct (loadBand_frame a entry) as (G1 & G2 & G3 & G4 & G5 & G6).
    rewrite H1, H2, H3, H4, H5. repeat split; auto.
Qed.

Lemma band_names_distinct : NoDup (name <$> eqFrequencies).
Proof. apply (bool_decide_unpack _). vm_compute. exact I. Qed.


Lemma updateEQBand_same (bandName : string) (v : R) (i : nat)
    (e : SoundDesignerEngine) :
  (name <$> eqFrequencies) !! i = Some bandName ->
  (i < length (eqBands e))%nat ->
  f_gain <$> eqBands (updateEQBand bandName v e) !! i = Some v.
Proof.
  intros Hi Hlt.
  destruct (lookup_lt_is_Some_2 _ _ Hlt) as [band Hband].
  rewrite (EqFacts.updateEQBand_known e bandName v i band Hi Hband).
  unfold updateAutoGainCompensation. cbn [masterGain withEqBands].
  destruct (masterGain e); cbn; rewrite list_lookup_insert_eq by exact Hlt;
    reflexivity.
Qed.






End ProfileFacts.

(** ** The generators on a fresh engine *)

Module Runs.
Import Js Engine Spec.

(** Runs the embedded code, leaving the arithmetic of the reals alone. *)
Ltac run :=
  cbv -[Rplus Rmult Rminus Rdiv Ropp Rinv IZR Rabs Rgt_dec Rlt_dec Rle_dec
        Rcase_abs].

(** Every row of a fresh engine is redrawn by the first pink sample. *)
Example pink_first_sample :
  (generatePinkNoise freshEngine).1 = 0.175 /\
  pink_counters (noiseStates (generatePinkNoise freshEngine).2)
  = [1; 1; 1; 1; 1; 1; 1]%Z /\
  cursor (rng (generatePinkNoise freshEngine).2) = 14%N.
Proof.
  split; [|split; reflexivity].
  run. lra.
Qed.

(** The second pink sample redraws the first row only. *)
Example pink_second_sample :
  let e := (generatePinkNoise freshEngine).2 in
  pink_counters (noiseStates (generatePinkNoise e).2)
  = [2; 2; 2; 2; 2; 2; 2]%Z /\
  cursor (rng (generatePinkNoise e).2) = 15%N.
Proof. split; reflexivity. Qed.

Example brown_first_sample : (generateBrownNoise freshEngine).1 = 0.004.
Proof.
  unfold generateBrownNoise, freshEngine. cbn.
  unfold brownStep, gtb, Math_abs.
  replace (0 * 0.999 + (0.75 * 2 - 1) * 0.02) with 0.01 by lra.
  rewrite Rabs_pos_eq by lra.
  destruct (Rgt_dec _ _) as [H|_]; lra.
Qed.

Example violet_first_sample :
  (generateVioletNoise freshEngine).1 = 0.075 /\
  violet_prev (noiseStates (generateVioletNoise freshEngine).2) = 0.15.
Proof. split; run; lra. Qed.

Example blue_first_sample : (generateBlueNoise freshEngine).1 = 0.12375.
Proof. run. lra. Qed.

Example gray_first_sample :
  (generateGrayNoise freshEngine).1 = 0.03087 /\
  get (gray (noiseStates (generateGrayNoise freshEngine).2)) 0 = 0.105 /\
  get (gray (noiseStates (generateGrayNoise freshEngine).2)) 1 = 0.0735 /\
  get (gray (noiseStates (generateGrayNoise freshEngine).2)) 2 = 0.05145 /\
  get (gray (noiseStates (generateGrayNoise freshEngine).2)) 3 = 0.
Proof. repeat split; run; lra. Qed.

Example green_first_sample :
  (generateGreenNoise freshEngine).1 = 0.00018 /\
  get (green (noiseStates (generateGreenNoise freshEngine).2)) 0 = 0.15 /\
  get (green (noiseStates (generateGreenNoise freshEngine).2)) 1 = 0.015 /\
  get (green (noiseStates (generateGreenNoise freshEngine).2)) 5 = 0.00015.
Proof. repeat split; run; lra. Qed.

(** One frame of white noise while playing: the left cell takes the
    sample, the right cell 0.95 times it plus the stereo variation. *)
Example playing_render_frame :
  let out := (generateAudio (mkBuffer [0] [0])
                (withPlaying true freshEngine)).1 in
  get (outputL out) 0 = 0.15 /\ get (outputR out) 0 = 0.1675.
Proof. split; run; lra. Qed.

(** The generator class: a blue sample is 0.85 * 0.8 times the white
    draw, whatever the previous one was. *)
Example generator_blue_sample (s : NoiseGen.NoiseGenerator) :
  (NoiseGen.generateBlueNoiseSample s).1
  = 0.68 * (stream (NoiseGen.rng s) (cursor (NoiseGen.rng s)) * 2 - 1).
Proof. run. lra. Qed.

End Runs.

(** ** Knobs, number inputs and the ranges of the parameters *)

Module KnobFacts.
Import Js Engine Spec Terms.

Lemma clamp_between (lo hi v : R) :
  lo <= hi ->
  lo <= Math_max lo (Math_min hi v) <= hi /\
  (lo <= v <= hi -> Math_max lo (Math_min hi v) = v).
Proof.
  intros Hle. unfold Math_max, Math_min, Rmax, Rmin.
  destruct (Rle_dec hi v); destruct (Rle_dec lo _); split; lra.
Qed.

(** [updateEffect] writes the stage it names and nothing else; for a name
    that is none of the six effects, and for an engine whose audio graph
    is not built, it changes nothing at all. *)
Theorem updateEffect_writes_one_stage (effectName : string) (value : R)
    (e : SoundDesignerEngine) :
  let e' := updateEffect effectName value e in
  (isPlaying e' = isPlaying e /\ currentNoiseType e' = currentNoiseType e /\
   scriptNodeConnected e' = scriptNodeConnected e /\
   masterGain e' = masterGain e /\ eqBands e' = eqBands e /\
   limiter e' = limiter e /\ noiseStates e' = noiseStates e /\
   rng e' = rng e) /\
  (effectName <> "reverb" ->
   reverbGain e' = reverbGain e /\ dryGain e' = dryGain e) /\
  (effectName <> "spatial" -> spatialPanner e' = spatialPanner e) /\
  (effectName <> "warmth" -> warmthFilter e' = warmthFilter e) /\
  (effectName <> "saturation" -> saturation e' = saturation e) /\
  (effectName <> "dynamics" -> compressor e' = compressor e) /\
  (effectName <> "modulation" -> modulationGain e' = modulationGain e) /\
  (effectName ∉ Controls.effects -> e' = e) /\
  (reverbGain e = None -> spatialPanner e = None -> warmthFilter e = None ->
   saturation e = None -> compressor e = None -> modulationGain e = None ->
   e' = e).
Proof.
  cbv zeta. unfold updateEffect.
  split; [|split; [|split; [|split; [|split; [|split; [|split;
    [|split]]]]]]].
  1-7: repeat split; repeat case_decide; repeat case_match; subst;
       first [reflexivity | congruence].
  - intros Hout. repeat case_decide; subst;
      try (exfalso; apply Hout; unfold Controls.effects;
           repeat constructor; fail).
    reflexivity.
  - intros -> -> -> -> -> ->. repeat case_decide; reflexivity.
Qed.

Lemma updateEffect_writes_one_stage_witness :
  updateEffect "echo" 50 readyEngine = readyEngine.
Proof.
  refine (proj1 (proj2 (proj2 (proj2 (proj2 (proj2 (proj2 (proj2
            (updateEffect_writes_one_stage "echo" 50 readyEngine)))))))) _).
  apply (bool_decide_unpack _). vm_compute. exact I.
Defined.

Ltac solve_range :=
  let x := fresh "x" in
  let Hx := fresh "Hx" in
  intros x Hx;
  first
    [ solve [eauto]
    | injection Hx as <-; cbn; repeat split;
      first [lra | unfold Math_max, Rmax; destruct (Rle_dec _ _); lra] ].

Lemma updateEffect_withinRanges (effectName : string) (value : R)
    (e : SoundDesignerEngine) :
  0 <= value <= 100 -> withinRanges e ->
  withinRanges (updateEffect effectName value e).
Proof.
  intros Hv He. unfold updateEffect.
  repeat case_decide; repeat case_match; subst; try exact He.
  all: destruct He as (Hw & Hd & Hp & Hf & Hs & Hc & Hm).
  all: unfold withinRanges; cbn.
  all: split; [|split; [|split; [|split; [|split; [|split]]]]].
  all: solve_range.
Qed.

Lemma createAudioGraph_withinRanges (stereo : bool)
    (e : SoundDesignerEngine) :
  withinRanges (createAudioGraph stereo e).
Proof.
  unfold withinRanges. cbn.
  split; [|split; [|split; [|split; [|split; [|split]]]]].
  all: try (intros x Hx; injection Hx as <-; cbn; lra).
  destruct stereo; intros p Hp; [injection Hp as <-; lra | discriminate Hp].
Qed.

(** Band gains *)

Lemma updateEQBand_gainsWithin (bandName : string) (gainDb : R)
    (e : SoundDesignerEngine) :
  -30 <= gainDb <= 30 -> gainsWithin e ->
  gainsWithin (updateEQBand bandName gainDb e).
Proof.
  intros Hg He. unfold updateEQBand.
  case_bool_decide; [|exact He].
  destruct (eqBands e !! _) as [band|] eqn:Hband; [|exact He].
  unfold updateAutoGainCompensation, gainsWithin.
  cbn [masterGain withEqBands eqBands].
  destruct (masterGain e); cbn; apply Forall_insert; try exact He;
    cbn; exact Hg.
Qed.

Lemma updateEQBand_compensated (bandName : string) (gainDb : R)
    (e : SoundDesignerEngine) :
  compensated e -> compensated (updateEQBand bandName gainDb e).
Proof.
  intros (m & Hm & Heq). unfold updateEQBand.
  case_bool_decide; [|exists m; auto].
  destruct (eqBands e !! _) as [band|] eqn:Hband; [|exists m; auto].
  unfold updateAutoGainCompensation, compensated.
  cbn [masterGain withEqBands eqBands]. rewrite Hm.
  eexists. split; [reflexivity|]. cbn. lra.
Qed.

Lemma totalBoost_from_at_most (bands : list BiquadFilter) (acc : R) :
  Forall (fun band => f_gain band <= 30) bands ->
  foldl (fun totalBoost band =>
           let gain := f_gain band in
           if gtb gain 0 then totalBoost + gain else totalBoost)
        acc bands
  <= acc + 30 * INR (length bands).
Proof.
  intros H. revert acc. induction H as [|band bands Hb _ IH]; intros acc.
  - cbn. lra.
  - cbn [foldl]. specialize (IH (let gain := f_gain band in
                                 if gtb gain 0 then acc + gain else acc)).
    rewrite length_cons, S_INR. cbv zeta in *. unfold gtb in *.
    destruct (Rgt_dec (f_gain band) 0); lra.
Qed.

Lemma totalBoost_at_most (bands : list BiquadFilter) :
  Forall (fun band => f_gain band <= 30) bands ->
  totalBoost bands <= 30 * INR (length bands).
Proof.
  intros H. pose proof (totalBoost_from_at_most bands 0 H). unfold totalBoost.
  lra.
Qed.

Lemma factor_at_least (bands : list BiquadFilter) :
  Forall (fun band => -30 <= f_gain band <= 30) bands ->
  length bands = 10%nat ->
  1 / 15 <= compensationFactor bands <= 1.
Proof.
  intros H Hlen.
  assert (Hmax : totalBoost bands <= 300).
  { pose proof (totalBoost_at_most bands) as Hb.
    rewrite Hlen in Hb. replace (INR 10) with 10 in Hb
      by (rewrite INR_IZR_INZ; reflexivity).
    assert (Forall (fun band => f_gain band <= 30) bands)
      by (eapply Forall_impl; [exact H | cbn; intros; lra]).
    specialize (Hb ltac:(assumption)). lra. }
  unfold compensationFactor, gtb.
  destruct (Rgt_dec (totalBoost bands) 20) as [Hgt|Hle]; [|lra].
  split.
  - apply div_le_cross; lra.
  - replace 1 with (1 / 1) by field. apply div_le_cross; lra.
Qed.

Lemma createAudioGraph_inRange (stereo : bool) (e : SoundDesignerEngine) :
  inRange (createAudioGraph stereo e).
Proof.
  split; [|split; [apply createAudioGraph_withinRanges|split]].
  - unfold gainsWithin. cbn. repeat constructor; cbn; lra.
  - exists 1.0. split; [reflexivity|].
    unfold compensationFactor, totalBoost, gtb. cbn.
    destruct (Rgt_dec 0 0); [lra|]. destruct (Rgt_dec 0 20); lra.
  - reflexivity.
Qed.

Lemma updateEQBand_length (bandName : string) (gainDb : R)
    (e : SoundDesignerEngine) :
  length (eqBands (updateEQBand bandName gainDb e)) = length (eqBands e).
Proof.
  unfold updateEQBand, updateAutoGainCompensation.
  repeat case_match; cbn; rewrite ?length_insert; reflexivity.
Qed.

Lemma updateEQBand_effects (bandName : string) (gainDb : R)
    (e : SoundDesignerEngine) :
  withinRanges e -> withinRanges (updateEQBand bandName gainDb e).
Proof.
  unfold updateEQBand, updateAutoGainCompensation.
  repeat case_match; auto.
Qed.

Lemma updateEffect_keeps_eq (effectName : string) (value : R)
    (e : SoundDesignerEngine) :
  masterGain (updateEffect effectName value e) = masterGain e /\
  eqBands (updateEffect effectName value e) = eqBands e.
Proof.
  unfold updateEffect.
  repeat case_decide; repeat case_match; auto.
Qed.

Lemma setValue_engine (id : string) (v : R) (a : App) :
  engine (setValue id v a) = engine a.
Proof. unfold setValue. destruct (elements (page a) !! id); reflexivity. Qed.

Lemma eqNumberInput_inRange (bandName : string) (a : App) :
  inRange (engine a) -> inRange (engine (Controls.eqNumberInput bandName a)).
Proof.
  intros Ha. pose proof Ha as (Hg & Hw & Hc & Hlen). unfold Controls.eqNumberInput.
  case_bool_decide; [|exact Ha].
  destruct (elements (page a) !! ("eq-" +:+ bandName));
    [|exact Ha].
  destruct (elements (page a) !! ("val-" +:+ bandName)) as [v|];
    [|exact Ha].
  cbn [engine onEngine setElement].
  destruct (clamp_between (-30) 30 v ltac:(lra)) as [Hclamp _].
  split; [apply updateEQBand_gainsWithin; assumption|].
  split; [apply updateEQBand_effects, Hw|].
  split; [apply updateEQBand_compensated, Hc|].
  rewrite updateEQBand_length. exact Hlen.
Qed.

Lemma effectNumberInput_inRange (effect : string) (a : App) :
  inRange (engine a) ->
  inRange (engine (Controls.effectNumberInput effect a)).
Proof.
  intros Ha. pose proof Ha as (Hg & Hw & Hc & Hlen). unfold Controls.effectNumberInput.
  case_bool_decide; [|exact Ha].
  destruct (elements (page a) !! effect); [|exact Ha].
  destruct (elements (page a) !! ("val-" +:+ effect)) as [v|];
    [|exact Ha].
  cbn [engine onEngine setElement].
  destruct (clamp_between 0 100 (Controls.parseInt v) ltac:(lra))
    as [Hclamp _].
  set (value := Math_max 0 _) in *.
  destruct (updateEffect_keeps_eq effect value (engine a)) as [Hm Hb].
  split; [unfold gainsWithin; rewrite Hb; exact Hg|].
  split; [apply updateEffect_withinRanges; assumption|].
  split; [unfold compensated; rewrite Hm, Hb; exact Hc|].
  rewrite Hb. exact Hlen.
Qed.

Lemma typeIn_inRange (t : Typed) (a : App) :
  inRange (engine a) -> inRange (engine (typeIn t a)).
Proof.
  intros Ha. destruct t as [bandName v|effect v]; cbn [typeIn].
  - apply eqNumberInput_inRange. rewrite setValue_engine. exact Ha.
  - apply effectNumberInput_inRange. rewrite setValue_engine. exact Ha.
Qed.

(** Whatever numbers are typed into the number inputs of the bands and of
    the effects, once the audio graph is built: every band gain stays
    within [-30, 30], every effect parameter within the range of its
    knob, and the master gain is the compensation of the current gains,
    between 1/15 and 1. *)
Theorem typed_numbers_stay_in_range (stereo : bool)
    (e : SoundDesignerEngine) (p : Page) (shown : list string)
    (inputs : list Typed) :
  let a := typeAll inputs (mkApp (createAudioGraph stereo e) p shown) in
  gainsWithin (engine a) /\ withinRanges (engine a) /\
  exists m, masterGain (engine a) = Some m /\
            m = compensationFactor (eqBands (engine a)) /\
            1 / 15 <= m <= 1.
Proof.
  cbv zeta.
  assert (H : inRange (engine (typeAll inputs
                (mkApp (createAudioGraph stereo e) p shown)))).
  { unfold typeAll.
    generalize (createAudioGraph_inRange stereo e).
    change (createAudioGraph stereo e)
      with (engine (mkApp (createAudioGraph stereo e) p shown)) at 1.
    generalize (mkApp (createAudioGraph stereo e) p shown).
    induction inputs as [|t inputs IH]; intros a Ha; [exact Ha|].
    cbn [foldl]. apply IH, typeIn_inRange, Ha. }
  destruct H as (Hg & Hw & (m & Hm & Heq) & Hlen).
  split; [exact Hg|]. split; [exact Hw|].
  exists m. split; [exact Hm|]. split; [exact Heq|].
  rewrite Heq. apply factor_at_least; assumption.
Qed.

(** A number typed into the number input of a configured band whose two
    controls are on the page is clamped to [-30, 30]: the slider and the
    number input both show the clamped value, which is the gain the filter
    of the band takes; a number within the range is taken as it is. *)
Theorem band_number_is_clamped (a : App) (bandName : string) (v : R)
    (i : nat) :
  (name <$> eqFrequencies) !! i = Some bandName ->
  (i < length (eqBands (engine a)))%nat ->
  is_Some (elements (page a) !! ("eq-" +:+ bandName)) ->
  is_Some (elements (page a) !! ("val-" +:+ bandName)) ->
  let a' := typeIn (TypedBand bandName v) a in
  let shown := Rmax (-30) (Rmin 30 v) in
  -30 <= shown <= 30 /\
  (-30 <= v <= 30 -> shown = v) /\
  elements (page a') !! ("eq-" +:+ bandName) = Some shown /\
  elements (page a') !! ("val-" +:+ bandName) = Some shown /\
  f_gain <$> eqBands (engine a') !! i = Some shown.
Proof.
  intros Hi Hlt [s Hs] [n Hn] a' shown.
  destruct (clamp_between (-30) 30 v ltac:(lra)) as [Hrange Hid].
  unfold Math_max, Math_min in Hrange, Hid. fold shown in Hrange, Hid.
  split; [exact Hrange|]. split; [exact Hid|].
  unfold a', typeIn, setValue, Controls.eqNumberInput. rewrite Hn.
  rewrite bool_decide_eq_true_2 by (eapply list_elem_of_lookup_2, Hi).
  cbn [page setElement elements].
  rewrite lookup_insert_ne by (intros [=]). rewrite Hs, lookup_insert_eq.
  cbn [engine onEngine setElement page elements].
  unfold Math_max, Math_min. fold shown.
  split; [|split].
  - rewrite lookup_insert_ne by (intros [=]). apply lookup_insert_eq.
  - apply lookup_insert_eq.
  - apply ProfileFacts.updateEQBand_same; assumption.
Qed.

Lemma band_number_is_clamped_witness :
  f_gain <$> eqBands (engine (typeIn (TypedBand "bass" 45) someApp)) !! 1%nat
  = Some (Rmax (-30) (Rmin 30 45)).
Proof.
  refine (proj2 (proj2 (proj2 (proj2
            (band_number_is_clamped someApp "bass" 45 1%nat _ _ _ _))))).
  - reflexivity.
  - change (1 < 10)%nat. lia.
  - cbn. eauto.
  - cbn. eauto.
Defined.

End KnobFacts.

(** ** What the render callback and the EQ control leave alone *)

Module FrameFacts.
Import Js Engine Spec Terms.

Section Controls.
(** A property of the engine that depends neither on the generator memory
    nor on the random source. *)
Variable P : SoundDesignerEngine -> Prop.
Hypothesis P_noiseStates :
  forall f e, P e -> P (withNoiseStates f e).
Hypothesis P_rng :
  forall c e, P e -> P (withEngineRng (mkRng (stream (rng e)) c) e).

Ltac keep_controls :=
  repeat first
    [ apply preserves_ret
    | apply preserves_gets
    | apply preserves_if
    | apply preserves_modify; intros ? ?; apply P_noiseStates; assumption
    | apply preserves_bind; [|intros ?]
    | match goal with
      | |- preserves _ Math_random =>
          intros ? ?; split; [exact I | apply (P_rng _ _); assumption]
      | |- preserves _ (let '(_, _) := ?x in _) => destruct x
      end ].

Lemma controls_white : preserves P generateWhiteNoise.
Proof. unfold generateWhiteNoise. keep_controls. Qed.

Lemma controls_pinkRows (rates : list Z) (sum : R) (index : nat) :
  preserves P (pinkRows sum rates index).
Proof.
  revert sum index. induction rates as [|rate rates IH]; intros sum index.
  - apply preserves_ret.
  - cbn [pinkRows]. apply preserves_bind; [|intros sum'; apply IH].
    unfold pinkRow. keep_controls.
Qed.

Lemma controls_noiseSample (t : string) : preserves P (noiseSample t).
Proof.
  pose proof controls_white as Hwhite.
  unfold noiseSample.
  repeat case_decide; try exact Hwhite.
  - unfold generatePinkNoise.
    apply preserves_bind; [apply controls_pinkRows|intros; keep_controls].
  - unfold generateBrownNoise. keep_controls.
  - unfold generateBlueNoise.
    apply preserves_bind; [exact Hwhite | intros]. keep_controls.
  - unfold generateVioletNoise.
    apply preserves_bind; [exact Hwhite | intros]. keep_controls.
  - unfold generateGrayNoise.
    apply preserves_bind; [exact Hwhite | intros]. keep_controls.
  - unfold generateRedNoise. keep_controls.
  - unfold generateGreenNoise.
    apply preserves_bind; [exact Hwhite | intros]. keep_controls.
Qed.

Lemma controls_renderFrames (indices : list nat) (b : OutputBuffer) :
  preserves P (renderFrames b indices).
Proof.
  revert b. induction indices as [|i indices IH]; intros b.
  - apply preserves_ret.
  - cbn [renderFrames]. apply preserves_bind; [|intros b'; apply IH].
    unfold renderFrame.
    apply preserves_bind; [apply preserves_gets | intros t].
    apply preserves_bind; [apply controls_noiseSample | intros sample].
    keep_controls.
Qed.

Lemma controls_generateAudio (b : OutputBuffer) :
  preserves P (generateAudio b).
Proof.
  unfold generateAudio.
  apply preserves_bind; [apply preserves_gets | intros playing].
  apply preserves_if; [apply preserves_ret | apply controls_renderFrames].
Qed.

End Controls.

(** The render callback, playing or not, touches nothing but the memory of
    the generators and the random source: playback state, noise type,
    script node, master gain, EQ filters, every effect parameter and the
    limiter curve are as they were. *)
Theorem render_keeps_controls (b : OutputBuffer) (e : SoundDesignerEngine) :
  let e' := (generateAudio b e).2 in
  isPlaying e' = isPlaying e /\
  currentNoiseType e' = currentNoiseType e /\
  scriptNodeConnected e' = scriptNodeConnected e /\
  masterGain e' = masterGain e /\
  eqBands e' = eqBands e /\
  effectParams e' = effectParams e /\
  limiter e' = limiter e /\
  stream (rng e') = stream (rng e).
Proof.
  cbv zeta.
  apply (preserves_state
           (fun e' =>
              isPlaying e' = isPlaying e /\
              currentNoiseType e' = currentNoiseType e /\
              scriptNodeConnected e' = scriptNodeConnected e /\
              masterGain e' = masterGain e /\
              eqBands e' = eqBands e /\
              effectParams e' = effectParams e /\
              limiter e' = limiter e /\
              stream (rng e') = stream (rng e))
           (generateAudio b) e).
  - apply controls_generateAudio.
    + intros f e1 H. exact H.
    + intros c e1 H. exact H.
  - repeat split.
Qed.

(** The filter of a band after [updateEQBand]: the band that carries the
    name takes the new gain and keeps its type, frequency and Q; every
    other filter is the one it was. *)
Lemma updateEQBand_lookup (bandName : string) (gainDb : R)
    (e : SoundDesignerEngine) (j : nat) :
  eqBands (updateEQBand bandName gainDb e) !! j
  = if decide ((name <$> eqFrequencies) !! j = Some bandName)
    then setGain gainDb <$> eqBands e !! j
    else eqBands e !! j.
Proof.
  destruct (decide (bandName ∈ name <$> eqFrequencies)) as [Hin|Hout].
  - apply list_elem_of_lookup_1 in Hin as [i Hi].
    assert (Hij : (name <$> eqFrequencies) !! j = Some bandName -> j = i).
    { intros Hj.
      exact (NoDup_lookup _ _ _ _ ProfileFacts.band_names_distinct Hj Hi). }
    destruct (eqBands e !! i) as [band|] eqn:Hband.
    + rewrite (EqFacts.updateEQBand_known e bandName gainDb i band Hi Hband).
      assert (Hlt : (i < length (eqBands e))%nat)
        by (apply lookup_lt_is_Some; eauto).
      assert (Hl : eqBands (updateAutoGainCompensation
                     (withEqBands (<[i:=setGain gainDb band]> (eqBands e)) e))
                   = <[i:=setGain gainDb band]> (eqBands e)).
      { unfold updateAutoGainCompensation. cbn [masterGain withEqBands].
        destruct (masterGain e); reflexivity. }
      rewrite Hl. case_decide as Hj.
      * rewrite (Hij Hj), Hband. apply list_lookup_insert_eq, Hlt.
      * apply list_lookup_insert_ne. intros <-. apply Hj, Hi.
    + assert (He : updateEQBand bandName gainDb e = e).
      { unfold updateEQBand. rewrite (EqFacts.findIndex_band _ _ Hi).
        rewrite bool_decide_eq_true_2 by lia.
        rewrite Nat2Z.id, Hband. reflexivity. }
      rewrite He. case_decide as Hj; [|reflexivity].
      rewrite (Hij Hj), Hband. reflexivity.
  - assert (He : updateEQBand bandName gainDb e = e).
    { unfold updateEQBand. rewrite (EqFacts.findIndex_unknown _ Hout).
      reflexivity. }
    rewrite He. case_decide as Hj; [|reflexivity].
    exfalso. apply Hout. eapply list_elem_of_lookup_2, Hj.
Qed.

(** [updateEQBand] moves one band and nothing else: the filter at the
    position of the named band takes the new gain and keeps its type,
    frequency and Q, every other filter is the one it was, and apart from
    the master gain, which is recomputed, no other part of the engine
    changes. *)
Theorem updateEQBand_moves_one_band (bandName : string) (gainDb : R)
    (e : SoundDesignerEngine) :
  let e' := updateEQBand bandName gainDb e in
  (forall j,
     eqBands e' !! j
     = if decide ((name <$> eqFrequencies) !! j = Some bandName)
       then (fun band =>
               mkBiquad (f_type band) (f_frequency band) (f_Q band) gainDb)
            <$> eqBands e !! j
       else eqBands e !! j) /\
  length (eqBands e') = length (eqBands e) /\
  effectParams e' = effectParams e /\
  limiter e' = limiter e /\
  isPlaying e' = isPlaying e /\
  currentNoiseType e' = currentNoiseType e /\
  scriptNodeConnected e' = scriptNodeConnected e /\
  noiseStates e' = noiseStates e /\
  rng e' = rng e.
Proof.
  cbv zeta. split; [intros j; apply updateEQBand_lookup|].
  unfold updateEQBand, updateAutoGainCompensation.
  repeat case_match; cbn; rewrite ?length_insert; repeat split.
Qed.



End FrameFacts.

(** ** Amplitudes of the engine's generators *)

Section Hoare.
Context {S : Type}.

Lemma yields_ret {A} (I : S -> Prop) (a : A) (Q : A -> Prop) :
  Q a -> yields I (ret a) Q.
Proof. intros Ha s Hs. split; assumption. Qed.

Lemma yields_gets {A} (I : S -> Prop) (f : S -> A) (Q : A -> Prop) :
  (forall s, I s -> Q (f s)) -> yields I (gets f) Q.
Proof. intros Hf s Hs. split; [apply Hf, Hs | exact Hs]. Qed.

Lemma yields_weaken {A} (I : S -> Prop) (m : M S A) (P Q : A -> Prop) :
  yields I m P -> (forall a, P a -> Q a) -> yields I m Q.
Proof. intros Hm HPQ s Hs. destruct (Hm s Hs). auto. Qed.

Lemma yields_and {A} (I J : S -> Prop) (m : M S A) (Q : A -> Prop) :
  yields I m Q -> preserves J m -> yields (fun s => I s /\ J s) m Q.
Proof.
  intros Hm Hj s [Hi Hs]. destruct (Hm s Hi), (Hj s Hs). auto.
Qed.

End Hoare.

Module AmplitudeFacts.
Import Js Engine Spec Terms.

Lemma steady_random : yields steady Math_random (fun r => 0 <= r < 1).
Proof. intros e [Hf Hm]. split; [apply Hf | split; [exact Hf | exact Hm]]. Qed.

Lemma steady_memory (f : NoiseStates -> NoiseStates)
    (e : SoundDesignerEngine) :
  steady e -> steadyMemory (f (noiseStates e)) ->
  steady (withNoiseStates f e).
Proof. intros [Hf _] Hm. split; assumption. Qed.

Lemma white_amplitude :
  yields steady generateWhiteNoise (fun x => Rabs x <= 0.3).
Proof.
  unfold generateWhiteNoise.
  eapply yields_bind; [apply steady_random|]. intros r Hr.
  apply yields_ret. apply Rabs_le. lra.
Qed.

Lemma get_bound (B : R) (l : list R) (i : nat) :
  0 <= B -> Forall (fun x => Rabs x <= B) l -> Rabs (get l i) <= B.
Proof.
  intros HB Hl. unfold get. destruct (l !! i) as [x|] eqn:Hx; cbn.
  - exact (Forall_lookup_1 _ _ _ _ Hl Hx).
  - rewrite Rabs_R0. exact HB.
Qed.

Lemma pinkRow_amplitude (sum : R) (rate : Z) (index : nat) :
  yields steady (pinkRow sum rate index) (fun s => Rabs (s - sum) <= 1).
Proof.
  unfold pinkRow.
  eapply yields_bind; [apply preserves_gets|]. intros c _.
  eapply yields_bind with (P := fun _ => True).
  { destruct (c mod rate =? 0)%Z; [|apply preserves_ret].
    eapply yields_bind; [apply steady_random|]. intros r Hr.
    apply preserves_modify. intros e He. apply steady_memory; [exact He|].
    destruct He as (_ & Hb & Hr' & Hpl & Hcl & Hp & Hv & Hgl & Hg & Hgr).
    unfold steadyMemory. cbn. rewrite length_insert.
    repeat split; try assumption.
    apply Forall_insert; [exact Hp|]. apply Rabs_le. lra. }
  intros _ _.
  eapply yields_bind;
    [apply yields_gets with (Q := fun g => Rabs g <= 1)|].
  { intros e (_ & Hm). apply get_bound; [lra | apply Hm]. }
  intros g Hg.
  eapply yields_bind with (P := fun _ => True).
  { apply preserves_modify. intros e He. apply steady_memory; [exact He|].
    destruct He as (_ & Hb & Hr' & Hpl & Hcl & Hp & Hv & Hgl & Hg' & Hgr).
    unfold steadyMemory. cbn. rewrite length_insert.
    repeat split; assumption. }
  intros _ _. apply yields_ret.
  replace (sum + g - sum) with g by lra. exact Hg.
Qed.

Lemma pinkRows_amplitude (rates : list Z) (sum : R) (index : nat) :
  yields steady (pinkRows sum rates index)
    (fun s => Rabs (s - sum) <= INR (length rates)).
Proof.
  revert sum index. induction rates as [|rate rates IH]; intros sum index.
  - apply yields_ret. cbn. replace (sum - sum) with 0 by lra.
    rewrite Rabs_R0. lra.
  - cbn [pinkRows]. eapply yields_bind; [apply pinkRow_amplitude|].
    intros sum' Hsum'. eapply yields_weaken; [apply IH|].
    intros s Hs. rewrite length_cons, S_INR.
    apply Rabs_le_inv in Hsum', Hs. apply Rabs_le. lra.
Qed.

Lemma pink_amplitude :
  yields steady generatePinkNoise (fun x => Rabs x <= 0.35).
Proof.
  unfold generatePinkNoise.
  eapply yields_bind; [apply pinkRows_amplitude|]. intros sum Hsum.
  apply yields_ret.
  replace (INR (length updateRates)) with 7 in Hsum
    by (cbn [length updateRates]; rewrite INR_IZR_INZ; reflexivity).
  apply Rabs_le_inv in Hsum. apply Rabs_le. lra.
Qed.

Lemma brown_amplitude :
  yields steady generateBrownNoise (fun x => Rabs x <= 0.384).
Proof.
  unfold generateBrownNoise.
  eapply yields_bind; [apply steady_random|]. intros r Hr.
  eapply yields_bind with (P := fun _ => True).
  { apply preserves_modify. intros e He. apply steady_memory; [exact He|].
    destruct He as (_ & Hb & Hr' & Hpl & Hcl & Hp & Hv & Hgl & Hg & Hgr).
    unfold steadyMemory. cbn. repeat split; try assumption.
    apply IntegratorFacts.brownStep_bound; assumption. }
  intros _ _.
  eapply yields_bind;
    [apply yields_gets with (Q := fun s => Rabs s <= 0.96)|].
  { intros e (_ & Hm). apply Hm. }
  intros s Hs. apply yields_ret.
  apply Rabs_le_inv in Hs. apply Rabs_le. lra.
Qed.

Lemma red_amplitude :
  yields steady generateRedNoise (fun x => Rabs x <= 16).
Proof.
  unfold generateRedNoise.
  eapply yields_bind; [apply steady_random|]. intros r Hr.
  eapply yields_bind with (P := fun _ => True).
  { apply preserves_modify. intros e He. apply steady_memory; [exact He|].
    destruct He as (_ & Hb & Hr' & Hpl & Hcl & Hp & Hv & Hgl & Hg & Hgr).
    unfold steadyMemory. cbn. repeat split; try assumption.
    apply IntegratorFacts.redStep_bound; assumption. }
  intros _ _.
  eapply yields_bind;
    [apply yields_gets with (Q := fun s => Rabs s <= 20)|].
  { intros e (_ & Hm). apply Hm. }
  intros s Hs. apply yields_ret.
  apply Rabs_le_inv in Hs. apply Rabs_le. lra.
Qed.

Lemma blue_amplitude :
  yields steady generateBlueNoise (fun x => Rabs x <= 0.27).
Proof.
  unfold generateBlueNoise.
  eapply yields_bind; [apply white_amplitude|]. intros w Hw.
  eapply yields_bind; [apply steady_random|]. intros r Hr.
  apply yields_ret. apply Rabs_le_inv in Hw. apply Rabs_le. nra.
Qed.

Lemma violet_amplitude :
  yields steady generateVioletNoise (fun x => Rabs x <= 0.3).
Proof.
  unfold generateVioletNoise.
  eapply yields_bind; [apply white_amplitude|]. intros input Hin.
  eapply yields_bind;
    [apply yields_gets with (Q := fun s => Rabs s <= 0.3)|].
  { intros e (_ & Hm). apply Hm. }
  intros prev Hprev.
  eapply yields_bind with (P := fun _ => True).
  { apply preserves_modify. intros e He. apply steady_memory; [exact He|].
    destruct He as (_ & Hb & Hr' & Hpl & Hcl & Hp & Hv & Hgl & Hg & Hgr).
    unfold steadyMemory. cbn. repeat split; assumption. }
  intros _ _. apply yields_ret.
  apply Rabs_le_inv in Hin, Hprev. apply Rabs_le. lra.
Qed.

Lemma grayFold_bound (s0 s1 s2 s3 input : R) :
  Rabs s0 <= 0.3 -> Rabs s1 <= 0.3 -> Rabs s2 <= 0.3 -> Rabs s3 <= 0.3 ->
  Rabs input <= 0.3 ->
  let st := foldl grayStage ([s0; s1; s2; s3], input) (seq 0 3) in
  length st.1 = 4%nat /\ Forall (fun x => Rabs x <= 0.3) st.1 /\
  Rabs st.2 <= 0.3.
Proof.
  intros H0 H1 H2 H3 Hin. cbn.
  apply Rabs_le_inv in H0, H1, H2, H3, Hin.
  split; [reflexivity|].
  split; [repeat first [apply Forall_nil_2 | apply Forall_cons_2]|];
    apply Rabs_le; unfold get; cbn; lra.
Qed.

Lemma gray_amplitude :
  yields steady generateGrayNoise (fun x => Rabs x <= 0.18).
Proof.
  unfold generateGrayNoise.
  eapply yields_bind; [apply white_amplitude|]. intros input Hin.
  eapply yields_bind;
    [apply yields_gets
       with (Q := fun st => length st = 4%nat /\
                            Forall (fun x => Rabs x <= 0.3) st)|].
  { intros e (_ & Hm). split; apply Hm. }
  intros state [Hlen Hall].
  destruct state as [|s0 [|s1 [|s2 [|s3 [|]]]]]; try discriminate Hlen.
  apply Forall_cons in Hall as [H0 Hall].
  apply Forall_cons in Hall as [H1 Hall].
  apply Forall_cons in Hall as [H2 Hall].
  apply Forall_cons in Hall as [H3 _].
  pose proof (grayFold_bound s0 s1 s2 s3 input H0 H1 H2 H3 Hin) as Hfold.
  cbv zeta in Hfold.
  change (length [s0; s1; s2; s3] - 1)%nat with 3%nat.
  destruct (foldl grayStage ([s0; s1; s2; s3], input) (seq 0 3))
    as [state' output].
  destruct Hfold as (Hlen' & Hall' & Hout). cbn [fst snd] in *.
  eapply yields_bind with (P := fun _ => True).
  { apply preserves_modify. intros e He. apply steady_memory; [exact He|].
    destruct He as (_ & Hb & Hr' & Hpl & Hcl & Hp & Hv & Hgl & Hg & Hgr).
    unfold steadyMemory. cbn. repeat split; assumption. }
  intros _ _. apply yields_ret.
  apply Rabs_le_inv in Hout. apply Rabs_le. lra.
Qed.

Lemma greenFold_bound (f0 f1 f2 f3 f4 f5 input : R) :
  Forall2 (fun x b => Rabs x <= b) [f0; f1; f2; f3; f4; f5] greenBounds ->
  Rabs input <= 0.3 ->
  let st := foldl greenStage ([f0; f1; f2; f3; f4; f5], input)
              (evenIndices 6) in
  Forall2 (fun x b => Rabs x <= b) st.1 greenBounds /\
  Rabs st.2 <= 2.2244625.
Proof.
  intros Hf Hin.
  apply Forall2_cons in Hf as [H0 Hf].
  apply Forall2_cons in Hf as [H1 Hf].
  apply Forall2_cons in Hf as [H2 Hf].
  apply Forall2_cons in Hf as [H3 Hf].
  apply Forall2_cons in Hf as [H4 Hf].
  apply Forall2_cons in Hf as [H5 _].
  apply Rabs_le_inv in H0, H1, H2, H3, H4, H5, Hin.
  cbn. unfold get; cbn.
  split; [repeat first [apply Forall2_nil_2 | apply Forall2_cons_2]|];
    apply Rabs_le; lra.
Qed.

Lemma green_amplitude :
  yields steady generateGreenNoise (fun x => Rabs x <= 2.669355).
Proof.
  unfold generateGreenNoise.
  eapply yields_bind; [apply white_amplitude|]. intros input Hin.
  eapply yields_bind;
    [apply yields_gets
       with (Q := fun st => Forall2 (fun x b => Rabs x <= b) st greenBounds)|].
  { intros e (_ & Hm). apply Hm. }
  intros filterState Hall.
  assert (Hlen : length filterState = 6%nat)
    by (rewrite (Forall2_length _ _ _ Hall); reflexivity).
  destruct filterState as [|f0 [|f1 [|f2 [|f3 [|f4 [|f5 [|]]]]]]];
    try discriminate Hlen.
  pose proof (greenFold_bound f0 f1 f2 f3 f4 f5 input Hall Hin) as Hfold.
  cbv zeta in Hfold.
  change (length [f0; f1; f2; f3; f4; f5]) with 6%nat.
  destruct (foldl greenStage ([f0; f1; f2; f3; f4; f5], input)
              (evenIndices 6)) as [filterState' sample].
  destruct Hfold as (Hall' & Hout). cbn [fst snd] in *.
  eapply yields_bind with (P := fun _ => True).
  { apply preserves_modify. intros e He. apply steady_memory; [exact He|].
    destruct He as (_ & Hb & Hr' & Hpl & Hcl & Hp & Hv & Hgl & Hg & Hgr).
    unfold steadyMemory. cbn. repeat split; assumption. }
  intros _ _. apply yields_ret.
  apply Rabs_le_inv in Hout. apply Rabs_le. lra.
Qed.

Lemma noiseSample_amplitude (t : string) :
  yields steady (noiseSample t) (fun x => Rabs x <= amplitude t).
Proof.
  unfold noiseSample, amplitude.
  repeat case_decide; subst; try discriminate;
    auto using white_amplitude, pink_amplitude, brown_amplitude,
      blue_amplitude, violet_amplitude, gray_amplitude, red_amplitude,
      green_amplitude.
Qed.

Lemma steady_construct (g : Rng) : fair g -> steady (construct g).
Proof.
  intros Hg. split; [exact Hg|].
  unfold steadyMemory. cbn [construct noiseStates brown red pink_generators
    pink_counters violet_prev gray green].
  rewrite Rabs_R0.
  split; [lra|]. split; [lra|]. split; [reflexivity|].
  split; [reflexivity|].
  split.
  { apply Forall_fmap, Forall_forall. intros k _. cbn.
    specialize (Hg (cursor g + N.of_nat k)%N). apply Rabs_le. lra. }
  split; [lra|]. split; [reflexivity|].
  split.
  { cbn. repeat first [apply Forall_nil_2 | apply Forall_cons_2];
      rewrite Rabs_R0; lra. }
  cbn. unfold greenBounds.
  repeat first [apply Forall2_nil_2 | apply Forall2_cons_2];
    rewrite Rabs_R0; lra.
Qed.

Lemma steady_generateAudio (b : OutputBuffer) :
  preserves steady (generateAudio b).
Proof.
  unfold generateAudio.
  apply preserves_bind; [apply preserves_gets | intros playing].
  apply preserves_if; [apply preserves_ret|].
  generalize (seq 0 (bufferLength b)). intros indices. revert b.
  induction indices as [|i indices IH]; intros b.
  - apply preserves_ret.
  - cbn [renderFrames]. apply preserves_bind; [|intros b'; apply IH].
    unfold renderFrame.
    apply preserves_bind; [apply preserves_gets | intros t].
    apply preserves_bind;
      [exact (yields_preserves _ _ _ (noiseSample_amplitude t)) | intros x].
    apply preserves_bind;
      [exact (yields_preserves _ _ _ steady_random) | intros r].
    apply preserves_ret.
Qed.

Lemma steady_perform (a : Action) (e : SoundDesignerEngine) :
  steady e -> steady (perform a e).
Proof.
  intros He. destruct a as [b|t|playing|bandName gainDb|effectName value];
    cbn [perform].
  - apply preserves_state; [apply steady_generateAudio | exact He].
  - exact He.
  - exact He.
  - destruct (IntegratorFacts.updateEQBand_keeps_generators
                bandName gainDb e) as [Hn Hr].
    unfold steady. rewrite Hn, Hr. exact He.
  - destruct (IntegratorFacts.updateEffect_keeps_generators
                effectName value e) as [Hn Hr].
    unfold steady. rewrite Hn, Hr. exact He.
Qed.

Lemma steady_session (actions : list Action) (e : SoundDesignerEngine) :
  steady e -> steady (session actions e).
Proof.
  unfold session. revert e.
  induction actions as [|a actions IH]; intros e He; [exact He|].
  cbn [foldl]. apply IH, steady_perform, He.
Qed.

(** With draws in [0,1), whatever session the engine has been through
    since it was constructed, the next sample of each noise type is within
    the amplitude of that type: 0.3 for white (and for an unrecognised
    type), 0.35 for pink, 0.384 for brown, 0.27 for blue, 0.3 for violet,
    0.18 for gray, 16 for red and 2.669355 for green. *)
Theorem samples_stay_within_amplitude (g : Rng) (actions : list Action)
    (t : string) :
  fair g ->
  Rabs (noiseSample t (session actions (construct g))).1 <= amplitude t.
Proof.
  intros Hg.
  apply (noiseSample_amplitude t (session actions (construct g))).
  apply steady_session, steady_construct, Hg.
Qed.

Lemma samples_stay_within_amplitude_witness :
  Rabs (noiseSample "red"
          (session [SelectType "red"; SetPlaying true;
                    Render (mkBuffer [0; 0] [0; 0])]
             (construct (mkRng (fun _ => 0.75) 0)))).1
  <= amplitude "red".
Proof.
  apply (samples_stay_within_amplitude (mkRng (fun _ => 0.75) 0)
           [SelectType "red"; SetPlaying true;
            Render (mkBuffer [0; 0] [0; 0])] "red").
  intros n. cbn. lra.
Defined.

Lemma framed_renderFrame (t : string) (b : OutputBuffer) (i : nat) :
  yields (fun e => steady e /\ currentNoiseType e = t) (renderFrame b i)
    (fun out => exists l r,
       framed (amplitude t) l r /\
       out = mkBuffer (<[i := l]> (outputL b)) (<[i := r]> (outputR b))).
Proof.
  unfold renderFrame.
  eapply yields_bind;
    [apply yields_gets with (Q := fun t' => t' = t)|].
  { intros e [_ He]. exact He. }
  intros t' ->.
  eapply yields_bind.
  { apply yields_and; [apply noiseSample_amplitude|].
    apply FrameFacts.controls_noiseSample.
    - intros f e H. exact H.
    - intros c e H. exact H. }
  intros sample Hsample.
  eapply yields_bind.
  { apply yields_and; [apply steady_random|].
    intros e He. split; [exact I | exact He]. }
  intros r Hr. apply yields_ret.
  exists sample, (sample * 0.95 + (r * 0.1 - 0.05)).
  split; [|reflexivity]. split; [exact Hsample | lra].
Qed.

Lemma framed_renderFrames (t : string) (indices : list nat)
    (b : OutputBuffer) :
  yields (fun e => steady e /\ currentNoiseType e = t)
    (renderFrames b indices)
    (fun out =>
       length (outputL out) = length (outputL b) /\
       length (outputR out) = length (outputR b) /\
       forall j,
         (j ∈ indices -> (j < length (outputL b))%nat ->
          (j < length (outputR b))%nat ->
          exists l r, outputL out !! j = Some l /\ outputR out !! j = Some r /\
                      framed (amplitude t) l r) /\
         (j ∉ indices ->
          outputL out !! j = outputL b !! j /\
          outputR out !! j = outputR b !! j)).
Proof.
  revert b. induction indices as [|i indices IH]; intros b.
  - apply yields_ret. split; [reflexivity|]. split; [reflexivity|].
    intros j. split; [|auto]. intros Hj. inversion Hj.
  - cbn [renderFrames]. eapply yields_bind; [apply framed_renderFrame|].
    intros b' (l & r & Hlr & ->).
    eapply yields_weaken; [apply IH|].
    cbn [outputL outputR]. intros out (HL & HR & Hout).
    rewrite length_insert in HL, HR.
    split; [exact HL|]. split; [exact HR|].
    intros j. specialize (Hout j). rewrite !length_insert in Hout.
    destruct Hout as [Hin Hnotin]. split.
    + intros Hj HjL HjR.
      destruct (decide (j ∈ indices)) as [Hrest|Hrest]; [auto|].
      apply elem_of_cons in Hj as [->|Hj]; [|contradiction].
      destruct (Hnotin Hrest) as [-> ->].
      exists l, r. rewrite !list_lookup_insert_eq by assumption. auto.
    + intros Hj. apply not_elem_of_cons in Hj as [Hne Hrest].
      destruct (Hnotin Hrest) as [-> ->].
      rewrite !list_lookup_insert_ne by congruence. auto.
Qed.

(** A block rendered while the engine plays: both channels keep their
    length and every frame is written; the left cell is a sample of the
    active noise type, within the amplitude of that type, and the right
    cell is 0.95 times the left cell moved by at least -0.05 and less than
    0.05.  The memory of the generators stays steady. *)
Theorem playing_block_is_framed (e : SoundDesignerEngine)
    (b : OutputBuffer) :
  steady e -> isPlaying e = true ->
  length (outputR b) = length (outputL b) ->
  let out := (generateAudio b e).1 in
  steady (generateAudio b e).2 /\
  length (outputL out) = length (outputL b) /\
  length (outputR out) = length (outputR b) /\
  blockFramed (amplitude (currentNoiseType e)) (bufferLength b) out.
Proof.
  intros He Hplay Hlen out.
  split; [apply preserves_state; [apply steady_generateAudio | exact He]|].
  assert (Hout : out = (renderFrames b (seq 0 (bufferLength b)) e).1).
  { unfold out, generateAudio, bind, gets. rewrite Hplay. reflexivity. }
  destruct (framed_renderFrames (currentNoiseType e)
              (seq 0 (bufferLength b)) b e (conj He eq_refl))
    as [(HL & HR & Hframes) _].
  rewrite <- Hout in HL, HR, Hframes.
  split; [exact HL|]. split; [exact HR|].
  intros i Hi. apply (Hframes i).
  - apply elem_of_seq. unfold bufferLength in *. lia.
  - exact Hi.
  - rewrite Hlen. exact Hi.
Qed.

Lemma steady_playing :
  steady (withPlaying true freshEngine).
Proof. apply (steady_construct (mkRng (fun _ => 0.75) 0)). intros n. cbn. lra. Qed.

Lemma playing_block_is_framed_witness :
  blockFramed (amplitude "white") 2
    (generateAudio (mkBuffer [0; 0] [0; 0]) (withPlaying true freshEngine)).1.
Proof.
  exact (proj2 (proj2 (proj2
           (playing_block_is_framed (withPlaying true freshEngine)
              (mkBuffer [0; 0] [0; 0]) steady_playing eq_refl eq_refl)))).
Defined.

End AmplitudeFacts.

(** ** Amplitudes of [NoiseGenerator] *)

Module GeneratorFacts.
Import Js Spec Terms NoiseGen.

Lemma generator_random :
  yields generatorSteady Math_random (fun r => 0 <= r < 1).
Proof.
  intros s (Hf & Hm). split; [apply Hf | split; [exact Hf | exact Hm]].
Qed.

Lemma generator_white :
  yields generatorSteady (r <- Math_random ;; ret (r * 2 - 1))
    (fun x => Rabs x <= 1).
Proof.
  eapply yields_bind; [apply generator_random|]. intros r Hr.
  apply yields_ret. apply Rabs_le. lra.
Qed.

Lemma generator_pinkRow (sum : R) (rate : Z) (index : nat) :
  yields generatorSteady (pinkRow sum rate index)
    (fun s => Rabs (s - sum) <= 1).
Proof.
  unfold pinkRow.
  eapply yields_bind; [apply preserves_gets|]. intros c _.
  eapply yields_bind with (P := fun _ => True).
  { destruct (c mod rate =? 0)%Z; [|apply preserves_ret].
    eapply yields_bind; [apply generator_random|]. intros r Hr.
    apply preserves_modify. intros s (Hf & Hb & Hpl & Hcl & Hp & Hg).
    unfold generatorSteady. cbn. rewrite length_insert.
    split; [exact Hf|]. split; [exact Hb|]. split; [exact Hpl|].
    split; [exact Hcl|]. split; [|exact Hg].
    apply Forall_insert; [exact Hp|]. apply Rabs_le. lra. }
  intros _ _.
  eapply yields_bind;
    [apply yields_gets with (Q := fun g => Rabs g <= 1)|].
  { intros s (_ & _ & _ & _ & Hp & _).
    apply AmplitudeFacts.get_bound; [lra | exact Hp]. }
  intros g Hg.
  eapply yields_bind with (P := fun _ => True).
  { apply preserves_modify. intros s (Hf & Hb & Hpl & Hcl & Hp & Hgr).
    unfold generatorSteady. cbn. rewrite length_insert.
    split; [exact Hf|]. split; [exact Hb|]. split; [exact Hpl|].
    split; [exact Hcl|]. split; [exact Hp | exact Hgr]. }
  intros _ _. apply yields_ret.
  replace (sum + g - sum) with g by lra. exact Hg.
Qed.

Lemma generator_pinkRows (rates : list Z) (sum : R) (index : nat) :
  yields generatorSteady (pinkRows sum rates index)
    (fun s => Rabs (s - sum) <= INR (length rates)).
Proof.
  revert sum index. induction rates as [|rate rates IH]; intros sum index.
  - apply yields_ret. cbn. replace (sum - sum) with 0 by lra.
    rewrite Rabs_R0. lra.
  - cbn [pinkRows]. eapply yields_bind; [apply generator_pinkRow|].
    intros sum' Hsum'. eapply yields_weaken; [apply IH|].
    intros s Hs. rewrite length_cons, S_INR.
    apply Rabs_le_inv in Hsum', Hs. apply Rabs_le. lra.
Qed.

Lemma generator_pink :
  yields generatorSteady generatePinkNoiseSample (fun x => Rabs x <= 1.05).
Proof.
  unfold generatePinkNoiseSample.
  eapply yields_bind; [apply generator_pinkRows|]. intros sum Hsum.
  apply yields_ret.
  replace (INR (length updateRates)) with 7 in Hsum
    by (cbn [length updateRates]; rewrite INR_IZR_INZ; reflexivity).
  apply Rabs_le_inv in Hsum. apply Rabs_le. lra.
Qed.

Lemma generator_brown :
  yields generatorSteady generateBrownNoiseSample
    (fun x => Rabs x <= 0.96).
Proof.
  unfold generateBrownNoiseSample.
  eapply yields_bind; [apply generator_random|]. intros r Hr.
  eapply yields_bind with (P := fun _ => True).
  { apply preserves_modify. intros s (Hf & Hb & Hpl & Hcl & Hp & Hg).
    unfold generatorSteady. cbn.
    split; [exact Hf|]. split; [|auto].
    apply IntegratorFacts.generator_brownStep_bound; assumption. }
  intros _ _. apply yields_gets. intros s (_ & Hb & _). exact Hb.
Qed.

Lemma generator_green :
  yields generatorSteady generateGreenNoiseSample
    (fun x => Rabs x <= 14 / 15).
Proof.
  unfold generateGreenNoiseSample.
  eapply yields_bind; [apply generator_random|]. intros r Hr.
  cbv beta in Hr.
  eapply yields_bind;
    [apply yields_gets
       with (Q := fun buffer => length buffer = 2%nat /\
                                Forall (fun x => Rabs x <= 4 / 3) buffer)|].
  { intros s (_ & _ & _ & _ & _ & Hg).
    destruct (greenNoiseBuffer s) as [buffer|]; cbn; [apply Hg; reflexivity|].
    split; [reflexivity|].
    repeat first [apply Forall_nil_2 | apply Forall_cons_2];
      rewrite Rabs_R0; lra. }
  intros buffer [Hlen Hall].
  destruct buffer as [|b0 [|b1 [|]]]; try discriminate Hlen.
  apply Forall_cons in Hall as [H0 Hall].
  apply Forall_cons in Hall as [H1 _].
  apply Rabs_le_inv in H0, H1.
  change (get [b0; b1] 0) with b0. change (get [b0; b1] 1) with b1.
  eapply yields_bind with (P := fun _ => True).
  { apply preserves_modify. intros s (Hf & Hb & Hpl & Hcl & Hp & Hg).
    unfold generatorSteady. cbn.
    split; [exact Hf|]. split; [exact Hb|]. split; [exact Hpl|].
    split; [exact Hcl|]. split; [exact Hp|].
    intros buffer [= <-]. split; [reflexivity|].
    repeat first [apply Forall_nil_2 | apply Forall_cons_2];
      apply Rabs_le; lra. }
  intros _ _. apply yields_ret. apply Rabs_le. lra.
Qed.

Lemma generator_blue :
  yields generatorSteady generateBlueNoiseSample
    (fun x => Rabs x <= 0.68).
Proof.
  unfold generateBlueNoiseSample.
  eapply yields_bind; [apply generator_random|]. intros r Hr.
  eapply yields_bind; [apply preserves_gets|]. intros prev _.
  eapply yields_bind with (P := fun _ => True).
  { apply preserves_modify. intros s (Hf & Hb & Hpl & Hcl & Hp & Hg).
    exact (conj Hf (conj Hb (conj Hpl (conj Hcl (conj Hp Hg))))). }
  intros _ _. apply yields_ret. apply Rabs_le. lra.
Qed.

Lemma generator_noiseSample (t : string) :
  yields generatorSteady (noiseSample t)
    (fun x => Rabs x <= generatorAmplitude t).
Proof.
  unfold noiseSample, generatorAmplitude.
  repeat case_decide; subst; try discriminate;
    auto using generator_white, generator_pink, generator_brown,
      generator_green, generator_blue.
Qed.

(** Nothing in the render path of [NoiseGenerator] changes the noise
    type. *)
Ltac keep_type :=
  repeat first
    [ apply preserves_ret
    | apply preserves_gets
    | apply preserves_if
    | apply preserves_modify; let H := fresh in intros ? H; exact H
    | apply preserves_bind; [|intros ?]
    | match goal with
      | |- preserves _ Math_random =>
          let H := fresh in intros ? H; split; [exact I | exact H]
      end ].

Lemma type_pinkRows (t : string) (rates : list Z) (sum : R) (index : nat) :
  preserves (fun s => currentNoiseType s = t) (pinkRows sum rates index).
Proof.
  revert sum index. induction rates as [|rate rates IH]; intros sum index.
  - apply preserves_ret.
  - cbn [pinkRows]. apply preserves_bind; [|intros sum'; apply IH].
    unfold pinkRow. keep_type.
Qed.

Lemma type_noiseSample (t t' : string) :
  preserves (fun s => currentNoiseType s = t) (noiseSample t').
Proof.
  assert (Hpink : preserves (fun s => currentNoiseType s = t)
                    generatePinkNoiseSample).
  { unfold generatePinkNoiseSample.
    apply preserves_bind; [apply type_pinkRows | intros; keep_type]. }
  unfold noiseSample. repeat case_decide; try exact Hpink.
  - keep_type.
  - unfold generateBrownNoiseSample. keep_type.
  - unfold generateGreenNoiseSample. keep_type.
  - unfold generateBlueNoiseSample. keep_type.
Qed.

Lemma generator_renderFrame (t : string) (b : Engine.OutputBuffer)
    (i : nat) :
  yields (fun s => generatorSteady s /\ currentNoiseType s = t)
    (renderFrame b i)
    (fun out => exists l r,
       framed (generatorAmplitude t) l r /\
       out = Engine.mkBuffer (<[i := l]> (Engine.outputL b))
               (<[i := r]> (Engine.outputR b))).
Proof.
  unfold renderFrame.
  eapply yields_bind;
    [apply yields_gets with (Q := fun t' => t' = t)|].
  { intros s [_ Hs]. exact Hs. }
  intros t' ->.
  eapply yields_bind.
  { apply yields_and; [apply generator_noiseSample|].
    apply type_noiseSample. }
  intros sample Hsample.
  eapply yields_bind.
  { apply yields_and; [apply generator_random|].
    intros s Hs. split; [exact I | exact Hs]. }
  intros r Hr. apply yields_ret.
  exists sample, (sample * 0.95 + (r * 0.1 - 0.05)).
  split; [|reflexivity]. split; [exact Hsample | cbv beta in Hr; lra].
Qed.

Lemma generator_renderFrames (t : string) (indices : list nat)
    (b : Engine.OutputBuffer) :
  yields (fun s => generatorSteady s /\ currentNoiseType s = t)
    (renderFrames b indices)
    (fun out =>
       length (Engine.outputL out) = length (Engine.outputL b) /\
       length (Engine.outputR out) = length (Engine.outputR b) /\
       forall j,
         (j ∈ indices -> (j < length (Engine.outputL b))%nat ->
          (j < length (Engine.outputR b))%nat ->
          exists l r, Engine.outputL out !! j = Some l /\
                      Engine.outputR out !! j = Some r /\
                      framed (generatorAmplitude t) l r) /\
         (j ∉ indices ->
          Engine.outputL out !! j = Engine.outputL b !! j /\
          Engine.outputR out !! j = Engine.outputR b !! j)).
Proof.
  revert b. induction indices as [|i indices IH]; intros b.
  - apply yields_ret. split; [reflexivity|]. split; [reflexivity|].
    intros j. split; [|auto]. intros Hj. inversion Hj.
  - cbn [renderFrames]. eapply yields_bind; [apply generator_renderFrame|].
    intros b' (l & r & Hlr & ->).
    eapply yields_weaken; [apply IH|].
    cbn [Engine.outputL Engine.outputR]. intros out (HL & HR & Hout).
    rewrite length_insert in HL, HR.
    split; [exact HL|]. split; [exact HR|].
    intros j. specialize (Hout j). rewrite !length_insert in Hout.
    destruct Hout as [Hin Hnotin]. split.
    + intros Hj HjL HjR.
      destruct (decide (j ∈ indices)) as [Hrest|Hrest]; [auto|].
      apply elem_of_cons in Hj as [->|Hj]; [|contradiction].
      destruct (Hnotin Hrest) as [-> ->].
      exists l, r. rewrite !list_lookup_insert_eq by assumption. auto.
    + intros Hj. apply not_elem_of_cons in Hj as [Hne Hrest].
      destruct (Hnotin Hrest) as [-> ->].
      rewrite !list_lookup_insert_ne by congruence. auto.
Qed.

Lemma generatorSteady_construct (g : Rng) :
  fair g -> generatorSteady (Player.generator (Player.construct g)).
Proof.
  intros Hg. unfold generatorSteady. cbn.
  rewrite Rabs_R0.
  split; [exact Hg|]. split; [lra|]. split; [reflexivity|].
  split; [reflexivity|]. split; [|intros buffer [=]].
  repeat first [apply Forall_nil_2 | apply Forall_cons_2];
    apply Rabs_le;
    match goal with
    | |- context [stream g ?n] => specialize (Hg n); lra
    end.
Qed.

(** A block rendered by [NoiseGenerator], with draws in [0,1) and its
    memory steady: both channels keep their length and every frame is
    written; the left cell is a sample of the active type, of magnitude at
    most 1 for white, 0.96 for brown, 14/15 for green, 0.68 for blue and
    1.05 for pink and for an unrecognised type, and the right cell is 0.95
    times the left cell moved by at least -0.05 and less than 0.05.  The
    memory stays steady. *)
Theorem generator_block_is_framed (s : NoiseGenerator)
    (b : Engine.OutputBuffer) :
  generatorSteady s ->
  length (Engine.outputR b) = length (Engine.outputL b) ->
  let out := (generateContinuousNoise b s).1 in
  generatorSteady (generateContinuousNoise b s).2 /\
  length (Engine.outputL out) = length (Engine.outputL b) /\
  length (Engine.outputR out) = length (Engine.outputR b) /\
  blockFramed (generatorAmplitude (currentNoiseType s))
    (Engine.bufferLength b) out.
Proof.
  intros Hs Hlen out.
  destruct (generator_renderFrames (currentNoiseType s)
              (seq 0 (Engine.bufferLength b)) b s (conj Hs eq_refl))
    as [(HL & HR & Hframes) [Hsteady _]].
  split; [exact Hsteady|].
  split; [exact HL|]. split; [exact HR|].
  intros i Hi. apply (Hframes i).
  - apply elem_of_seq. unfold Engine.bufferLength in *. lia.
  - exact Hi.
  - rewrite Hlen. exact Hi.
Qed.

Lemma generatorSteady_fresh :
  generatorSteady
    (Player.generator (Player.construct (mkRng (fun _ => 0.75) 0))).
Proof. apply generatorSteady_construct. intros n. cbn. lra. Qed.

Lemma generator_block_is_framed_witness :
  blockFramed (generatorAmplitude "pink") 2
    (generateContinuousNoise (Engine.mkBuffer [0; 0] [0; 0])
       (Player.generator (Player.construct (mkRng (fun _ => 0.75) 0)))).1.
Proof.
  exact (proj2 (proj2 (proj2
           (generator_block_is_framed
              (Player.generator (Player.construct (mkRng (fun _ => 0.75) 0)))
              (Engine.mkBuffer [0; 0] [0; 0])
              generatorSteady_fresh eq_refl)))).
Defined.

(** The pink sample of [NoiseGenerator] is seven rows times 0.15, so it
    can exceed 1: with every draw at 0.999 the first pink sample of a
    constructed generator is 1.0479. *)
Lemma generator_pink_exceeds_one :
  let s := Player.generator (Player.construct (mkRng (fun _ => 0.999) 0)) in
  fair (rng s) /\ (generatePinkNoiseSample s).1 = 1.0479.
Proof.
  cbv zeta. split; [intros n; cbn; lra|].
  cbv -[Rplus Rmult Rminus Rdiv Ropp Rinv IZR]. lra.
Qed.

End GeneratorFacts.

(** ** The schedule of the pink rows *)

Module PinkFacts.
Import Js Engine Spec Terms.

(** The pink generator follows the Voss-McCartney schedule.  When the
    seven counters stand at [n], the sample numbered [n] draws afresh
    exactly the rows whose rate (1, 2, 4, ..., 64) divides [n], each from
    the next draw of the random source, keeps the other rows, moves every
    counter to [n + 1], and returns 0.05 times the sum of the seven rows
    as they then are. *)
Theorem pink_rows_follow_schedule (e : SoundDesignerEngine) (n : Z) :
  pink_counters (noiseStates e) = replicate 7 n ->
  length (pink_generators (noiseStates e)) = 7%nat ->
  let e' := (generatePinkNoise e).2 in
  let rows := pink_generators (noiseStates e) in
  let rows' := pink_generators (noiseStates e') in
  pink_counters (noiseStates e') = replicate 7 (n + 1)%Z /\
  length rows' = 7%nat /\
  (forall k rate, updateRates !! k = Some rate -> (n mod rate)%Z <> 0%Z ->
     rows' !! k = rows !! k) /\
  (forall k rate, updateRates !! k = Some rate -> (n mod rate)%Z = 0%Z ->
     exists d, (cursor (rng e) <= d < cursor (rng e'))%N /\
               rows' !! k = Some (stream (rng e) d * 2 - 1)) /\
  cursor (rng e') = (cursor (rng e) + redrawn n updateRates)%N /\
  stream (rng e') = stream (rng e) /\
  (generatePinkNoise e).1 = foldr Rplus 0 rows' * 0.05.
Proof.
  destruct e as [pl ty sc mg eq rv dr sp wf sa co mo li
                   [br pg pc vs vp gr rd gn] [str cur]].
  cbn [noiseStates pink_counters pink_generators rng cursor stream].
  intros -> Hlen.
  destruct pg as [|g0 [|g1 [|g2 [|g3 [|g4 [|g5 [|g6 [|]]]]]]]];
    try discriminate Hlen.
  clear Hlen.
  cbv -[Rplus Rmult Rminus Rdiv Ropp Rinv IZR Z.modulo Z.eqb Z.add N.succ
        N.add N.le N.lt].
  destruct (n mod 1 =? 0)%Z eqn:E0, (n mod 2 =? 0)%Z eqn:E1,
           (n mod 4 =? 0)%Z eqn:E2, (n mod 8 =? 0)%Z eqn:E3,
           (n mod 16 =? 0)%Z eqn:E4, (n mod 32 =? 0)%Z eqn:E5,
           (n mod 64 =? 0)%Z eqn:E6.
  all: split; [reflexivity|]; split; [reflexivity|].
  all: split;
    [intros k rate Hk Hmod;
     do 7 (destruct k as [|k];
           [injection Hk as <-;
            first [reflexivity
                  | exfalso; apply Hmod, Z.eqb_eq; assumption]|]);
     discriminate Hk|].
  all: split;
    [intros k rate Hk Hmod; apply Z.eqb_eq in Hmod;
     do 7 (destruct k as [|k];
           [injection Hk as <-;
            first [congruence
                  | eexists; split; [|reflexivity]; lia]|]);
     discriminate Hk|].
  all: split; [lia|]; split; [reflexivity | lra].
Qed.

Lemma pink_rows_follow_schedule_witness :
  pink_counters (noiseStates (generatePinkNoise freshEngine).2)
  = replicate 7 (0 + 1)%Z.
Proof.
  exact (proj1 (pink_rows_follow_schedule freshEngine 0 eq_refl eq_refl)).
Defined.

End PinkFacts.

(** ** The effects chain *)

Module ChainFacts.
Import Js Terms Chain.

Lemma clamp_range (lo hi v : R) :
  lo <= hi -> lo <= Math_max lo (Math_min hi v) <= hi.
Proof.
  intros Hle. unfold Math_max, Math_min, Rmax, Rmin.
  destruct (Rle_dec hi v); destruct (Rle_dec lo _); lra.
Qed.

Lemma clamp_inside (lo hi v : R) :
  lo <= v <= hi -> Math_max lo (Math_min hi v) = v.
Proof.
  intros Hv. unfold Math_max, Math_min, Rmax, Rmin.
  destruct (Rle_dec hi v); destruct (Rle_dec lo _); lra.
Qed.

Lemma sqrt_unit (x : R) : 0 <= x <= 1 -> 0 <= sqrt x <= 1.
Proof.
  intros [H0 H1]. split; [apply sqrt_pos|].
  rewrite <- sqrt_1. apply sqrt_le_1_alt. exact H1.
Qed.

Lemma consistent_setReverbLevel (level : R) (c : AudioChain) :
  chainConsistent c -> chainConsistent (setReverbLevel level c).
Proof.
  intros (Hr & Hf & Hg & Hlp & Hls & Hd & Hw & Hp & Hq).
  pose proof (clamp_range 0 1 level ltac:(lra)) as Hc.
  unfold chainConsistent, setReverbLevel, Effects.setReverbLevel.
  cbn [filterFrequency lowShelfGain lowPassFilter lowShelfFilter
       spatialPanner mix].
  set (l := Math_max 0 (Math_min 1 level)) in *.
  destruct (Effects.dryGain (mix c)) as [d|] eqn:Ed;
    destruct (Effects.reverbGain (mix c)) as [w|] eqn:Ew; cbn.
  - split; [exact Hc|]. split; [exact Hf|]. split; [exact Hg|].
    split; [exact Hlp|]. split; [exact Hls|].
    split; [intros ? [= <-]; apply sqrt_unit; lra|].
    split; [intros ? [= <-]; apply sqrt_unit; lra|].
    split; assumption.
  - split; [exact Hc|]. split; [exact Hf|]. split; [exact Hg|].
    split; [exact Hlp|]. split; [exact Hls|].
    split; [intros ? [= <-]; apply Hd; reflexivity|].
    split; [intros ? [=]|]. split; assumption.
  - split; [exact Hc|]. split; [exact Hf|]. split; [exact Hg|].
    split; [exact Hlp|]. split; [exact Hls|].
    split; [intros ? [=]|].
    split; [intros ? [= <-]; apply Hw; reflexivity|]. split; assumption.
  - split; [exact Hc|]. split; [exact Hf|]. split; [exact Hg|].
    split; [exact Hlp|]. split; [exact Hls|].
    split; [intros ? [=]|]. split; [intros ? [=]|]. split; assumption.
Qed.

Lemma consistent_setFilterFrequency (frequency : R) (c : AudioChain) :
  chainConsistent c -> chainConsistent (setFilterFrequency frequency c).
Proof.
  intros (Hr & Hf & Hg & Hlp & Hls & Hd & Hw & Hp & Hq).
  pose proof (clamp_range 200 20000 frequency ltac:(lra)) as Hc.
  unfold chainConsistent, setFilterFrequency.
  cbn [filterFrequency lowShelfGain lowPassFilter lowShelfFilter
       spatialPanner mix].
  split; [exact Hr|]. split; [exact Hc|]. split; [exact Hg|].
  split; [destruct (lowPassFilter c); intros ? [=]; congruence|].
  split; [exact Hls|]. split; [exact Hd|]. split; [exact Hw|].
  split; assumption.
Qed.

Lemma consistent_setLowEndGain (gainDb : R) (c : AudioChain) :
  chainConsistent c -> chainConsistent (setLowEndGain gainDb c).
Proof.
  intros (Hr & Hf & Hg & Hlp & Hls & Hd & Hw & Hp & Hq).
  pose proof (clamp_range (-12) 12 gainDb ltac:(lra)) as Hc.
  unfold chainConsistent, setLowEndGain.
  cbn [filterFrequency lowShelfGain lowPassFilter lowShelfFilter
       spatialPanner mix].
  split; [exact Hr|]. split; [exact Hf|]. split; [exact Hc|].
  split; [exact Hlp|].
  split; [destruct (lowShelfFilter c); intros ? [=]; congruence|].
  split; [exact Hd|]. split; [exact Hw|]. split; assumption.
Qed.

Lemma consistent_setSpatialPosition (position : R) (c : AudioChain) :
  chainConsistent c -> chainConsistent (setSpatialPosition position c).
Proof.
  intros (Hr & Hf & Hg & Hlp & Hls & Hd & Hw & Hp & Hq).
  pose proof (clamp_range (-1) 1 position ltac:(lra)) as Hc.
  unfold chainConsistent, setSpatialPosition.
  cbn [filterFrequency lowShelfGain lowPassFilter lowShelfFilter
       spatialPanner mix].
  split; [exact Hr|]. split; [exact Hf|]. split; [exact Hg|].
  split; [exact Hlp|]. split; [exact Hls|]. split; [exact Hd|].
  split; [exact Hw|].
  destruct (spatialPanner c) as [[pan|x y z]|]; split;
    try (intros ? [=]; subst; assumption);
    try (intros ? ? ? [=]; subst; auto).
Qed.

Lemma presets_known (presetName : string) (preset : R * R * R) :
  presets !! presetName = Some preset ->
  preset ∈ [(0.6, 800, 4); (0.4, 1200, 2); (0.8, 500, 6); (0.7, 400, 1)].
Proof.
  unfold presets. intros H.
  repeat (apply lookup_insert_Some in H as [[_ <-]|[_ H]];
          [set_solver|]).
  rewrite lookup_empty in H. discriminate H.
Qed.

Lemma consistent_set (s : Setting) (c : AudioChain) :
  chainConsistent c -> chainConsistent (set s c).
Proof.
  intros Hc. destruct s as [level|frequency|gainDb|position|presetName];
    cbn [set].
  - apply consistent_setReverbLevel, Hc.
  - apply consistent_setFilterFrequency, Hc.
  - apply consistent_setLowEndGain, Hc.
  - apply consistent_setSpatialPosition, Hc.
  - unfold applyPreset.
    destruct (presets !! presetName) as [[[r f] g]|]; [|exact Hc].
    apply consistent_setLowEndGain, consistent_setFilterFrequency,
      consistent_setReverbLevel, Hc.
Qed.

Lemma consistent_settings (settings : list Setting) (c : AudioChain) :
  chainConsistent c ->
  chainConsistent (foldl (fun c s => set s c) c settings).
Proof.
  revert c. induction settings as [|s settings IH]; intros c Hc; [exact Hc|].
  cbn [foldl]. apply IH, consistent_set, Hc.
Qed.

Lemma consistent_createEffectsChain (stereo : bool) (c : AudioChain) :
  chainConsistent c -> chainConsistent (createEffectsChain stereo c).
Proof.
  intros (Hr & Hf & Hg & Hlp & Hls & Hd & Hw & Hp & Hq).
  unfold chainConsistent, createEffectsChain.
  cbn [filterFrequency lowShelfGain lowPassFilter lowShelfFilter
       spatialPanner mix Effects.reverbLevel Effects.dryGain
       Effects.reverbGain].
  split; [exact Hr|]. split; [exact Hf|]. split; [exact Hg|].
  split; [intros ? [= <-]; reflexivity|].
  split; [intros ? [= <-]; reflexivity|].
  split; [intros ? [= <-]; lra|].
  split; [intros ? [= <-]; lra|].
  destruct stereo; split;
    try (intros ? [= <-]; lra); try (intros ? ? ? [=]; fail).
  intros x y z [= <- <- <-]. lra.
Qed.

Lemma consistent_construct : chainConsistent construct.
Proof.
  unfold chainConsistent, construct. cbn.
  split; [lra|]. split; [lra|]. split; [lra|].
  split; [intros ? [=]|]. split; [intros ? [=]|].
  split; [intros ? [=]|]. split; [intros ? [=]|].
  split; [intros ? [=] | intros ? ? ? [=]].
Qed.

(** Whatever settings are made before and after the chain is built, the
    setters, presets included, keep the chain consistent: the reverb level
    stays within [0, 1], the filter frequency within [200, 20000] and the
    low shelf gain within [-12, 12]; each filter that exists holds the
    stored value; both gains of the reverb mix are within [0, 1]; and the
    panner is within [-1, 1]. *)
Theorem chain_stays_consistent (before : list Setting) (stereo : bool)
    (after : list Setting) :
  Forall ownPreset before -> Forall ownPreset after ->
  chainConsistent (foldl (fun c s => set s c) construct before) /\
  chainConsistent (chainSession before stereo after).
Proof.
  intros _ _.
  assert (H : chainConsistent (foldl (fun c s => set s c) construct before))
    by apply consistent_settings, consistent_construct.
  split; [exact H|].
  apply consistent_settings, consistent_createEffectsChain, H.
Qed.

Lemma chain_stays_consistent_witness :
  chainConsistent
    (chainSession [ReverbLevel 2; Preset "cave"] true
       [FilterFrequency 50; Preset "meadow"; SpatialPosition (-3)]).
Proof.
  refine (proj2 (chain_stays_consistent [ReverbLevel 2; Preset "cave"] true
                   [FilterFrequency 50; Preset "meadow"; SpatialPosition (-3)]
                   _ _)).
  - repeat first [apply Forall_nil_2 | apply Forall_cons_2]; cbn;
      first [exact I | apply (bool_decide_unpack _); vm_compute; exact I].
  - repeat first [apply Forall_nil_2 | apply Forall_cons_2]; cbn;
      first [exact I | apply (bool_decide_unpack _); vm_compute; exact I].
Defined.

(** [applyPreset] stores the values of the table as they are, none being
    changed by the clamps of the setters, and leaves the panner alone; a
    name that is neither in the table nor inherited changes nothing. *)
Theorem applyPreset_stores_table (presetName : string) (c : AudioChain) :
  presetName ∉ inherited ->
  match presets !! presetName with
  | Some (reverbLevel, frequency, gainDb) =>
      let s := getSettings (applyPreset presetName c) in
      s_reverbLevel s = reverbLevel /\
      s_filterFrequency s = frequency /\
      s_lowShelfGain s = gainDb /\
      s_spatialPosition s = s_spatialPosition (getSettings c) /\
      lowPassFilter (applyPreset presetName c)
      = (fun _ => frequency) <$> lowPassFilter c /\
      lowShelfFilter (applyPreset presetName c)
      = (fun _ => gainDb) <$> lowShelfFilter c
  | None => applyPreset presetName c = c
  end.
Proof.
  intros _. unfold applyPreset.
  destruct (presets !! presetName) as [[[r f] g]|] eqn:Hp; [|reflexivity].
  apply presets_known in Hp.
  assert (Hr : 0 <= r <= 1 /\ 200 <= f <= 20000 /\ -12 <= g <= 12).
  { repeat (apply elem_of_cons in Hp as [[= -> -> ->]|Hp]; [lra|]).
    inversion Hp. }
  destruct Hr as (Hr & Hf & Hg).
  cbv zeta.
  unfold getSettings, setLowEndGain, setFilterFrequency, setReverbLevel,
    Effects.setReverbLevel.
  cbn [filterFrequency lowShelfGain lowPassFilter lowShelfFilter
       spatialPanner mix s_reverbLevel s_filterFrequency s_lowShelfGain
       s_spatialPosition].
  rewrite (clamp_inside (-12) 12 g Hg), (clamp_inside 200 20000 f Hf).
  split.
  { destruct (Effects.dryGain (mix c)), (Effects.reverbGain (mix c)); cbn;
      apply clamp_inside; exact Hr. }
  split; [reflexivity|]. split; [reflexivity|]. split; [reflexivity|].
  split; [destruct (lowPassFilter c); reflexivity|].
  destruct (lowShelfFilter c); reflexivity.
Qed.

Lemma applyPreset_stores_table_witness :
  s_filterFrequency (getSettings (applyPreset "cave" construct)) = 500.
Proof.
  refine (proj1 (proj2 (_ : _ /\ _ /\ _))).
  refine (applyPreset_stores_table "cave" construct _).
  apply (bool_decide_unpack _). vm_compute. exact I.
Defined.

End ChainFacts.

(** ** The player side of [NoiseGenerator] *)

Module PlayerFacts.
Import Js Terms Player.

(** [getState] reports the volume that [setVolume] was given, without its
    sign, once the gain node exists; before [init] and after [dispose] it
    reports 0 whatever volume is set. *)
Theorem volume_round_trip (volume : R) (p : NoisePlayer) :
  s_volume (getState (setVolume volume p))
  = match gainNode p with Some _ => Rabs volume | None => 0 end /\
  (0 <= volume -> is_Some (gainNode p) ->
   s_volume (getState (setVolume volume p)) = volume).
Proof.
  assert (H : s_volume (getState (setVolume volume p))
              = match gainNode p with Some _ => Rabs volume | None => 0 end).
  { unfold getState, setVolume.
    destruct (gainNode p) as [gain|] eqn:Hg; cbn; [|rewrite Hg; reflexivity].
    unfold Math_sqrt. apply sqrt_Rsqr_abs. }
  split; [exact H|].
  intros Hv [gain Hg]. rewrite H, Hg. apply Rabs_pos_eq, Hv.
Qed.

Lemma volume_round_trip_witness :
  s_volume (getState (setVolume 0.8
                        (init true (construct (mkRng (fun _ => 0.75) 0))).2))
  = 0.8.
Proof.
  apply (proj2 (volume_round_trip 0.8
                  (init true (construct (mkRng (fun _ => 0.75) 0))).2)).
  - lra.
  - cbn. eauto.
Defined.

(** A player on which [init] has been called cannot be started once it is
    disposed, or once the creation of its audio context has failed: [init]
    hands back the promise of its first call, so [start] either rejects
    with it or reaches the script node with no audio context.  The player
    is left without context, not playing, and the next [start] fails in
    the same way. *)
Theorem start_after_dispose_fails (available : bool) (noiseType : string)
    (p : NoisePlayer) :
  is_Some (initPromise p) ->
  let p' := (start available noiseType (dispose p)).2 in
  (start available noiseType (dispose p)).1 = false /\
  isPlaying p' = false /\
  audioContext p' = None /\
  gainNode p' = None /\
  initPromise p' = initPromise p /\
  forall available' noiseType',
    (start available' noiseType' p').1 = false.
Proof.
  intros [fulfilled Hp]. unfold start, dispose, stop, init.
  destruct (isPlaying p) eqn:Hplay; cbn; rewrite Hp; cbn;
    destruct fulfilled; cbn; rewrite ?Hplay, ?Hp; cbn;
    repeat split; intros; rewrite ?Hplay, ?Hp; reflexivity.
Qed.

Lemma start_after_dispose_fails_witness :
  (start true "brown"
     (dispose (start true "pink"
                 (construct (mkRng (fun _ => 0.75) 0))).2)).1 = false.
Proof.
  apply (start_after_dispose_fails true "brown"
           (start true "pink" (construct (mkRng (fun _ => 0.75) 0))).2).
  cbn. eauto.
Defined.

End PlayerFacts.

(** ** The auto-off timer *)

Module TimerFacts.
Import Terms Timer.

Ltac sound Hoff Hon :=
  cbn; try specialize (Hon eq_refl); try specialize (Hoff eq_refl);
  split; intros; try discriminate; try lia; auto.

Lemma sound_apply (o : Op) (t : TimerManager) :
  addsTime o -> timerSound t -> timerSound (apply o t).
Proof.
  destruct t as [interval remaining total active tick_ complete_ cancel_ cs].
  unfold timerSound. cbn [isActive remainingTime totalTime timerInterval].
  intros Ho [Hoff Hon].
  destruct o as [minutes| | | | |minutes]; cbn [apply addsTime] in *.
  - unfold start, cancel, stopInterval, reset, call. cbn.
    destruct active; cbn; destruct (Z.leb_spec minutes 0);
      destruct cancel_, tick_; sound Hoff Hon.
  - unfold second, tick, complete, stopInterval, reset, call. cbn.
    destruct interval; [|sound Hoff Hon].
    destruct active; [|sound Hoff Hon].
    destruct tick_; cbn; destruct (Z.leb_spec (remaining - 1) 0);
      destruct complete_; sound Hoff Hon.
  - unfold pause. cbn. destruct active, interval; sound Hoff Hon.
  - unfold resume. cbn.
    destruct active, interval; cbn; try destruct (Z.ltb_spec 0 remaining);
      sound Hoff Hon.
  - unfold cancel, stopInterval, reset, call. cbn.
    destruct active, cancel_; sound Hoff Hon.
  - unfold addTime, call. cbn.
    destruct active, tick_; sound Hoff Hon.
Qed.

(** Whatever the control surface and the clock do, as long as no time is
    taken away with [addTime]: a timer that is not active has no interval
    running and both its times at 0, and a timer that is active has a
    remaining time above 0 and at most its total time. *)
Theorem timer_stays_sound (ops : list Op) (t : TimerManager) :
  timerSound t -> Forall addsTime ops -> timerSound (run ops t).
Proof.
  intros Ht Hops. unfold run. revert t Ht.
  induction Hops as [|o ops Ho _ IH]; intros t Ht; [exact Ht|].
  cbn [foldl]. apply IH, sound_apply; assumption.
Qed.

Lemma timer_stays_sound_witness :
  timerSound
    (run [Start 1; Second; Pause; Second; AddTime 2; Resume; Second; Cancel]
       (setCallbacks construct)).
Proof.
  apply (timer_stays_sound
           [Start 1; Second; Pause; Second; AddTime 2; Resume; Second; Cancel]
           (setCallbacks construct)).
  - split; cbn; [auto | discriminate].
  - repeat first [apply Forall_nil_2 | apply Forall_cons_2]; cbn;
      first [exact I | lia].
Defined.

Lemma ticks_succ (installed : bool) (n : Z) (k : nat) :
  ticks installed n (Datatypes.S k)
  = ticks installed n k ++
    (if installed then [OnTick (n - Z.of_nat (Datatypes.S k))%Z n] else []).
Proof.
  unfold ticks. destruct installed; [|reflexivity].
  rewrite seq_S, fmap_app. reflexivity.
Qed.

Lemma countdown_runs (minutes : Z) (t : TimerManager) (k : nat) :
  (0 < minutes)%Z ->
  (Z.of_nat k < minutes * 60)%Z ->
  afterSeconds k (start minutes t)
  = mkTimer true (minutes * 60 - Z.of_nat k)%Z (minutes * 60)%Z true
      (onTick t) (onComplete t) (onCancel t)
      (calls (start minutes t) ++ ticks (onTick t) (minutes * 60)%Z k).
Proof.
  intros Hm. unfold afterSeconds.
  set (t0 := start minutes t). set (n := (minutes * 60)%Z).
  assert (Ht0 : t0 = mkTimer true n n true (onTick t) (onComplete t)
                       (onCancel t) (calls t0)).
  { unfold t0, start, cancel, stopInterval, reset, call.
    destruct (Z.leb_spec minutes 0); [lia|].
    destruct t as [ti rem tot act ot oc ocl cs]. cbn.
    destruct act, ot, ocl; reflexivity. }
  induction k as [|k IH]; intros Hk.
  - cbn [Nat.iter]. rewrite Ht0 at 1. cbn [calls].
    unfold ticks. destruct (onTick t); cbn; rewrite ?app_nil_r;
      f_equal; lia.
  - rewrite Nat.iter_succ, IH by lia. rewrite ticks_succ.
    assert (Hz : (n - Z.of_nat k - 1 = n - Z.of_nat (Datatypes.S k))%Z)
      by lia.
    unfold second, tick, call.
    cbn [timerInterval isActive negb remainingTime totalTime onTick
         onComplete onCancel calls].
    rewrite Hz.
    destruct (onTick t);
      cbn [timerInterval isActive negb remainingTime totalTime onTick
           onComplete onCancel calls];
      (destruct (Z.leb_spec (n - Z.of_nat (Datatypes.S k)) 0); [lia|]);
      rewrite ?app_nil_r, ?app_assoc; reflexivity.
Qed.

Lemma countdown_ends (minutes : Z) (t : TimerManager) :
  (0 < minutes)%Z ->
  let t0 := start minutes t in
  let n := (minutes * 60)%Z in
  afterSeconds (Z.to_nat n) t0
  = mkTimer false 0 0 false (onTick t) (onComplete t) (onCancel t)
      (calls t0 ++ ticks (onTick t) n (Z.to_nat n) ++
       (if onComplete t then [OnComplete] else [])).
Proof.
  intros Hm t0 n.
  assert (Hn : Z.to_nat n = Datatypes.S (Z.to_nat (n - 1)))
    by (unfold n; lia).
  rewrite Hn at 1. unfold afterSeconds. rewrite Nat.iter_succ.
  pose proof (countdown_runs minutes t (Z.to_nat (n - 1)) Hm) as Hrun.
  fold t0 n in Hrun. unfold afterSeconds in Hrun.
  rewrite Hrun by (unfold n; lia).
  rewrite Hn, ticks_succ, <- Hn.
  assert (Hz : (n - Z.of_nat (Z.to_nat (n - 1)) - 1 = 0)%Z)
    by (unfold n; lia).
  assert (Hz' : (n - Z.of_nat (Z.to_nat n) = 0)%Z)
    by (unfold n; lia).
  unfold second, tick, complete, stopInterval, reset, call.
  cbn [timerInterval isActive negb remainingTime totalTime onTick
       onComplete onCancel calls].
  rewrite Hz, Hz'.
  destruct (onTick t);
    cbn [timerInterval isActive negb remainingTime totalTime onTick
         onComplete onCancel calls Z.leb Z.compare];
    destruct (onComplete t);
    cbn [timerInterval isActive negb remainingTime totalTime onTick
         onComplete onCancel calls];
    rewrite ?app_nil_r, <- ?app_assoc; reflexivity.
Qed.

Lemma countdown_over (minutes : Z) (t : TimerManager) (k : nat) :
  (0 < minutes)%Z ->
  let t0 := start minutes t in
  let n := (minutes * 60)%Z in
  (n <= Z.of_nat k)%Z ->
  let tk := afterSeconds k t0 in
  isActive tk = false /\ timerInterval tk = false /\
  remainingTime tk = 0%Z /\ totalTime tk = 0%Z /\
  calls tk = calls t0 ++ ticks (onTick t) n (Z.to_nat n) ++
             (if onComplete t then [OnComplete] else []).
Proof.
  intros Hm t0 n Hk.
  pose proof (countdown_ends minutes t Hm) as Hend.
  cbv zeta in Hend. fold t0 n in Hend.
  assert (Hk' : exists j, k = (j + Z.to_nat n)%nat)
    by (exists (k - Z.to_nat n)%nat; lia).
  destruct Hk' as [j ->]. clear Hk.
  intros tk. unfold tk, afterSeconds.
  induction j as [|j IH].
  - cbn [Nat.add]. fold (afterSeconds (Z.to_nat n) t0). rewrite Hend.
    cbn. auto.
  - cbn [Nat.add]. rewrite Nat.iter_succ.
    set (tj := Nat.iter (j + Z.to_nat n) second t0) in *.
    destruct IH as (Ha & Hi & Hr & Htot & Hc).
    unfold second. rewrite Hi. auto.
Qed.

(** A timer, in a sound state, that is started for a positive number of
    minutes and left to the clock counts down one second at a time,
    calling [onTick] each second, and stays active until the last second;
    with that second it calls [onTick] with 0 and then [onComplete], once,
    stops its interval and resets both times to 0.  Later seconds change
    nothing. *)
Theorem countdown_completes (minutes : Z) (t : TimerManager) :
  timerSound t -> (0 < minutes)%Z ->
  let t0 := start minutes t in
  let n := (minutes * 60)%Z in
  (forall k, (Z.of_nat k < n)%Z ->
     let tk := afterSeconds k t0 in
     isActive tk = true /\ timerInterval tk = true /\
     remainingTime tk = (n - Z.of_nat k)%Z /\ totalTime tk = n /\
     calls tk = calls t0 ++ ticks (onTick t) n k) /\
  (forall k, (n <= Z.of_nat k)%Z ->
     let tk := afterSeconds k t0 in
     isActive tk = false /\ timerInterval tk = false /\
     remainingTime tk = 0%Z /\ totalTime tk = 0%Z /\
     calls tk = calls t0 ++ ticks (onTick t) n (Z.to_nat n) ++
                (if onComplete t then [OnComplete] else [])).
Proof.
  intros _ Hm t0 n. split.
  - intros k Hk tk. unfold tk, t0, n in *.
    rewrite (countdown_runs minutes t k Hm Hk). cbn. auto.
  - intros k Hk. apply (countdown_over minutes t k Hm Hk).
Qed.

Lemma countdown_completes_witness :
  calls (afterSeconds 60 (start 1 (setCallbacks construct)))
  = calls (start 1 (setCallbacks construct)) ++
    ticks true 60 60 ++ [OnComplete].
Proof.
  refine (proj2 (proj2 (proj2 (proj2
            (proj2 (countdown_completes 1 (setCallbacks construct) _ _)
               60%nat _))))).
  - split; cbn; [auto | discriminate].
  - lia.
  - cbn. lia.
Defined.

(** During a countdown left to the clock, the timer is in its warning
    period exactly from the second at which thirty seconds remain until
    the countdown completes, and not after that. *)
Theorem warning_period_is_last_thirty (minutes : Z) (t : TimerManager)
    (k : nat) :
  timerSound t -> (0 < minutes)%Z ->
  isInWarningPeriod (afterSeconds k (start minutes t)) = true <->
  (minutes * 60 - 30 <= Z.of_nat k < minutes * 60)%Z.
Proof.
  intros _ Hm.
  destruct (Z.lt_ge_cases (Z.of_nat k) (minutes * 60)) as [Hlt|Hge].
  - rewrite (countdown_runs minutes t k Hm Hlt).
    unfold isInWarningPeriod. cbn [isActive remainingTime andb].
    rewrite Z.leb_le. lia.
  - destruct (countdown_over minutes t k Hm Hge) as (Ha & _).
    cbv zeta in Ha. unfold isInWarningPeriod. rewrite Ha. cbn.
    split; [discriminate | lia].
Qed.

Lemma warning_period_is_last_thirty_witness :
  isInWarningPeriod (afterSeconds 35 (start 1 (setCallbacks construct)))
  = true.
Proof.
  apply (warning_period_is_last_thirty 1 (setCallbacks construct) 35).
  - split; cbn; [auto | discriminate].
  - lia.
  - cbn. lia.
Defined.

End TimerFacts.

(** ** Removing a preset *)

Module RemoveFacts.
Import Js Terms RemovePreset.






End RemoveFacts.

(** ** The impulse responses *)

Module ImpulseFacts.
Import Js Spec Terms Impulse.

Lemma exp_nonpos (x : R) : x <= 0 -> 0 < exp x <= 1.
Proof.
  intros Hx. split; [apply exp_pos|].
  destruct Hx as [Hlt| ->]; [|rewrite exp_0; lra].
  left. rewrite <- exp_0. apply exp_increasing, Hlt.
Qed.

Lemma Math_pow_unit (x y : R) : 0 < x <= 1 -> 0 <= y -> 0 < Math_pow x y <= 1.
Proof.
  intros [Hx H1] Hy. unfold Math_pow.
  destruct (Rlt_dec 0 x) as [_|Hn]; [|contradiction].
  unfold Rpower. apply exp_nonpos.
  assert (Hln : ln x <= 0).
  { destruct H1 as [Hlt| ->]; [|rewrite ln_1; lra].
    left. rewrite <- ln_1. apply ln_increasing; assumption. }
  nra.
Qed.

Lemma reverbCell_envelope (sampleRate duration decay : R) (i : nat) (r : R) :
  0 < sampleRate -> 0 < duration -> 0 <= decay ->
  INR i < sampleRate * duration -> 0 <= r < 1 ->
  let envelope := Math_pow (1 - INR i / sampleRate / duration) decay in
  Rabs (reverbCell sampleRate duration decay i r) <= envelope /\
  0 < envelope <= 1.
Proof.
  intros Hs Hd Hdecay Hi Hr envelope.
  assert (Hbase : 0 < 1 - INR i / sampleRate / duration <= 1).
  { pose proof (pos_INR i) as Hpos.
    assert (Hq : 0 <= INR i / sampleRate / duration < 1).
    { split.
      - apply Rmult_le_pos; [apply Rmult_le_pos|]; try assumption;
          left; apply Rinv_0_lt_compat; assumption.
      - replace 1 with ((sampleRate * duration) / sampleRate / duration)
          by (field; lra).
        apply Rmult_lt_compat_r; [apply Rinv_0_lt_compat; assumption|].
        apply Rmult_lt_compat_r; [apply Rinv_0_lt_compat; assumption|].
        exact Hi. }
    lra. }
  pose proof (Math_pow_unit _ decay Hbase Hdecay) as Henv.
  fold envelope in Henv. split; [|exact Henv].
  unfold reverbCell. cbv zeta. fold envelope.
  rewrite Rabs_mult, (Rabs_pos_eq envelope) by lra.
  assert (Habs : Rabs (r * 2 - 1) <= 1) by (apply Rabs_le; lra).
  nra.
Qed.

(** Every cell of the reverb impulse response the engine builds lies
    within the decay envelope of its instant, [(1 - t / duration) ^ decay],
    which is above 0 and at most 1; both channels have the length asked
    for. *)
Theorem reverb_impulse_within_envelope (sampleRate duration decay : R)
    (length : nat) (g : Rng) :
  0 < sampleRate -> 0 < duration -> 0 <= decay ->
  INR length <= sampleRate * duration -> fair g ->
  let impulse := createReverbImpulse sampleRate duration decay length g in
  List.length impulse.1 = length /\ List.length impulse.2 = length /\
  forall i x, impulse.1 !! i = Some x \/ impulse.2 !! i = Some x ->
    let envelope := Math_pow (1 - INR i / sampleRate / duration) decay in
    Rabs x <= envelope /\ 0 < envelope <= 1.
Proof.
  intros Hs Hd Hdecay Hlen Hg impulse.
  unfold impulse, createReverbImpulse. cbn [fst snd].
  rewrite !length_fmap, !length_seq.
  split; [reflexivity|]. split; [reflexivity|].
  intros i x Hx.
  assert (Hcell : exists r, (i < length)%nat /\ 0 <= r < 1 /\
                    x = reverbCell sampleRate duration decay i r).
  { destruct Hx as [Hx|Hx]; rewrite list_lookup_fmap in Hx;
      destruct (seq 0 length !! i) as [j|] eqn:Hj; try discriminate Hx;
      apply lookup_seq in Hj as [-> Hlt]; cbn in Hx;
      injection Hx as <-; eexists; (split; [exact Hlt|]);
      (split; [apply Hg | reflexivity]). }
  destruct Hcell as (r & Hlt & Hr & ->).
  apply reverbCell_envelope; try assumption.
  apply lt_INR in Hlt. lra.
Qed.

Lemma reverb_impulse_within_envelope_witness :
  List.length (createReverbImpulse 44100 3 0.7 8 (mkRng (fun _ => 0.75) 0)).1
  = 8%nat.
Proof.
  refine (proj1 (reverb_impulse_within_envelope 44100 3 0.7 8
                   (mkRng (fun _ => 0.75) 0) _ _ _ _ _)).
  - lra.
  - lra.
  - lra.
  - replace (INR 8) with 8 by (rewrite INR_IZR_INZ; reflexivity). lra.
  - intros n. cbn. lra.
Defined.

Lemma unit_product (a b : R) : 0 <= a <= 1 -> 0 <= b <= 1 -> 0 <= a * b <= 1.
Proof. intros Ha Hb. split; nra. Qed.

Lemma sin_unit (x : R) : 0 <= x <= 3 -> 0 <= sin x <= 1.
Proof.
  intros [H0 H3]. pose proof PI_gt_3. pose proof (SIN_bound x).
  split; [apply sin_ge_0; lra | lra].
Qed.

Lemma oceanCell_range (sampleRate : R) (channel i : nat) (r1 r2 r3 : R) :
  0 < sampleRate -> INR i <= sampleRate * 3 ->
  0 <= r1 < 1 -> 0 <= r2 < 1 -> 0 <= r3 < 1 ->
  0 <= oceanCell sampleRate channel i r1 r2 r3 <= 0.33.
Proof.
  intros Hs Hi H1 H2 H3. unfold oceanCell. cbv zeta.
  set (time := INR i / sampleRate).
  assert (Ht : 0 <= time <= 3).
  { unfold time. pose proof (pos_INR i).
    assert (0 < / sampleRate) by (apply Rinv_0_lt_compat; assumption).
    split; [apply Rmult_le_pos; lra|].
    replace 3 with ((sampleRate * 3) / sampleRate) by (field; lra).
    apply Rmult_le_compat_r; lra. }
  pose proof (exp_nonpos (- time * 2) ltac:(lra)) as He1.
  pose proof (exp_nonpos (- time * 0.8) ltac:(lra)) as He2.
  pose proof (exp_nonpos (- time * 0.3) ltac:(lra)) as He3.
  pose proof (exp_nonpos (- time) ltac:(lra)) as He4.
  pose proof (sin_unit (time * 0.5) ltac:(lra)) as Hs2.
  pose proof (sin_unit (time * 0.1) ltac:(lra)) as Hs3.
  pose proof (sin_unit (time * 0.3) ltac:(lra)) as Hs4.
  pose proof (sin_unit (time * 0.7) ltac:(lra)) as Hs5.
  set (e1 := exp (- time * 2)) in *. set (e2 := exp (- time * 0.8)) in *.
  set (e3 := exp (- time * 0.3)) in *. set (e4 := exp (- time)) in *.
  set (s2 := sin (time * 0.5)) in *. set (s3 := sin (time * 0.1)) in *.
  set (s4 := sin (time * 0.3)) in *. set (s5 := sin (time * 0.7)) in *.
  pose proof (unit_product r1 e1 ltac:(lra) ltac:(lra)) as P1.
  pose proof (unit_product e2 s2 ltac:(lra) ltac:(lra)) as P2.
  pose proof (unit_product r2 (e2 * s2) ltac:(lra) P2) as P2'.
  pose proof (unit_product e3 s3 ltac:(lra) ltac:(lra)) as P3.
  pose proof (unit_product r3 (e3 * s3) ltac:(lra) P3) as P3'.
  pose proof (unit_product s4 e4 ltac:(lra) ltac:(lra)) as P4.
  set (sample := 0 + r1 * 0.5 * e1 + r2 * 0.3 * e2 * s2 + r3 * 0.2 * e3 * s3).
  assert (Hsample : 0 <= sample <= 1) by (unfold sample; lra).
  set (modulation := 1 + 0.1 * s4 * e4).
  assert (Hmod : 1 <= modulation <= 1.1) by (unfold modulation; lra).
  assert (Hsm : 0 <= sample * modulation <= 1.1) by (split; nra).
  destruct (decide (channel = 1%nat)); [|lra].
  set (width := 0.8 + 0.2 * s5).
  assert (Hw : 0.8 <= width <= 1) by (unfold width; lra).
  assert (0 <= sample * modulation * width <= 1.1) by (split; nra).
  lra.
Qed.

(** Every cell of the ocean impulse response, which spans three seconds,
    lies between 0 and 0.33: the response has no negative cell.  Both
    channels have the length asked for. *)
Theorem ocean_impulse_is_nonnegative (sampleRate : R) (length : nat)
    (g : Rng) :
  0 < sampleRate -> INR length <= sampleRate * 3 -> fair g ->
  let impulse := createOceanImpulseResponse sampleRate length g in
  List.length impulse.1 = length /\ List.length impulse.2 = length /\
  forall i x, impulse.1 !! i = Some x \/ impulse.2 !! i = Some x ->
    0 <= x <= 0.33.
Proof.
  intros Hs Hlen Hg impulse.
  unfold impulse, createOceanImpulseResponse. cbn [fst snd].
  rewrite !length_fmap, !length_seq.
  split; [reflexivity|]. split; [reflexivity|].
  intros i x Hx.
  assert (Hcell : exists channel r1 r2 r3,
            (i < length)%nat /\ 0 <= r1 < 1 /\ 0 <= r2 < 1 /\ 0 <= r3 < 1 /\
            x = oceanCell sampleRate channel i r1 r2 r3).
  { destruct Hx as [Hx|Hx]; rewrite list_lookup_fmap in Hx;
      destruct (seq 0 length !! i) as [j|] eqn:Hj; try discriminate Hx;
      apply lookup_seq in Hj as [-> Hlt]; cbn in Hx;
      injection Hx as <-; do 4 eexists; (split; [exact Hlt|]);
      (split; [apply Hg|]); (split; [apply Hg|]);
      (split; [apply Hg | reflexivity]). }
  destruct Hcell as (channel & r1 & r2 & r3 & Hlt & H1 & H2 & H3 & ->).
  apply oceanCell_range; try assumption.
  apply lt_INR in Hlt. lra.
Qed.

Lemma ocean_impulse_is_nonnegative_witness :
  List.length (createOceanImpulseResponse 44100 8 (mkRng (fun _ => 0.75) 0)).1
  = 8%nat.
Proof.
  refine (proj1 (ocean_impulse_is_nonnegative 44100 8
                   (mkRng (fun _ => 0.75) 0) _ _ _)).
  - lra.
  - replace (INR 8) with 8 by (rewrite INR_IZR_INZ; reflexivity). lra.
  - intros n. cbn. lra.
Defined.

End ImpulseFacts.

(** ** The noise-type buttons *)

Module ButtonFacts.
Import Js Engine Spec Terms.

Lemma lookup_cons_S {A} (x : A) (l : list A) (i : nat) :
  (x :: l) !! Datatypes.S i = l !! i.
Proof. reflexivity. Qed.

Lemma take_cons_S {A} (x : A) (l : list A) (i : nat) :
  take (Datatypes.S i) (x :: l) = x :: take i l.
Proof. reflexivity. Qed.

Lemma activate_cleared (t : string) (buttons : list (string * bool))
    (i : nat) (d : string) (active : bool) :
  activate t ((fun b : string * bool => (b.1, false)) <$> buttons) !! i
  = Some (d, active) ->
  buttons.*1 !! i = Some d /\
  (active = true <-> d = t /\ t ∉ take i buttons.*1).
Proof.
  revert i. induction buttons as [|[d0 a0] buttons IH]; intros i.
  - cbn. intros [=].
  - rewrite !fmap_cons. cbn [activate fst]. case_decide as Hd.
    + destruct i as [|i].
      * cbn. intros [= <- <-]. split; [reflexivity|].
        split; [intros _; split; [exact Hd | apply not_elem_of_nil]|auto].
      * rewrite !lookup_cons_S, take_cons_S. intros Hi.
        rewrite list_lookup_fmap in Hi.
        destruct (buttons !! i) as [[d1 a1]|] eqn:Hb; [|discriminate Hi].
        injection Hi as <- <-.
        rewrite list_lookup_fmap, Hb. split; [reflexivity|].
        split; [discriminate|]. intros [_ Hout]. exfalso. apply Hout.
        subst d0. apply elem_of_cons. left. reflexivity.
    + destruct i as [|i].
      * cbn. intros [= <- <-]. split; [reflexivity|].
        split; [discriminate | intros [Heq _]; contradiction].
      * rewrite !lookup_cons_S, take_cons_S. intros Hi.
        destruct (IH i Hi) as [Hname Hact].
        split; [exact Hname|]. rewrite Hact.
        split; intros [Heq Hout]; (split; [exact Heq|]).
        -- apply not_elem_of_cons. split; [congruence | exact Hout].
        -- apply not_elem_of_cons in Hout as [_ Hout]. exact Hout.
Qed.

Lemma activate_names (t : string) (buttons : list (string * bool)) :
  (activate t buttons).*1 = buttons.*1.
Proof.
  induction buttons as [|[d a] buttons IH]; [reflexivity|].
  cbn [activate]. case_decide; cbn; [reflexivity|]. f_equal. exact IH.
Qed.

(** [selectNoiseType], for a type that can stand in a selector as it is,
    makes its argument the active type whether or not a button carries it,
    keeps the buttons and their order, and leaves at most one button
    active, the first whose [data-type] is the argument; when no button
    carries it, none is active. *)
Theorem selectNoiseType_buttons (t : string) (a : App) :
  selectorSafe t ->
  let a' := selectNoiseType t a in
  currentNoiseType (engine a') = t /\
  (noiseButtons (page a')).*1 = (noiseButtons (page a)).*1 /\
  (forall i d active,
     noiseButtons (page a') !! i = Some (d, active) ->
     (active = true <-> d = t /\ t ∉ take i (noiseButtons (page a)).*1)) /\
  (forall i j d d',
     noiseButtons (page a') !! i = Some (d, true) ->
     noiseButtons (page a') !! j = Some (d', true) -> i = j) /\
  (t ∉ (noiseButtons (page a)).*1 ->
   forall i d active,
     noiseButtons (page a') !! i = Some (d, active) -> active = false).
Proof.
  intros _. cbv zeta. unfold selectNoiseType. cbn [engine page noiseButtons].
  split; [reflexivity|].
  split.
  { rewrite activate_names, <- list_fmap_compose. reflexivity. }
  assert (Hact : forall i d active,
            activate t ((fun b : string * bool => (b.1, false)) <$>
                        noiseButtons (page a)) !! i = Some (d, active) ->
            (noiseButtons (page a)).*1 !! i = Some d /\
            (active = true <->
             d = t /\ t ∉ take i (noiseButtons (page a)).*1)).
  { intros i d active. apply activate_cleared. }
  split; [intros i d active Hi; apply (Hact i d active Hi)|].
  split.
  - intros i j d d' Hi Hj.
    destruct (Hact i d true Hi) as [Hdi [Hi' _]].
    destruct (Hact j d' true Hj) as [Hdj [Hj' _]].
    destruct (Hi' eq_refl) as [-> Hout_i].
    destruct (Hj' eq_refl) as [-> Hout_j].
    destruct (Nat.lt_trichotomy i j) as [Hlt|[Heq|Hlt]]; [|exact Heq|].
    + exfalso. apply Hout_j. eapply list_elem_of_lookup_2.
      rewrite lookup_take_lt by exact Hlt. exact Hdi.
    + exfalso. apply Hout_i. eapply list_elem_of_lookup_2.
      rewrite lookup_take_lt by exact Hlt. exact Hdj.
  - intros Hout i d active Hi.
    destruct (Hact i d active Hi) as [Hd [Ha _]].
    destruct active; [|reflexivity].
    destruct (Ha eq_refl) as [-> _]. exfalso. apply Hout.
    eapply list_elem_of_lookup_2, Hd.
Qed.

Lemma selectNoiseType_buttons_witness :
  default true
    (snd <$> noiseButtons (page (selectNoiseType "purple" sparseApp)) !! 1%nat)
  = false.
Proof.
  destruct (noiseButtons (page (selectNoiseType "purple" sparseApp)) !! 1%nat)
    as [[d active]|] eqn:E; [|discriminate E].
  cbn [fmap option_fmap option_map default from_option snd].
  refine (proj2 (proj2 (proj2 (proj2
            (selectNoiseType_buttons "purple" sparseApp _))))
            _ 1%nat d active E).
  - apply (bool_decide_unpack _). vm_compute. exact I.
  - apply (bool_decide_unpack _). vm_compute. exact I.
Defined.

End ButtonFacts.

(** ** Exporting a profile and importing it again *)

Module ExportFacts.
Import Js Engine Spec Terms Controls.

Lemma readSliders_entries (parse : R -> R) (prefix : string)
    (keys : list string) (p : Page) (l : list (string * R)) :
  readSliders parse prefix keys p = Some l ->
  l.*1 = keys /\
  forall key v, key ∈ keys -> elements p !! (prefix +:+ key) = Some v ->
    (key, parse v) ∈ l.
Proof.
  unfold readSliders. revert l.
  induction keys as [|key keys IH]; intros l.
  - cbn. intros [= <-]. split; [reflexivity|]. intros key v Hin. inversion Hin.
  - cbn [mapM]. destruct (elements p !! (prefix +:+ key)) as [v|] eqn:Hv;
      [|intros [=]].
    cbn. destruct (mapM _ keys) as [l'|] eqn:Hl'; cbn; [|intros [=]].
    intros [= <-]. destruct (IH l' eq_refl) as [Hkeys Hentries].
    split; [cbn; f_equal; exact Hkeys|].
    intros key' v' Hin Hv'. apply elem_of_cons in Hin as [->|Hin].
    + rewrite Hv in Hv'. injection Hv' as <-. apply elem_of_cons. auto.
    + apply elem_of_cons. right. apply Hentries; assumption.
Qed.

Lemma readSliders_present (parse : R -> R) (prefix : string)
    (keys : list string) (p : Page) :
  (forall key, key ∈ keys -> is_Some (elements p !! (prefix +:+ key))) <->
  is_Some (readSliders parse prefix keys p).
Proof.
  unfold readSliders. induction keys as [|key keys IH].
  - cbn. split; [eauto|]. intros _ key Hin. inversion Hin.
  - cbn [mapM]. split.
    + intros H. destruct (H key) as [v ->]; [apply elem_of_cons; auto|].
      cbn. destruct (proj1 IH) as [l' ->]; [|cbn; eauto].
      intros key' Hin. apply H, elem_of_cons. auto.
    + intros [l Hl] key' Hin.
      destruct (elements p !! (prefix +:+ key)) as [v|] eqn:Hv;
        [|discriminate Hl].
      cbn in Hl. destruct (mapM _ keys) as [l'|] eqn:Hl'; [|discriminate Hl].
      apply elem_of_cons in Hin as [->|Hin]; [rewrite Hv; eauto|].
      apply (proj2 IH); [eauto | exact Hin].
Qed.

Lemma loadEffect_frame (a : App) (entry : string * R) :
  let a' := loadEffect a entry in
  eqBands (engine a') = eqBands (engine a) /\
  masterGain (engine a') = masterGain (engine a) /\
  currentNoiseType (engine a') = currentNoiseType (engine a) /\
  isPlaying (engine a') = isPlaying (engine a) /\
  noiseStates (engine a') = noiseStates (engine a) /\
  rng (engine a') = rng (engine a) /\
  noiseButtons (page a') = noiseButtons (page a) /\
  alerts a' = alerts a.
Proof.
  cbv zeta. destruct entry as [effectName v]. unfold loadEffect.
  destruct (elements (page a) !! _); [|auto 10].
  destruct (elements (page a) !! _); [|auto 10].
  cbn [engine onEngine setElement page alerts noiseButtons].
  destruct (KnobFacts.updateEffect_keeps_eq effectName v (engine a))
    as [Hm Hb].
  destruct (IntegratorFacts.updateEffect_keeps_generators effectName v
              (engine a)) as [Hn Hr].
  rewrite Hm, Hb, Hn, Hr.
  split; [reflexivity|]. split; [reflexivity|].
  split; [|split; [|auto]];
    unfold updateEffect; repeat case_decide; repeat case_match; reflexivity.
Qed.

Lemma loadEffects_frame (effects : list (string * R)) (a : App) :
  let a' := foldl loadEffect a effects in
  eqBands (engine a') = eqBands (engine a) /\
  masterGain (engine a') = masterGain (engine a) /\
  currentNoiseType (engine a') = currentNoiseType (engine a) /\
  isPlaying (engine a') = isPlaying (engine a) /\
  noiseStates (engine a') = noiseStates (engine a) /\
  rng (engine a') = rng (engine a) /\
  noiseButtons (page a') = noiseButtons (page a) /\
  alerts a' = alerts a.
Proof.
  cbv zeta. revert a. induction effects as [|entry effects IH]; intros a.
  - cbn. auto 10.
  - cbn [foldl].
    destruct (IH (loadEffect a entry))
      as (H1 & H2 & H3 & H4 & H5 & H6 & H7 & H8).
    destruct (loadEffect_frame a entry)
      as (G1 & G2 & G3 & G4 & G5 & G6 & G7 & G8).
    rewrite H1, H2, H3, H4, H5, H6, H7, H8. auto 10.
Qed.

(** [exportProfile] changes neither the engine nor the page.  Given a
    name, it writes a file exactly when the sliders of the ten bands and
    of the six effects are all on the page, and then reports it; with no
    name, or with a slider missing, it reports nothing.  The file lists
    the ten bands in their order with the values of their sliders, the six
    effects in their order with the integer parts of theirs, the active
    noise type, and a volume of 100. *)
Theorem exportProfile_outcome (fileName : option string) (created : string)
    (a : App) :
  let r := exportProfile fileName created a in
  engine r.2 = engine a /\ page r.2 = page a /\
  (match r.1 with
   | ExportDone _ => exists given, fileName = Some given /\ given <> "" /\
       alerts r.2 = alerts a ++
         ["Profile " +:+ quote +:+ given +:+ quote +:+
          " exported successfully!"]
   | _ => r.2 = a
   end) /\
  (r.1 = ExportCancelled <-> fileName = None \/ fileName = Some "") /\
  ((exists file, r.1 = ExportDone file) <->
   (exists given, fileName = Some given /\ given <> "") /\
   (forall band, band ∈ name <$> eqFrequencies ->
      is_Some (elements (page a) !! ("eq-" +:+ band))) /\
   (forall effect, effect ∈ effects ->
      is_Some (elements (page a) !! effect))) /\
  (forall file, r.1 = ExportDone file ->
     p_name (f_profile file) = fileName /\
     p_noiseType (f_profile file) = Some (currentNoiseType (engine a)) /\
     f_volume file = 100 /\
     (exists eq, p_eq (f_profile file) = Some eq /\
        eq.*1 = name <$> eqFrequencies /\
        forall band v, band ∈ name <$> eqFrequencies ->
          elements (page a) !! ("eq-" +:+ band) = Some v ->
          (band, v) ∈ eq) /\
     (exists fx, p_effects (f_profile file) = Some fx /\
        fx.*1 = effects /\
        forall effect v, effect ∈ effects ->
          elements (page a) !! effect = Some v ->
          (effect, parseInt v) ∈ fx)).
Proof.
  cbv zeta. unfold exportProfile.
  destruct fileName as [given|].
  2: { cbn. split; [reflexivity|]. split; [reflexivity|].
       split; [reflexivity|]. split; [split; auto|].
       split; [|intros file [=]].
       split; [intros [file [=]] | intros [(given & [=] & _) _]]. }
  case_decide as Hgiven.
  { subst given. cbn. split; [reflexivity|]. split; [reflexivity|].
    split; [reflexivity|]. split; [split; auto|].
    split; [|intros file [=]].
    split; [intros [file [=]]
           | intros [(given & [= <-] & Hne) _]; contradiction]. }
  pose proof (readSliders_present (fun v => v) "eq-" (name <$> eqFrequencies)
                (page a)) as Heq.
  pose proof (readSliders_present parseInt "" effects (page a)) as Hfx.
  destruct (readSliders (fun v => v) "eq-" (name <$> eqFrequencies) (page a))
    as [eq|] eqn:Eeq.
  2: { cbn. split; [reflexivity|]. split; [reflexivity|].
       split; [reflexivity|].
       split; [split; [intros [=] | intros [[=]|[= ->]]; contradiction]|].
       split; [|intros file [=]].
       split; [intros [file [=]]|]. intros (_ & Hb & _).
       apply Heq in Hb. destruct Hb as [? [=]]. }
  destruct (readSliders parseInt "" effects (page a)) as [fx|] eqn:Efx.
  2: { cbn. split; [reflexivity|]. split; [reflexivity|].
       split; [reflexivity|].
       split; [split; [intros [=] | intros [[=]|[= ->]]; contradiction]|].
       split; [|intros file [=]].
       split; [intros [file [=]]|]. intros (_ & _ & Hf).
       apply Hfx in Hf. destruct Hf as [? [=]]. }
  cbn [fst snd engine page alert alerts].
  split; [reflexivity|]. split; [reflexivity|].
  split; [exists given; auto|].
  split; [split; [intros [=] | intros [[=]|[= ->]]; contradiction]|].
  split.
  { split; [|eauto]. intros _.
    split; [eauto|]. split; [apply Heq; eauto | apply Hfx; eauto]. }
  intros file [= <-]. cbn.
  destruct (readSliders_entries _ _ _ _ _ Eeq) as [Hk1 He1].
  destruct (readSliders_entries _ _ _ _ _ Efx) as [Hk2 He2].
  split; [reflexivity|]. split; [reflexivity|]. split; [reflexivity|].
  split; [exists eq; auto | exists fx; auto].
Qed.

Lemma exportProfile_outcome_witness :
  exportProfile (Some "night") "2024-01-01" sparseApp = (ExportThrows, sparseApp).
Proof.
  pose proof (exportProfile_outcome (Some "night") "2024-01-01" sparseApp)
    as (_ & _ & Hsame & Hcancel & Hdone & _).
  cbv zeta in *.
  destruct (exportProfile (Some "night") "2024-01-01" sparseApp)
    as [[| |file] a'] eqn:E; cbn [fst snd] in *.
  - destruct (proj1 Hcancel eq_refl) as [[=]|[=]].
  - rewrite Hsame. reflexivity.
  - destruct (proj1 Hdone (ex_intro _ file eq_refl)) as (_ & Hb & _).
    destruct (Hb "subbass") as [v Hv].
    + apply (bool_decide_unpack _). vm_compute. exact I.
    + exfalso. vm_compute in Hv. discriminate Hv.
Defined.



End ExportFacts.

(** ** Starting the player *)

Module StartFacts.
Import Js Terms Player.

Lemma resetState_steady (noiseType : string) (g : NoiseGen.NoiseGenerator) :
  generatorSteady g -> generatorSteady (resetState noiseType g).
Proof.
  intros (Hf & _ & _ & _ & _ & Hg). unfold generatorSteady, resetState. cbn.
  rewrite Rabs_R0.
  split; [exact Hf|]. split; [lra|]. split; [reflexivity|].
  split; [reflexivity|]. split; [|exact Hg].
  repeat first [apply Forall_nil_2 | apply Forall_cons_2];
    apply Rabs_le;
    match goal with
    | |- context [stream ?r ?n] => specialize (Hf n); cbn in Hf; lra
    end.
Qed.

(** [start] succeeds exactly when the player has an audio context and a
    gain node, or has never been initialised and the browser can create
    the context.  A successful start leaves the player playing the type
    asked for, with its script node connected, the brown integrator at 0,
    the seven pink counters at 0 and the seven pink rows drawn afresh from
    the next seven draws; it does not reset the memory of the green and of
    the blue filter, and it keeps the memory of the generator steady. *)
Theorem start_resets_brown_and_pink (available : bool) (noiseType : string)
    (p : NoisePlayer) :
  let r := start available noiseType p in
  let g := generator p in
  let g' := generator r.2 in
  (r.1 = true <->
   (is_Some (audioContext p) /\ is_Some (gainNode p)) \/
   (audioContext p = None /\ initPromise p = None /\ available = true)) /\
  (r.1 = true ->
   isPlaying r.2 = true /\ scriptNode r.2 = true /\
   is_Some (audioContext r.2) /\ is_Some (gainNode r.2) /\
   NoiseGen.currentNoiseType g' = noiseType /\
   NoiseGen.brownNoiseState g' = 0 /\
   NoiseGen.pinkNoiseCounters g' = replicate 7 0%Z /\
   NoiseGen.pinkNoiseState g'
   = (fun k => stream (NoiseGen.rng g)
                 (cursor (NoiseGen.rng g) + N.of_nat k)%N * 2 - 1)
     <$> seq 0 7 /\
   cursor (NoiseGen.rng g') = (cursor (NoiseGen.rng g) + 7)%N /\
   NoiseGen.greenNoiseBuffer g' = NoiseGen.greenNoiseBuffer g /\
   NoiseGen.blueNoisePrev g' = NoiseGen.blueNoisePrev g /\
   (generatorSteady g -> generatorSteady g')).
Proof.
  cbv zeta. unfold start, init, stop, setVolume.
  destruct p as [g ctx promise gain script playing].
  cbn [audioContext initPromise gainNode generator isPlaying scriptNode].
  destruct ctx as [state|]; cbn.
  - destruct playing; cbn; destruct gain as [v|]; cbn.
    all: split;
      [split;
       [intros H; try discriminate H; left; split; eauto
       | intros [[_ [? H]]|([=] & _)]; try discriminate H; reflexivity]
      | intros H; try discriminate H].
    all: do 11 (split; [first [reflexivity | eauto]|]).
    all: apply resetState_steady.
  - destruct promise as [[|]|]; cbn.
    + destruct playing; cbn.
      all: split;
        [split; [intros [=] | intros [[[? [=]] _]|(_ & [=] & _)]]
        | intros [=]].
    + split;
        [split; [intros [=] | intros [[[? [=]] _]|(_ & [=] & _)]]
        | intros [=]].
    + destruct available; cbn.
      * destruct playing; cbn.
        all: split; [split; [intros _; right; auto | reflexivity]|intros _].
        all: do 11 (split; [first [reflexivity | eauto]|]).
        all: apply resetState_steady.
      * split;
          [split; [intros [=] | intros [[[? [=]] _]|(_ & _ & [=])]]
          | intros [=]].
Qed.

Lemma start_resets_brown_and_pink_witness :
  NoiseGen.brownNoiseState
    (generator (start true "brown"
                  (construct (mkRng (fun _ => 0.75) 0))).2) = 0.
Proof.
  refine (proj1 (proj2 (proj2 (proj2 (proj2 (proj2
            (proj2 (start_resets_brown_and_pink true "brown"
                      (construct (mkRng (fun _ => 0.75) 0))) _))))))).
  reflexivity.
Defined.

End StartFacts.

(** ** What an import leaves alone *)

Module ImportFacts.
Import Js Engine Spec Terms.

Lemma loadBand_keeps (a : App) (entry : string * R) :
  let a' := loadBand a entry in
  (compensated (engine a) -> compensated (engine a')) /\
  isPlaying (engine a') = isPlaying (engine a) /\
  limiter (engine a') = limiter (engine a) /\
  rng (engine a') = rng (engine a) /\
  noiseButtons (page a') = noiseButtons (page a).
Proof.
  cbv zeta. destruct entry as [bandName v]. unfold loadBand.
  destruct (elements (page a) !! _); [|auto].
  destruct (elements (page a) !! _); [|auto].
  cbn [engine onEngine setElement page noiseButtons].
  split; [apply KnobFacts.updateEQBand_compensated|].
  unfold updateEQBand, updateAutoGainCompensation.
  repeat case_match; auto.
Qed.

Lemma loadBands_keep (eq : list (string * R)) (a : App) :
  let a' := foldl loadBand a eq in
  (compensated (engine a) -> compensated (engine a')) /\
  isPlaying (engine a') = isPlaying (engine a) /\
  limiter (engine a') = limiter (engine a) /\
  rng (engine a') = rng (engine a) /\
  noiseButtons (page a') = noiseButtons (page a).
Proof.
  cbv zeta. revert a. induction eq as [|entry eq IH]; intros a.
  - cbn. auto.
  - cbn [foldl].
    destruct (IH (loadBand a entry)) as (H1 & H2 & H3 & H4 & H5).
    destruct (loadBand_keeps a entry) as (G1 & G2 & G3 & G4 & G5).
    rewrite H2, H3, H4, H5. auto 10.
Qed.

Lemma loadEffect_limiter (a : App) (entry : string * R) :
  limiter (engine (loadEffect a entry)) = limiter (engine a).
Proof.
  destruct entry as [effectName v]. unfold loadEffect.
  destruct (elements (page a) !! _); [|auto].
  destruct (elements (page a) !! _); [|auto].
  cbn [engine onEngine setElement].
  unfold updateEffect. repeat case_decide; repeat case_match; reflexivity.
Qed.

Lemma loadEffects_limiter (effects : list (string * R)) (a : App) :
  limiter (engine (foldl loadEffect a effects)) = limiter (engine a).
Proof.
  revert a. induction effects as [|entry effects IH]; intros a; [reflexivity|].
  cbn [foldl]. rewrite IH. apply loadEffect_limiter.
Qed.

(** Whatever is uploaded, importing it touches neither the playback state
    nor the memory of the generators, the random source or the limiter,
    keeps the ten filters in place, and leaves the master gain at the
    compensation of the band gains as they are after the import, the
    profile's gains being applied without any clamp. *)
Theorem import_keeps_playback (u : Upload) (a : App) :
  let a' := importProfile u a in
  isPlaying (engine a') = isPlaying (engine a) /\
  noiseStates (engine a') = noiseStates (engine a) /\
  rng (engine a') = rng (engine a) /\
  limiter (engine a') = limiter (engine a) /\
  length (eqBands (engine a')) = length (eqBands (engine a)) /\
  (compensated (engine a) -> compensated (engine a')).
Proof.
  cbv zeta. destruct u as [| |profile]; cbn [importProfile].
  - auto 10.
  - cbn. auto 10.
  - unfold loadProfile. cbn [engine alert].
    set (a1 := loadNoiseType profile a).
    assert (H1 : engine a1 = engine a \/
                 exists t, engine a1 = withNoiseType t (engine a)).
    { unfold a1, loadNoiseType. destruct (p_noiseType profile) as [t|];
        [|auto]. case_decide; [auto|]. right. exists t. reflexivity. }
    assert (H1' : isPlaying (engine a1) = isPlaying (engine a) /\
                  noiseStates (engine a1) = noiseStates (engine a) /\
                  rng (engine a1) = rng (engine a) /\
                  limiter (engine a1) = limiter (engine a) /\
                  eqBands (engine a1) = eqBands (engine a) /\
                  masterGain (engine a1) = masterGain (engine a)).
    { destruct H1 as [->|[t ->]]; cbn; auto 10. }
    destruct H1' as (P1 & N1 & R1 & L1 & B1 & M1).
    set (a2 := match p_eq profile with
               | Some eq => foldl loadBand a1 eq
               | None => a1
               end).
    assert (H2 : (compensated (engine a1) -> compensated (engine a2)) /\
                 isPlaying (engine a2) = isPlaying (engine a1) /\
                 limiter (engine a2) = limiter (engine a1) /\
                 rng (engine a2) = rng (engine a1) /\
                 noiseStates (engine a2) = noiseStates (engine a1) /\
                 length (eqBands (engine a2)) = length (eqBands (engine a1))).
    { unfold a2. destruct (p_eq profile) as [eq|]; [|auto 10].
      destruct (loadBands_keep eq a1) as (C & P & L & R & _).
      destruct (ProfileFacts.loadBands_frame eq a1)
        as (_ & _ & N & Len & _).
      auto 10. }
    destruct H2 as (C2 & P2 & L2 & R2 & N2 & Len2).
    set (a3 := match p_effects profile with
               | Some effects => foldl loadEffect a2 effects
               | None => a2
               end).
    assert (H3 : eqBands (engine a3) = eqBands (engine a2) /\
                 masterGain (engine a3) = masterGain (engine a2) /\
                 isPlaying (engine a3) = isPlaying (engine a2) /\
                 noiseStates (engine a3) = noiseStates (engine a2) /\
                 rng (engine a3) = rng (engine a2) /\
                 limiter (engine a3) = limiter (engine a2)).
    { unfold a3. destruct (p_effects profile) as [effects|]; [|auto 10].
      destruct (ExportFacts.loadEffects_frame effects a2)
        as (B & M & _ & P & N & R & _).
      pose proof (loadEffects_limiter effects a2). auto 10. }
    destruct H3 as (B3 & M3 & P3 & N3 & R3 & L3).
    rewrite P3, P2, P1, N3, N2, N1, R3, R2, R1, L3, L2, L1, B3, Len2, B1.
    repeat (split; [reflexivity|]).
    intros Hc. unfold compensated. rewrite M3, B3. apply C2.
    unfold compensated. rewrite M1, B1. exact Hc.
Qed.

Lemma import_keeps_playback_witness :
  compensated (engine (importProfile (Json partialProfile) someApp)).
Proof.
  apply (proj2 (proj2 (proj2 (proj2 (proj2
           (import_keeps_playback (Json partialProfile) someApp)))))).
  exists 1.0. split; [reflexivity|].
  unfold compensationFactor, totalBoost, gtb.
  change (eqBands (engine someApp))
    with ((fun bandConfig =>
             mkBiquad (type bandConfig) (freq bandConfig)
               (if decide (type bandConfig = "peaking") then 1.0 else 0.7) 0)
          <$> eqFrequencies).
  cbn. destruct (Rgt_dec 0 0); [lra|]. destruct (Rgt_dec 0 20); lra.
Defined.

End ImportFacts.

(** ** The buffer generators of [NoiseGenerator] *)

Module BufferFacts.
Import Js Spec Terms NoiseGen.

Lemma source_random : yields fairSource Math_random (fun r => 0 <= r < 1).
Proof. intros s Hs. split; [apply Hs | exact Hs]. Qed.

Lemma fillBuffer_yields {L} (J : L -> Prop) (Q : R -> Prop)
    (body : nat -> L -> M NoiseGenerator (R * L)) :
  (forall i l, J l -> yields fairSource (body i l)
                        (fun xl => Q xl.1 /\ J xl.2)) ->
  forall n i l, J l ->
    yields fairSource (fillBuffer body i n l)
      (fun xs => length xs = n /\ Forall Q xs).
Proof.
  intros Hbody n. induction n as [|n IH]; intros i l Hl.
  - apply yields_ret. split; [reflexivity | apply Forall_nil_2].
  - cbn [fillBuffer]. eapply yields_bind; [apply (Hbody i l Hl)|].
    intros [x l'] [Hx Hl']. cbn [fst snd] in *.
    eapply yields_bind; [apply (IH (Datatypes.S i) l' Hl')|].
    intros xs [Hlen Hxs]. apply yields_ret.
    split; [cbn; f_equal; exact Hlen | apply Forall_cons_2; assumption].
Qed.

Lemma white_buffer (length : nat) :
  yields fairSource (generateWhiteNoise length)
    (fun xs => List.length xs = length /\ Forall (fun x => Rabs x <= 1) xs).
Proof.
  unfold generateWhiteNoise.
  apply (fillBuffer_yields (fun _ => True)); [|exact I].
  intros i l _. eapply yields_bind; [apply source_random|].
  intros r Hr. apply yields_ret. cbn. split; [apply Rabs_le; lra | exact I].
Qed.

Lemma bufferRows_bound (i : nat) (rates : list Z) (sum : R) (index : nat)
    (generators : list R) :
  Forall (fun g => Rabs g <= 1) generators ->
  yields fairSource (bufferRows i sum rates index generators)
    (fun row => Rabs (row.1 - sum) <= INR (length rates) /\
                Forall (fun g => Rabs g <= 1) row.2).
Proof.
  revert sum index generators.
  induction rates as [|rate rates IH]; intros sum index generators Hg.
  - apply yields_ret. cbn. replace (sum - sum) with 0 by lra.
    rewrite Rabs_R0. split; [lra | exact Hg].
  - cbn [bufferRows].
    eapply yields_bind with (P := fun gens => Forall (fun g => Rabs g <= 1) gens).
    { destruct (Z.of_nat i mod rate =? 0)%Z; [|apply yields_ret; exact Hg].
      eapply yields_bind; [apply source_random|]. intros r Hr.
      apply yields_ret. apply Forall_insert; [exact Hg|].
      cbv beta in Hr. apply Rabs_le. lra. }
    intros gens Hgens. eapply yields_weaken; [apply (IH _ _ _ Hgens)|].
    intros [sum' gens'] [Hsum Hg']. cbn [fst snd] in *.
    split; [|exact Hg'].
    pose proof (AmplitudeFacts.get_bound 1 gens index ltac:(lra) Hgens) as Hget.
    rewrite length_cons, S_INR.
    apply Rabs_le_inv in Hsum, Hget. apply Rabs_le. lra.
Qed.

Lemma pink_buffer (length : nat) :
  yields fairSource (generatePinkNoise length)
    (fun xs => List.length xs = length /\
               Forall (fun x => Rabs x <= 1.05) xs).
Proof.
  unfold generatePinkNoise.
  eapply yields_bind; [apply (white_buffer 7)|].
  intros generators [_ Hg].
  apply (fillBuffer_yields (fun gens => Forall (fun g => Rabs g <= 1) gens));
    [|exact Hg].
  intros i gens Hgens.
  eapply yields_bind; [apply (bufferRows_bound i updateRates 0 0 gens Hgens)|].
  intros [sum gens'] [Hsum Hg']. cbn [fst snd] in *.
  apply yields_ret. cbn [fst snd]. split; [|exact Hg'].
  replace (INR (List.length updateRates)) with 7 in Hsum
    by (cbn [List.length updateRates]; rewrite INR_IZR_INZ; reflexivity).
  apply Rabs_le_inv in Hsum. apply Rabs_le. lra.
Qed.

Lemma brown_buffer (length : nat) :
  yields fairSource (generateBrownNoise length)
    (fun xs => List.length xs = length /\
               Forall (fun x => Rabs x <= 0.96) xs).
Proof.
  unfold generateBrownNoise.
  apply (fillBuffer_yields (fun lastValue => Rabs lastValue <= 0.96)).
  - intros i lastValue Hlast.
    eapply yields_bind; [apply source_random|]. intros r Hr.
    apply yields_ret. cbn [fst snd].
    pose proof (IntegratorFacts.generator_brownStep_bound lastValue r Hr Hlast).
    split; assumption.
  - rewrite Rabs_R0. lra.
Qed.

Lemma greenTaps_bound (whiteNoise : list R) (prev1 prev2 : R) :
  Forall (fun x => Rabs x <= 1) whiteNoise -> Rabs prev1 <= 8 / 3 ->
  length (greenTaps prev1 prev2 whiteNoise) = length whiteNoise /\
  Forall (fun x => Rabs x <= 28 / 15) (greenTaps prev1 prev2 whiteNoise).
Proof.
  intros Hw. revert prev1 prev2.
  induction Hw as [|input rest Hin _ IH]; intros prev1 prev2 Hp.
  - split; [reflexivity | apply Forall_nil_2].
  - cbn [greenTaps]. cbv zeta.
    apply Rabs_le_inv in Hin, Hp.
    destruct (IH (0.8 * input + -0.4 * prev1 + 0.1 * prev2 - 0.3 * prev1
                  - 0.1 * prev2) prev1) as [Hlen Hall].
    { apply Rabs_le. lra. }
    split; [cbn; f_equal; exact Hlen|].
    apply Forall_cons_2; [apply Rabs_le; lra | exact Hall].
Qed.

Lemma green_buffer (length : nat) :
  yields fairSource (generateGreenNoise length)
    (fun xs => List.length xs = length /\
               Forall (fun x => Rabs x <= 28 / 15) xs).
Proof.
  unfold generateGreenNoise.
  eapply yields_bind; [apply (white_buffer length)|].
  intros whiteNoise [Hlen Hw]. apply yields_ret.
  destruct (greenTaps_bound whiteNoise 0 0 Hw) as [Hl Hall].
  { rewrite Rabs_R0. lra. }
  split; [congruence | exact Hall].
Qed.

Lemma blueTaps_scaled (whiteNoise : list R) (prev : R) :
  blueTaps prev whiteNoise = (fun white => 0.68 * white) <$> whiteNoise.
Proof.
  revert prev. induction whiteNoise as [|white rest IH]; intros prev.
  - reflexivity.
  - cbn [blueTaps]. cbv zeta. rewrite IH, fmap_cons. f_equal. lra.
Qed.

Lemma blue_buffer (length : nat) :
  yields fairSource (generateBlueNoise length)
    (fun xs => List.length xs = length /\
               Forall (fun x => Rabs x <= 0.68) xs).
Proof.
  unfold generateBlueNoise.
  eapply yields_bind; [apply (white_buffer length)|].
  intros whiteNoise [Hlen Hw]. apply yields_ret.
  rewrite blueTaps_scaled, length_fmap. split; [exact Hlen|].
  apply Forall_fmap. eapply Forall_impl; [exact Hw|].
  intros x Hx. cbn. apply Rabs_le_inv in Hx. apply Rabs_le. lra.
Qed.

(** The two-channel buffer [createNoiseBuffer] makes, with draws in
    [0,1): both channels have the length asked for; every cell of the left
    channel is within the amplitude of the noise type, 1 for white, 0.96
    for brown, 28/15 for green, 0.68 for blue and 1.05 for pink and for an
    unrecognised type; and cell [i] of the right channel is 0.95 times the
    cell of the left channel that lies a thousandth of the buffer further,
    wrapping around. *)
Theorem noise_buffer_within_amplitude (noiseType : string)
    (frameCount : nat) (s : NoiseGenerator) :
  fair (rng s) ->
  let out := (createNoiseBuffer noiseType frameCount s).1 in
  fair (rng (createNoiseBuffer noiseType frameCount s).2) /\
  length (Engine.outputL out) = frameCount /\
  length (Engine.outputR out) = frameCount /\
  Forall (fun x => Rabs x <= bufferAmplitude noiseType) (Engine.outputL out) /\
  Forall (fun x => Rabs x <= 0.95 * bufferAmplitude noiseType)
    (Engine.outputR out) /\
  forall i, (i < frameCount)%nat ->
    Engine.outputR out !! i
    = Some (get (Engine.outputL out)
              ((i + frameCount / 1000) mod frameCount) * 0.95).
Proof.
  intros Hs.
  assert (Hdata : yields fairSource
            (if decide (noiseType = "white") then generateWhiteNoise frameCount
             else if decide (noiseType = "pink")
                  then generatePinkNoise frameCount
             else if decide (noiseType = "brown")
                  then generateBrownNoise frameCount
             else if decide (noiseType = "green")
                  then generateGreenNoise frameCount
             else if decide (noiseType = "blue")
                  then generateBlueNoise frameCount
             else generatePinkNoise frameCount)
            (fun xs => length xs = frameCount /\
               Forall (fun x => Rabs x <= bufferAmplitude noiseType) xs)).
  { unfold bufferAmplitude.
    repeat case_decide; subst; try discriminate;
      auto using white_buffer, pink_buffer, brown_buffer, green_buffer,
        blue_buffer. }
  assert (Hpos : 0 <= bufferAmplitude noiseType).
  { unfold bufferAmplitude. repeat case_decide; lra. }
  cbv zeta. unfold createNoiseBuffer.
  match goal with
  | |- context [bind ?m _] => set (pick := m) in *
  end.
  unfold bind. destruct (Hdata s Hs) as [[Hlen Hall] Hfair].
  destruct (pick s) as [noiseData s'].
  cbn [fst snd] in *. unfold ret. cbn [fst snd Engine.outputL Engine.outputR].
  split; [exact Hfair|]. split; [exact Hlen|].
  split; [rewrite length_fmap, length_seq; reflexivity|].
  split; [exact Hall|].
  split.
  - apply Forall_fmap, Forall_forall. intros i _. cbv beta.
    unfold compose.
    pose proof (AmplitudeFacts.get_bound (bufferAmplitude noiseType)
                  noiseData ((i + frameCount / 1000) mod frameCount)
                  Hpos Hall) as Hget.
    apply Rabs_le_inv in Hget. apply Rabs_le. lra.
  - intros i Hi. rewrite list_lookup_fmap, lookup_seq_lt by exact Hi.
    reflexivity.
Qed.

Lemma noise_buffer_within_amplitude_witness :
  length (Engine.outputL
            (createNoiseBuffer "green" 4
               (Player.generator
                  (Player.construct (mkRng (fun _ => 0.75) 0)))).1)
  = 4%nat.
Proof.
  refine (proj1 (proj2
            (noise_buffer_within_amplitude "green" 4
               (Player.generator (Player.construct (mkRng (fun _ => 0.75) 0)))
               _))).
  intros n. cbn. lra.
Defined.

(** The blue noise of [NoiseGenerator] is white noise times 0.68: the
    previous sample that its high-pass stage adds is the one it takes
    away.  Every cell of a blue buffer is 0.68 times the cell of the white
    buffer made from the same draws, and a streamed blue sample is 0.68
    times the white sample of its draw, whatever the previous sample
    was. *)
Theorem blue_is_scaled_white :
  (forall length s,
     generateBlueNoise length s
     = ((fun white => 0.68 * white) <$> (generateWhiteNoise length s).1,
        (generateWhiteNoise length s).2)) /\
  (forall s,
     (generateBlueNoiseSample s).1
     = 0.68 * (stream (rng s) (cursor (rng s)) * 2 - 1)) /\
  (forall g p p',
     let s := mkGen (currentNoiseType g) (brownNoiseState g)
                (pinkNoiseState g) (pinkNoiseCounters g)
                (greenNoiseBuffer g) p (rng g) in
     let s' := mkGen (currentNoiseType g) (brownNoiseState g)
                 (pinkNoiseState g) (pinkNoiseCounters g)
                 (greenNoiseBuffer g) p' (rng g) in
     generateBlueNoiseSample s = generateBlueNoiseSample s').
Proof.
  split; [|split].
  - intros length s. unfold generateBlueNoise, bind.
    destruct (generateWhiteNoise length s) as [whiteNoise s'].
    unfold ret. cbn [fst snd]. rewrite blueTaps_scaled. reflexivity.
  - intros s. unfold generateBlueNoiseSample, bind, gets, modify, ret,
      Math_random. cbn. lra.
  - intros g p p'. cbv zeta.
    unfold generateBlueNoiseSample, bind, gets, modify, ret, Math_random.
    cbn. f_equal. lra.
Qed.

End BufferFacts.
